(** * Adaptation registry of [AdaptationProvider.tsx]

    A shallow embedding of the adaptation map of
    [packages/core-plugin-api/src/adaptable-components/AdaptationProvider.tsx],
    in the revision whose map is keyed by the component ref's [id] and whose
    provider takes the [reset], [excludePlugins], [excludeComponents] and
    [exclude] props.

    The code builds its registry by cloning the parent's JavaScript [Map] and
    then mutating the clone in place ([Map.delete], assignment to
    [value.components], [Array.push]).  Whether the parent is left alone is a
    statement about object identity and aliasing, so the embedding keeps an
    explicit store of JavaScript objects: every [Map], every map value
    [{ propsInterceptors, components }] and every array lives at an address,
    and the functions of the source are programs of a small state-and-failure
    monad over that store.  The elements of the arrays and the adaptation
    declarations they point to are never assigned to by the module; they are
    kept as plain values.

    The development has three parts: the embedding of the source, the
    contract of the specification ([extend_spec]) with the invariants that
    relate the two, and the proofs, ending with one theorem per claim. *)

From stdpp Require Import gmap strings pretty list fin_maps.

Set Default Proof Using "Type".

(** ** Data model *)

(** An address in the store: the identity of a JavaScript object. *)
Definition loc := nat.

(** Modelled from the spec: the declarations of [./types] and
    [../plugin/types] are not part of the source file.  A component ref is an
    object carrying an identifier string [id]; [ref_obj] stands for the
    identity of the reference object itself, so that two separately
    constructed references can carry the same [id]. *)
Record AdaptableComponentRef := mkRef { ref_obj : nat; id : string }.

(** Modelled from the spec: a plugin is used only through its object identity
    ([Set.prototype.has]). *)
Inductive BackstagePlugin := Plugin (plugin_obj : nat).

(** Modelled from the spec: the replacement render function and the props
    interceptor are opaque function values; only their identity is kept. *)
Inductive AdaptableComponentAdaptation := RenderFn (fn_obj : nat).
Inductive AdaptableComponentPropsInterceptor := InterceptFn (fn_obj : nat).

(** Modelled from the spec: [spec] carries zero or one replacement render
    function ([spec.Adaptation]) and zero or one props interceptor
    ([spec.interceptProps]); [None] is JavaScript's [undefined]. *)
Record ComponentAdaptationSpec := mkSpec {
  spec_Adaptation : option AdaptableComponentAdaptation;
  spec_interceptProps : option AdaptableComponentPropsInterceptor;
}.

(** Modelled from the spec: an adaptation declaration with its target [ref],
    its [spec], its [key] and its optional owning [plugin]. *)
Record ComponentAdaptation := mkAdaptation {
  ref : AdaptableComponentRef;
  spec : ComponentAdaptationSpec;
  key : string;
  plugin : option BackstagePlugin;
}.

(** [type WrapAdaptation<T> = T & { adaptation: ComponentAdaptation }] *)
Record WrapAdaptation (T : Type) := mkWrap {
  wrapped : T;
  adaptation : ComponentAdaptation;
}.
Arguments mkWrap {T} _ _.
Arguments wrapped {T} _.
Arguments adaptation {T} _.

(** [type PropsInterceptor = WrapAdaptation<{ propsInterceptor }>] and
    [type Adaptation = WrapAdaptation<{ component }>]. *)
Abbreviation PropsInterceptor := (WrapAdaptation AdaptableComponentPropsInterceptor).
Abbreviation Adaptation := (WrapAdaptation AdaptableComponentAdaptation).
Definition propsInterceptor (p : PropsInterceptor) := wrapped p.
Definition component (a : Adaptation) := wrapped a.

(** [type AdaptationMapKey = string] (the component ref's id). *)
Definition AdaptationMapKey := string.

(** [type AdaptationMapValue = { propsInterceptors: ...[]; components: ...[] }]:
    the two fields hold references to array objects. *)
Record AdaptationMapValue := mkValue {
  propsInterceptors : loc;
  components : loc;
}.

(** [type ContextType = { adaptationMap: Map<...> }]: a reference to a [Map]. *)
Record ContextType := mkContext { adaptationMap : loc }.

(** A value that is either a single element or an array of them
    ([T | T[]] in the props). *)
Inductive OneOrMany (A : Type) :=
  | One (a : A)
  | Many (l : list A).
Arguments One {A} _.
Arguments Many {A} _.

(** [Array.isArray(x) ? x : [x]] *)
Definition toArray {A} (x : OneOrMany A) : list A :=
  match x with
  | One a => [a]
  | Many l => l
  end.

(** Truthiness of an optional object: [undefined] is falsy, every object
    (an empty array included) is truthy. *)
Definition truthy {A} (x : option A) : bool :=
  match x with
  | Some _ => true
  | None => false
  end.

(** [AdaptationProviderProps] without [children]; an absent prop is [None]. *)
Record AdaptationProviderProps := mkProps {
  adaptations : option (OneOrMany ComponentAdaptation);
  reset : option bool;
  excludePlugins : option (list BackstagePlugin);
  excludeComponents : option (OneOrMany AdaptableComponentRef);
  exclude : option (list ComponentAdaptation);
}.

#[global] Instance ref_eq_dec : EqDecision AdaptableComponentRef.
Proof. solve_decision. Defined.
#[global] Instance plugin_eq_dec : EqDecision BackstagePlugin.
Proof. solve_decision. Defined.
#[global] Instance plugin_countable : Countable BackstagePlugin.
Proof.
  apply (inj_countable' (λ p, match p with Plugin n => n end) Plugin).
  by intros [].
Defined.
#[global] Instance render_eq_dec : EqDecision AdaptableComponentAdaptation.
Proof. solve_decision. Defined.
#[global] Instance intercept_eq_dec : EqDecision AdaptableComponentPropsInterceptor.
Proof. solve_decision. Defined.
#[global] Instance spec_eq_dec : EqDecision ComponentAdaptationSpec.
Proof. solve_decision. Defined.
#[global] Instance adaptation_eq_dec : EqDecision ComponentAdaptation.
Proof. solve_decision. Defined.
#[global] Instance wrap_eq_dec {T} `{EqDecision T} : EqDecision (WrapAdaptation T).
Proof. solve_decision. Defined.

(** ** The store *)

(** The JavaScript objects the module creates.  A [Map] is kept as its list of
    entries in insertion order. *)
Inductive obj :=
  | OMap (entries : list (AdaptationMapKey * loc))
  | OValue (v : AdaptationMapValue)
  | OComponents (l : list Adaptation)
  | OInterceptors (l : list PropsInterceptor).

(** The store maps the addresses handed out so far to objects; [next] is the
    next address to hand out. *)
Record heap := mkHeap {
  store : gmap loc obj;
  next : loc;
}.

(** The two ways the store changes: a new object at the next address, and a
    new state for an existing object. *)
Definition halloc (o : obj) (h : heap) : heap :=
  mkHeap (<[next h := o]> (store h)) (S (next h)).
Definition hwrite (l : loc) (o : obj) (h : heap) : heap :=
  mkHeap (<[l := o]> (store h)) (next h).

(** ** The monad of the embedding: state passing over the store, with failure
    where JavaScript would read a property of the wrong kind of object. *)
Definition M (A : Type) : Type := heap → option (A * heap).

Definition ret {A} (a : A) : M A := λ h, Some (a, h).

Definition bind {A B} (m : M A) (k : A → M B) : M B :=
  λ h, match m h with
       | Some (a, h') => k a h'
       | None => None
       end.

Definition fail {A} : M A := λ _, None.

Notation "'let!' x ':=' m 'in' k" := (bind m (λ x, k))
  (at level 10, x pattern, m at level 100, k at level 200).
Notation "m ';;' k" := (bind m (λ _, k))
  (at level 100, k at level 200, right associativity).

(** [forEach]: run the callback on every element, first to last. *)
Fixpoint forEach {A} (f : A → M unit) (l : list A) : M unit :=
  match l with
  | [] => ret tt
  | x :: l' => f x ;; forEach f l'
  end.

(** [Array.prototype.map] with an effectful callback. *)
Fixpoint mapM {A B} (f : A → M B) (l : list A) : M (list B) :=
  match l with
  | [] => ret []
  | x :: l' => let! y := f x in let! ys := mapM f l' in ret (y :: ys)
  end.

(** Allocation of a new object. *)
Definition alloc (o : obj) : M loc :=
  λ h, Some (next h, halloc o h).

Definition read (l : loc) : M obj :=
  λ h, match store h !! l with
       | Some o => Some (o, h)
       | None => None
       end.

Definition write (l : loc) (o : obj) : M unit :=
  λ h, match store h !! l with
       | Some _ => Some (tt, hwrite l o h)
       | None => None
       end.

(** *** [Map] *)

(** Entry lists as JavaScript [Map]s: [get] finds the entry of a key, [set]
    overwrites it in place or appends a new entry, [delete] removes it. *)
Fixpoint entries_get {V} (k : AdaptationMapKey) (es : list (AdaptationMapKey * V)) : option V :=
  match es with
  | [] => None
  | (k', v) :: es' => if decide (k' = k) then Some v else entries_get k es'
  end.

Fixpoint entries_set {V} (k : AdaptationMapKey) (v : V) (es : list (AdaptationMapKey * V))
    : list (AdaptationMapKey * V) :=
  match es with
  | [] => [(k, v)]
  | (k', v') :: es' =>
      if decide (k' = k) then (k, v) :: es' else (k', v') :: entries_set k v es'
  end.

Definition entries_delete {V} (k : AdaptationMapKey) (es : list (AdaptationMapKey * V))
    : list (AdaptationMapKey * V) :=
  filter (λ e, e.1 ≠ k) es.

Definition Map_entries (m : loc) : M (list (AdaptationMapKey * loc)) :=
  let! o := read m in
  match o with
  | OMap es => ret es
  | _ => fail
  end.

Definition Map_values (m : loc) : M (list loc) :=
  let! es := Map_entries m in ret (es.*2).

Definition Map_get (m : loc) (k : AdaptationMapKey) : M (option loc) :=
  let! es := Map_entries m in ret (entries_get k es).

Definition Map_set (m : loc) (k : AdaptationMapKey) (v : loc) : M unit :=
  let! es := Map_entries m in write m (OMap (entries_set k v es)).

Definition Map_delete (m : loc) (k : AdaptationMapKey) : M unit :=
  let! es := Map_entries m in write m (OMap (entries_delete k es)).

(** [new Map(iterable)]: the entries are [set] one after the other. *)
Definition Map_new (es : list (AdaptationMapKey * loc)) : M loc :=
  alloc (OMap (foldl (λ acc e, entries_set e.1 e.2 acc) [] es)).

(** *** Map values and their arrays *)

Definition read_value (v : loc) : M AdaptationMapValue :=
  let! o := read v in
  match o with
  | OValue val => ret val
  | _ => fail
  end.

(** [value.components] and [value.propsInterceptors] (the array references) *)
Definition get_components (v : loc) : M loc :=
  let! val := read_value v in ret (components val).

Definition get_propsInterceptors (v : loc) : M loc :=
  let! val := read_value v in ret (propsInterceptors val).

(** [value.components = c] *)
Definition set_components (v : loc) (c : loc) : M unit :=
  let! val := read_value v in
  write v (OValue (mkValue (propsInterceptors val) c)).

Definition read_components (a : loc) : M (list Adaptation) :=
  let! o := read a in
  match o with
  | OComponents l => ret l
  | _ => fail
  end.

Definition read_interceptors (a : loc) : M (list PropsInterceptor) :=
  let! o := read a in
  match o with
  | OInterceptors l => ret l
  | _ => fail
  end.

(** [[...arr]] *)
Definition copy_components (a : loc) : M loc :=
  let! l := read_components a in alloc (OComponents l).

Definition copy_interceptors (a : loc) : M loc :=
  let! l := read_interceptors a in alloc (OInterceptors l).

(** [arr.filter(p)]: a new array. *)
Definition filter_components (p : Adaptation → bool) (a : loc) : M loc :=
  let! l := read_components a in alloc (OComponents (List.filter p l)).

(** [arr.push(x)]: the array object itself is extended. *)
Definition push_component (a : loc) (x : Adaptation) : M unit :=
  let! l := read_components a in write a (OComponents (l ++ [x])).

Definition push_interceptor (a : loc) (x : PropsInterceptor) : M unit :=
  let! l := read_interceptors a in write a (OInterceptors (l ++ [x])).

(** [arr.find(e => e.adaptation.key === key)] is truthy *)
Definition has_key {T} (k : string) (l : list (WrapAdaptation T)) : bool :=
  existsb (λ e, bool_decide (key (adaptation e) = k)) l.

(** ** The functions of the source *)

(** [const noAdaptations = { propsInterceptors: [], components: [] }]: the
    module-level constant.  Evaluating the module allocates its two arrays and
    then the object itself, before anything else is allocated. *)
Definition module_init : M loc :=
  let! ps := alloc (OInterceptors []) in
  let! cs := alloc (OComponents []) in
  alloc (OValue (mkValue ps cs)).

Definition empty_heap : heap := mkHeap ∅ 0.

Definition noAdaptations : loc := 2.

(** The store right after the module has been evaluated. *)
Definition init_heap : heap :=
  mkHeap (<[2 := OValue (mkValue 0 1)]>
            (<[1 := OComponents []]> (<[0 := OInterceptors []]> ∅))) 3.

(** [cloneAdaptationMap(parent)]: a new [Map] with the parent's keys, each key
    bound to a new value object holding new arrays with the same elements.
    [cloneEntry] is the callback of its [map]: the object literal evaluates
    [[...val.components]], then [[...val.propsInterceptors]], and is then
    allocated itself. *)
Definition cloneEntry (e : AdaptationMapKey * loc) : M (AdaptationMapKey * loc) :=
  let! cs := get_components e.2 in
  let! cs' := copy_components cs in
  let! ps := get_propsInterceptors e.2 in
  let! ps' := copy_interceptors ps in
  let! val := alloc (OValue (mkValue ps' cs')) in
  ret (e.1, val).

Definition cloneAdaptationMap (parent : option loc) : M loc :=
  let! entries :=
    match parent with
    | Some p => Map_entries p
    | None => ret []
    end in
  let! flatMap := mapM cloneEntry entries in
  Map_new flatMap.

(** [ensureMapValue(map, key)] *)
Definition ensureMapValue (map : loc) (k : AdaptationMapKey) : M loc :=
  let! value := Map_get map k in
  match value with
  | Some value => ret value
  | None =>
      let! ps := alloc (OInterceptors []) in
      let! cs := alloc (OComponents []) in
      let! newValue := alloc (OValue (mkValue ps cs)) in
      Map_set map k newValue ;;
      ret newValue
  end.

(** The callback of [adaptations.forEach] in [appendAdaptationMap]. *)
Definition appendAdaptation (adaptationMap : loc) (a : ComponentAdaptation) : M unit :=
  let! value := ensureMapValue adaptationMap (id (ref a)) in
  match spec_Adaptation (spec a) with
  | Some c =>
      let! arr := get_components value in
      let! l := read_components arr in
      if negb (has_key (key a) l) then push_component arr (mkWrap c a) else ret tt
  | None => ret tt
  end ;;
  match spec_interceptProps (spec a) with
  | Some f =>
      let! arr := get_propsInterceptors value in
      let! l := read_interceptors arr in
      if negb (has_key (key a) l) then push_interceptor arr (mkWrap f a) else ret tt
  | None => ret tt
  end.

(** [appendAdaptationMap(adaptationMap, adaptations)] *)
Definition appendAdaptationMap (adaptationMap : loc) (l : list ComponentAdaptation) : M unit :=
  forEach (appendAdaptation adaptationMap) l.

(** The two predicates of the [filter] calls in the exclusion step. *)
Definition plugin_kept (excludePluginsSet : gset BackstagePlugin) (e : Adaptation) : bool :=
  match plugin (adaptation e) with
  | None => true
  | Some p => negb (bool_decide (p ∈ excludePluginsSet))
  end.

Definition key_kept (excludeSet : gset string) (e : Adaptation) : bool :=
  negb (bool_decide (key (adaptation e) ∈ excludeSet)).

(** [if (excludeComponents) { ... }] *)
Definition excludeComponentsStep (adaptationMap : loc)
    (ec : option (OneOrMany AdaptableComponentRef)) : M unit :=
  match ec with
  | Some ec => forEach (λ r, Map_delete adaptationMap (id r)) (toArray ec)
  | None => ret tt
  end.

(** [if (excludePlugins || exclude) { ... }]; an array, even an empty one, is
    truthy. *)
Definition excludeStep (adaptationMap : loc)
    (ep : option (list BackstagePlugin)) (ex : option (list ComponentAdaptation)) : M unit :=
  if truthy ep || truthy ex then
    let excludePluginsSet : gset BackstagePlugin := list_to_set (default [] ep) in
    let excludeSet : gset string := list_to_set (key <$> default [] ex) in
    let! values := Map_values adaptationMap in
    forEach (λ value,
               let! cs := get_components value in
               let! cs1 := filter_components (plugin_kept excludePluginsSet) cs in
               let! cs2 := filter_components (key_kept excludeSet) cs1 in
               set_components value cs2)
            values
  else ret tt.

(** The [useMemo] callback of [AdaptationProvider]: the context value computed
    from the props and the parent context ([None] at the root of the tree). *)
Definition AdaptationProvider (props : AdaptationProviderProps)
    (parentContext : option ContextType) : M ContextType :=
  let! m :=
    if default false (reset props)
    then cloneAdaptationMap None
    else cloneAdaptationMap (adaptationMap <$> parentContext) in
  excludeComponentsStep m (excludeComponents props) ;;
  excludeStep m (excludePlugins props) (exclude props) ;;
  match adaptations props with
  | Some a => appendAdaptationMap m (toArray a)
  | None => ret tt
  end ;;
  ret (mkContext m).

(** [useComponentAdaptations(componentRef)], reading the context [ctx]:
    [adaptationMap?.get(componentRef.id) ?? noAdaptations]. *)
Definition useComponentAdaptations (ctx : option ContextType)
    (componentRef : AdaptableComponentRef) : M loc :=
  match ctx with
  | None => ret noAdaptations
  | Some c =>
      let! value := Map_get (adaptationMap c) (id componentRef) in
      ret (default noAdaptations value)
  end.

(** The two lists of a map value, read through its array references. *)
Definition Entry : Type := list PropsInterceptor * list Adaptation.

Definition read_entry (v : loc) : M Entry :=
  let! val := read_value v in
  let! ps := read_interceptors (propsInterceptors val) in
  let! cs := read_components (components val) in
  ret (ps, cs).

(** What a consumer sees of [useComponentAdaptations]: the returned object and
    the contents of its two lists. *)
Definition lookup (ctx : option ContextType) (r : AdaptableComponentRef) : M (loc * Entry) :=
  let! v := useComponentAdaptations ctx r in
  let! e := read_entry v in
  ret (v, e).

(** ** The contract of [extend] as a function on registry contents

    A registry's contents: its keys in insertion order, each with its two
    lists.  The functions below are written after the specification of
    [extend] (its section 4.1), one per step and in the order given there, not
    after the code; [AdaptationProvider_run] relates them to the code. *)
Definition Registry : Type := list (AdaptationMapKey * Entry).

Definition noEntry : Entry := ([], []).

(** The entry of a key, or two empty lists. *)
Definition contents (R : Registry) (k : AdaptationMapKey) : Entry :=
  default noEntry (entries_get k R).

(** Step 4 for one adaptation on the entry of its target: each list gets the
    adaptation appended unless the list already holds one with the same key. *)
Definition add_adaptation (a : ComponentAdaptation) (e : Entry) : Entry :=
  (match spec_interceptProps (spec a) with
   | Some f => if has_key (key a) e.1 then e.1 else e.1 ++ [mkWrap f a]
   | None => e.1
   end,
   match spec_Adaptation (spec a) with
   | Some c => if has_key (key a) e.2 then e.2 else e.2 ++ [mkWrap c a]
   | None => e.2
   end).

Definition append_spec (R : Registry) (a : ComponentAdaptation) : Registry :=
  entries_set (id (ref a)) (add_adaptation a (contents R (id (ref a)))) R.

(** Step 3 on one entry: only the components are filtered, by plugin and then
    by key. *)
Definition exclude_entry (ps : gset BackstagePlugin) (ks : gset string) (e : Entry) : Entry :=
  (e.1, List.filter (key_kept ks) (List.filter (plugin_kept ps) e.2)).

Definition exclude_spec (ep : option (list BackstagePlugin))
    (ex : option (list ComponentAdaptation)) (R : Registry) : Registry :=
  if truthy ep || truthy ex
  then (λ r, (r.1, exclude_entry (list_to_set (default [] ep))
                                 (list_to_set (key <$> default [] ex)) r.2)) <$> R
  else R.

(** Step 2: the entries of the named references are removed. *)
Definition excludeComponents_spec (ec : option (OneOrMany AdaptableComponentRef))
    (R : Registry) : Registry :=
  match ec with
  | Some ec => foldl (λ acc r, entries_delete (id r) acc) R (toArray ec)
  | None => R
  end.

(** Steps 1 to 4 in the order of the contract. *)
Definition extend_spec (props : AdaptationProviderProps) (R : Registry) : Registry :=
  let R0 := if default false (reset props) then [] else R in
  let R1 := excludeComponents_spec (excludeComponents props) R0 in
  let R2 := exclude_spec (excludePlugins props) (exclude props) R1 in
  match adaptations props with
  | Some a => foldl append_spec R2 (toArray a)
  | None => R2
  end.

(** ** Well-formed stores *)

Definition is_value (h : heap) (l : loc) : Prop :=
  ∃ v, store h !! l = Some (OValue v).
Definition is_components (h : heap) (l : loc) : Prop :=
  ∃ xs, store h !! l = Some (OComponents xs).
Definition is_interceptors (h : heap) (l : loc) : Prop :=
  ∃ xs, store h !! l = Some (OInterceptors xs).

(** The references held by an object point to objects of the right kind, and
    a [Map] has no key twice. *)
Definition obj_ok (h : heap) (o : obj) : Prop :=
  match o with
  | OMap es => NoDup es.*1 ∧ Forall (is_value h) es.*2
  | OValue v => is_interceptors h (propsInterceptors v) ∧ is_components h (components v)
  | _ => True
  end.

Record heap_ok (h : heap) : Prop := {
  ok_bound : ∀ l o, store h !! l = Some o → l < next h;
  ok_obj : ∀ l o, store h !! l = Some o → obj_ok h o;
}.

(** The module constant is in place, with its two empty arrays. *)
Definition noAdaptations_ok (h : heap) : Prop :=
  store h !! noAdaptations = Some (OValue (mkValue 0 1)) ∧
  store h !! 0 = Some (OInterceptors []) ∧
  store h !! 1 = Some (OComponents []).

Definition wf (h : heap) : Prop := heap_ok h ∧ noAdaptations_ok h.

(** A context a provider can find above itself: none, or a [Map] of the store. *)
Definition ctx_ok (h : heap) (ctx : option ContextType) : Prop :=
  match ctx with
  | None => True
  | Some c => ∃ es, store h !! adaptationMap c = Some (OMap es)
  end.

(** Every object of [h0] is still there, unchanged, in [h]. *)
Definition frame (h0 h : heap) : Prop :=
  next h0 ≤ next h ∧ ∀ l, l < next h0 → store h !! l = store h0 !! l.

Definition same_kind (o o' : obj) : Prop :=
  match o, o' with
  | OMap _, OMap _ | OValue _, OValue _
  | OComponents _, OComponents _ | OInterceptors _, OInterceptors _ => True
  | _, _ => False
  end.

(** The value object at [v] holds the lists [e]. *)
Definition entry_at (h : heap) (v : loc) (e : Entry) : Prop :=
  ∃ val, store h !! v = Some (OValue val) ∧
         store h !! propsInterceptors val = Some (OInterceptors e.1) ∧
         store h !! components val = Some (OComponents e.2).

(** The [Map] at [m] has the contents [R]. *)
Definition represents (h : heap) (m : loc) (R : Registry) : Prop :=
  ∃ es, store h !! m = Some (OMap es) ∧
        Forall2 (λ e r, e.1 = r.1 ∧ entry_at h e.2 r.2) es R.

Definition ctx_represents (h : heap) (ctx : option ContextType) (R : Registry) : Prop :=
  match ctx with
  | None => R = []
  | Some c => represents h (adaptationMap c) R
  end.

(** *** The working copy

    While [AdaptationProvider] runs, the map it works on and everything
    reachable from it were allocated by this very call: a cell records, for
    one key, the value object, its two arrays and their contents. *)
Record cell := mkCell {
  c_key : AdaptationMapKey;
  c_val : loc;
  c_ps : loc;
  c_cs : loc;
  c_pl : list PropsInterceptor;
  c_cl : list Adaptation;
}.

Definition cell_entry (c : cell) : AdaptationMapKey * loc := (c_key c, c_val c).
Definition cell_abs (c : cell) : AdaptationMapKey * Entry := (c_key c, (c_pl c, c_cl c)).

Definition cell_at (h : heap) (c : cell) : Prop :=
  store h !! c_val c = Some (OValue (mkValue (c_ps c) (c_cs c))) ∧
  store h !! c_ps c = Some (OInterceptors (c_pl c)) ∧
  store h !! c_cs c = Some (OComponents (c_cl c)).

Definition cell_fresh (b : loc) (c : cell) : Prop :=
  b ≤ c_val c ∧ b ≤ c_ps c ∧ b ≤ c_cs c.

Record owned (b : loc) (h : heap) (sh : list cell) : Prop := {
  own_at : Forall (cell_at h) sh;
  own_fresh : Forall (cell_fresh b) sh;
  own_keys : NoDup (c_key <$> sh);
  own_vals : NoDup (c_val <$> sh);
  own_ps : NoDup (c_ps <$> sh);
  own_cs : NoDup (c_cs <$> sh);
}.

Record Inv (h0 h : heap) (m : loc) (sh : list cell) : Prop := {
  inv_ok : heap_ok h;
  inv_frame : frame h0 h;
  inv_owned : owned (next h0) h sh;
  inv_map : store h !! m = Some (OMap (cell_entry <$> sh));
  inv_fresh : next h0 ≤ m;
}.

(** ** Auxiliary notions for the proofs *)

(** Objects never change their kind. *)
Definition kinds_le (h h' : heap) : Prop :=
  (∀ l, is_value h l → is_value h' l) ∧
  (∀ l, is_components h l → is_components h' l) ∧
  (∀ l, is_interceptors h l → is_interceptors h' l).

(** The values of the working copy are objects of this call. *)
Definition values_from (b : loc) (h : heap) (m : loc) : Prop :=
  ∃ es, store h !! m = Some (OMap es) ∧ Forall (λ e, b ≤ e.2) es.

(** The object [useComponentAdaptations] returns, read off the store. *)
Definition lookup_loc (h : heap) (ctx : option ContextType) (r : AdaptableComponentRef) : loc :=
  match ctx with
  | None => noAdaptations
  | Some c =>
      match store h !! adaptationMap c with
      | Some (OMap es) => default noAdaptations (entries_get (id r) es)
      | _ => noAdaptations
      end
  end.

(** [r] has no entry in the registry of [ctx]: [Map.get] finds nothing (at the
    root of the tree there is no registry at all). *)
Definition unregistered (h : heap) (ctx : option ContextType) (r : AdaptableComponentRef) : Prop :=
  match ctx with
  | None => True
  | Some c => Map_get (adaptationMap c) (id r) h = Some (None, h)
  end.

(** The adaptations a provider declares, as a list. *)
Definition declared (props : AdaptationProviderProps) : list ComponentAdaptation :=
  match adaptations props with
  | Some a => toArray a
  | None => []
  end.

(** The props with the [excludePlugins] and [exclude] options taken out. *)
Definition without_exclusion (props : AdaptationProviderProps) : AdaptationProviderProps :=
  mkProps (adaptations props) (reset props) None (excludeComponents props) None.

(** Unfolding of the store primitives. *)
Ltac munfold :=
  unfold Map_get, Map_set, Map_delete, Map_values, Map_entries, Map_new,
    get_components, get_propsInterceptors, set_components, read_entry,
    copy_components, copy_interceptors, filter_components,
    push_component, push_interceptor,
    read_value, read_components, read_interceptors,
    alloc, read, write, bind, ret, fail.

(** ** Concrete references, plugins and adaptations *)

Definition refX : AdaptableComponentRef := mkRef 1 "X".
Definition refX' : AdaptableComponentRef := mkRef 2 "X".
Definition refY : AdaptableComponentRef := mkRef 3 "Y".
Definition pluginP1 : BackstagePlugin := Plugin 1.
Definition pluginP2 : BackstagePlugin := Plugin 2.

(** An adaptation for [refX] with a replacement render function. *)
Definition replacing (k : string) (fn : nat) (p : option BackstagePlugin) : ComponentAdaptation :=
  mkAdaptation refX (mkSpec (Some (RenderFn fn)) None) k p.

(** Props carrying adaptations only. *)
Definition declaring (l : OneOrMany ComponentAdaptation) : AdaptationProviderProps :=
  mkProps (Some l) None None None None.

(** The component list a consumer gets for [r] after the providers [ps] have
    been nested, outermost first, under the root of the tree. *)
Fixpoint nest (ps : list AdaptationProviderProps) (ctx : option ContextType)
    : M (option ContextType) :=
  match ps with
  | [] => ret ctx
  | p :: ps' => let! c := AdaptationProvider p ctx in nest ps' (Some c)
  end.

Definition components_under (ps : list AdaptationProviderProps)
    (r : AdaptableComponentRef) : option (list Adaptation) :=
  fst <$> (let! ctx := nest ps None in
           let! res := lookup ctx r in
           ret res.2.2) init_heap.

(** The store and context under one provider declaring [replacing "a" 1]. *)
Definition stage1 : option (ContextType * heap) :=
  AdaptationProvider (declaring (One (replacing "a" 1 (Some pluginP1)))) None init_heap.
Definition ctx1 : ContextType := default (mkContext 0) (fst <$> stage1).
Definition heap1 : heap := default init_heap (snd <$> stage1).

(** The store and context under a provider declaring, for [refX], a
    replacement keyed "a" of plugin P1 and one keyed "b" of plugin P2. *)
Definition stage2 : option (ContextType * heap) :=
  AdaptationProvider
    (declaring (Many [replacing "a" 1 (Some pluginP1); replacing "b" 2 (Some pluginP2)]))
    None init_heap.
Definition ctx2 : ContextType := default (mkContext 0) (fst <$> stage2).
Definition heap2 : heap := default init_heap (snd <$> stage2).

(** An adaptation of plugin P1 for [refX] with both a replacement and a props
    interceptor. *)
Definition both (k : string) (fn : nat) (p : option BackstagePlugin) : ComponentAdaptation :=
  mkAdaptation refX (mkSpec (Some (RenderFn fn)) (Some (InterceptFn fn))) k p.

Definition stage3 : option (ContextType * heap) :=
  AdaptationProvider (declaring (One (both "a" 1 (Some pluginP1)))) None init_heap.
Definition ctx3 : ContextType := default (mkContext 0) (fst <$> stage3).
Definition heap3 : heap := default init_heap (snd <$> stage3).

(** An adaptation for [refY] with neither a replacement nor an interceptor. *)
Definition hollow : ComponentAdaptation :=
  mkAdaptation refY (mkSpec None None) "n" None.

(** ** Notions for the further properties *)

(** The two lists a consumer reads for [r] under [ctx]. *)
Definition lists_of (ctx : option ContextType) (r : AdaptableComponentRef) (h : heap)
    : option Entry :=
  (λ x, x.1.2) <$> lookup ctx r h.

(** The ids of the references named by [excludeComponents]. *)
Definition excluded_ids (ec : option (OneOrMany AdaptableComponentRef)) : list string :=
  match ec with
  | Some ec => id <$> toArray ec
  | None => []
  end.

(** Step 4 seen from one key: only adaptations targeting [k] act on its entry. *)
Definition add_for (k : AdaptationMapKey) (e : Entry) (a : ComponentAdaptation) : Entry :=
  if decide (id (ref a) = k) then add_adaptation a e else e.

(** The four steps of the contract seen from one key. *)
Definition entry_spec (props : AdaptationProviderProps) (k : AdaptationMapKey) (e : Entry) : Entry :=
  let e0 := if default false (reset props) then noEntry else e in
  let e1 := if bool_decide (k ∈ excluded_ids (excludeComponents props)) then noEntry else e0 in
  let e2 := if truthy (excludePlugins props) || truthy (exclude props)
            then exclude_entry (list_to_set (default [] (excludePlugins props)))
                   (list_to_set (key <$> default [] (exclude props))) e1
            else e1 in
  foldl (add_for k) e2 (declared props).

(** The keys of the adaptations owning the elements of a list. *)
Definition keys_of {T} (l : list (WrapAdaptation T)) : list string :=
  (λ e, key (adaptation e)) <$> l.

(** No two elements of the list belong to adaptations with the same key. *)
Definition keys_unique {T} (l : list (WrapAdaptation T)) : Prop := NoDup (keys_of l).

(** Every list of the registry of [ctx] has unique keys. *)
Definition registry_unique (h : heap) (ctx : option ContextType) : Prop :=
  ∀ r e, lists_of ctx r h = Some e → keys_unique e.1 ∧ keys_unique e.2.

(** Declaring [a] again cannot change the entry [e]: each part [a] carries is
    already represented by an element with [a]'s key. *)
Definition covered (a : ComponentAdaptation) (e : Entry) : Prop :=
  (spec_interceptProps (spec a) = None ∨ has_key (key a) e.1 = true) ∧
  (spec_Adaptation (spec a) = None ∨ has_key (key a) e.2 = true).

(** The props with the [excludeComponents] option taken out, and with every
    exclusion option taken out. *)
Definition without_excludeComponents (props : AdaptationProviderProps) : AdaptationProviderProps :=
  mkProps (adaptations props) (reset props) (excludePlugins props) None (exclude props).

Definition without_exclusions (props : AdaptationProviderProps) : AdaptationProviderProps :=
  mkProps (adaptations props) (reset props) None None None.

(** ** The first revision of the file (lines 1 to 188)

    In the first revision the map is keyed by the component ref object itself
    ([type AdaptationMapKey = AdaptableComponentRef]), which a JavaScript
    [Map] compares by identity, and the provider takes [adaptations] only.
    [cloneAdaptationMap] and [ensureMapValue] are the same text as in the
    second revision.  The maps of the store bind strings: a key of this
    revision, the identity of a reference object, is written as the name
    [refKey r] of that identity, and different identities have different
    names ([refKey_inj]). *)
Definition refKey (r : AdaptableComponentRef) : AdaptationMapKey := pretty (ref_obj r).

(** The callback of [adaptations.forEach] in [appendAdaptationMap], with
    [ensureMapValue(adaptationMap, ref)]. *)
Definition appendAdaptation_v1 (adaptationMap : loc) (a : ComponentAdaptation) : M unit :=
  let! value := ensureMapValue adaptationMap (refKey (ref a)) in
  match spec_Adaptation (spec a) with
  | Some c =>
      let! arr := get_components value in
      let! l := read_components arr in
      if negb (has_key (key a) l) then push_component arr (mkWrap c a) else ret tt
  | None => ret tt
  end ;;
  match spec_interceptProps (spec a) with
  | Some f =>
      let! arr := get_propsInterceptors value in
      let! l := read_interceptors arr in
      if negb (has_key (key a) l) then push_interceptor arr (mkWrap f a) else ret tt
  | None => ret tt
  end.

Definition appendAdaptationMap_v1 (adaptationMap : loc) (l : list ComponentAdaptation) : M unit :=
  forEach (appendAdaptation_v1 adaptationMap) l.

(** The [useMemo] callback of the first revision's [AdaptationProvider];
    [adaptations] is a required prop there. *)
Definition AdaptationProvider_v1 (adaptations : OneOrMany ComponentAdaptation)
    (parentContext : option ContextType) : M ContextType :=
  let! m := cloneAdaptationMap (adaptationMap <$> parentContext) in
  appendAdaptationMap_v1 m (toArray adaptations) ;;
  ret (mkContext m).

(** [adaptationMap?.get(componentRef) ?? noAdaptations] *)
Definition useComponentAdaptations_v1 (ctx : option ContextType)
    (componentRef : AdaptableComponentRef) : M loc :=
  match ctx with
  | None => ret noAdaptations
  | Some c =>
      let! value := Map_get (adaptationMap c) (refKey componentRef) in
      ret (default noAdaptations value)
  end.

(** The object and the two lists a consumer reads in the first revision. *)
Definition lookup_v1 (ctx : option ContextType) (r : AdaptableComponentRef) : M (loc * Entry) :=
  let! v := useComponentAdaptations_v1 ctx r in
  let! e := read_entry v in
  ret (v, e).

Definition lists_of_v1 (ctx : option ContextType) (r : AdaptableComponentRef) (h : heap)
    : option Entry :=
  (λ x, x.1.2) <$> lookup_v1 ctx r h.

(** Step 4 of the first revision on registry contents, and seen from one key. *)
Definition append_spec_v1 (R : Registry) (a : ComponentAdaptation) : Registry :=
  entries_set (refKey (ref a)) (add_adaptation a (contents R (refKey (ref a)))) R.

Definition add_for_v1 (k : AdaptationMapKey) (e : Entry) (a : ComponentAdaptation) : Entry :=
  if decide (refKey (ref a) = k) then add_adaptation a e else e.

(** * Proofs *)

(** ** Entry lists *)

Section entries.
Context {V : Type}.
Implicit Types (k : AdaptationMapKey) (v : V) (es : list (AdaptationMapKey * V)).

Lemma entries_get_None k es : entries_get k es = None ↔ k ∉ es.*1.
Proof.
  induction es as [|[k' v'] es IH]; simpl.
  - split; [intros _; apply not_elem_of_nil | done].
  - rewrite not_elem_of_cons. case_decide; subst.
    + split; [done | intros [? _]; done].
    + rewrite IH. split; [intros ?; split; [congruence | done] | intros [_ ?]; done].
Qed.

Lemma entries_get_middle k v es1 es2 :
  k ∉ es1.*1 → entries_get k (es1 ++ (k, v) :: es2) = Some v.
Proof.
  induction es1 as [|[k' v'] es1 IH]; simpl; intros Hk.
  - by rewrite decide_True.
  - apply not_elem_of_cons in Hk as [? ?]. rewrite decide_False; auto.
Qed.

Lemma entries_get_Some k v es :
  entries_get k es = Some v →
  ∃ es1 es2, es = es1 ++ (k, v) :: es2 ∧ k ∉ es1.*1.
Proof.
  induction es as [|[k' v'] es IH]; simpl; [done|].
  case_decide; subst.
  - intros [= ->]. exists [], es. split; [done | apply not_elem_of_nil].
  - intros (es1 & es2 & -> & Hk)%IH. exists ((k', v') :: es1), es2.
    split; [done|]. simpl. apply not_elem_of_cons. done.
Qed.

Lemma entries_get_elem k v es : entries_get k es = Some v → (k, v) ∈ es.
Proof.
  intros (es1 & es2 & -> & _)%entries_get_Some. set_solver.
Qed.

Lemma entries_set_middle k v v' es1 es2 :
  k ∉ es1.*1 →
  entries_set k v' (es1 ++ (k, v) :: es2) = es1 ++ (k, v') :: es2.
Proof.
  induction es1 as [|[k' w] es1 IH]; simpl; intros Hk.
  - by rewrite decide_True.
  - apply not_elem_of_cons in Hk as [? ?]. rewrite decide_False; [|done].
    by rewrite IH.
Qed.

Lemma entries_set_fresh k v es : k ∉ es.*1 → entries_set k v es = es ++ [(k, v)].
Proof.
  induction es as [|[k' w] es IH]; simpl; intros Hk; [done|].
  apply not_elem_of_cons in Hk as [? ?]. rewrite decide_False; [|done].
  by rewrite IH.
Qed.

Lemma entries_get_set k k' v es :
  entries_get k' (entries_set k v es) =
  if decide (k = k') then Some v else entries_get k' es.
Proof.
  induction es as [|[k0 w] es IH]; simpl.
  - repeat case_decide; congruence.
  - repeat (case_decide; simpl; subst);
      rewrite ?IH, ?decide_True, ?decide_False by done; congruence.
Qed.

Lemma entries_get_delete k k' es :
  entries_get k' (entries_delete k es) =
  if decide (k = k') then None else entries_get k' es.
Proof.
  unfold entries_delete.
  induction es as [|[k0 w] es IH]; simpl.
  - by case_decide.
  - rewrite filter_cons. simpl.
    repeat (case_decide; simpl; subst); try congruence.
Qed.

Lemma entries_new es :
  NoDup es.*1 → foldl (λ acc e, entries_set e.1 e.2 acc) [] es = es.
Proof.
  intros Hnd.
  enough (∀ acc, NoDup (acc ++ es).*1 →
            foldl (λ acc e, entries_set e.1 e.2 acc) acc es = acc ++ es) as H.
  { by apply (H []). }
  clear Hnd. induction es as [|[k v] es IH]; intros acc Hnd; simpl.
  - by rewrite app_nil_r.
  - rewrite entries_set_fresh.
    + rewrite IH; rewrite <- app_assoc; done.
    + rewrite fmap_app in Hnd. apply NoDup_app in Hnd as (_ & Hd & _).
      intros Hin. apply (Hd _ Hin). simpl. apply elem_of_cons. by left.
Qed.
End entries.

Lemma entries_get_fmap {V W} (f : V → W) k (es : list (AdaptationMapKey * V)) :
  entries_get k ((λ e, (e.1, f e.2)) <$> es) = f <$> entries_get k es.
Proof.
  induction es as [|[k' v] es IH]; simpl; [done|]. by case_decide.
Qed.

(** ** Cells and the lists read off them *)

Lemma cell_entry_keys sh : (cell_entry <$> sh).*1 = c_key <$> sh.
Proof. by rewrite <- list_fmap_compose. Qed.

Lemma cell_entry_vals sh : (cell_entry <$> sh).*2 = c_val <$> sh.
Proof. by rewrite <- list_fmap_compose. Qed.

Lemma cell_abs_keys sh : (cell_abs <$> sh).*1 = c_key <$> sh.
Proof. by rewrite <- list_fmap_compose. Qed.

Lemma cells_split k sh :
  k ∉ c_key <$> sh ∨
  ∃ sh1 c sh2, sh = sh1 ++ c :: sh2 ∧ c_key c = k ∧ k ∉ c_key <$> sh1.
Proof.
  induction sh as [|c sh IH]; [left; apply not_elem_of_nil|].
  destruct (decide (c_key c = k)) as [<-|Hne].
  - right. exists [], c, sh. split_and!; [done..|apply not_elem_of_nil].
  - destruct IH as [Hn|(sh1 & c' & sh2 & -> & <- & Hn)].
    + left. simpl. apply not_elem_of_cons. split; [congruence | done].
    + right. exists (c :: sh1), c', sh2. split_and!; [done..|].
      simpl. apply not_elem_of_cons. split; [congruence | done].
Qed.

Lemma cells_delete k sh :
  entries_delete k (cell_entry <$> sh) = cell_entry <$> filter (λ c, c_key c ≠ k) sh ∧
  entries_delete k (cell_abs <$> sh) = cell_abs <$> filter (λ c, c_key c ≠ k) sh.
Proof.
  unfold entries_delete.
  induction sh as [|c sh [IH1 IH2]]; [done|].
  rewrite !fmap_cons, !filter_cons. simpl.
  case_decide; simpl; rewrite ?IH1, ?IH2; done.
Qed.

Lemma NoDup_middle {A} (l1 l2 : list A) x :
  NoDup (l1 ++ x :: l2) ↔ (x ∉ l1 ++ l2) ∧ NoDup (l1 ++ l2).
Proof. rewrite <- Permutation_middle. apply NoDup_cons. Qed.

(** ** How allocation and assignment act on the invariants *)

Lemma halloc_lookup_lt o h l :
  l < next h → store (halloc o h) !! l = store h !! l.
Proof. intros Hl. simpl. apply lookup_insert_ne. lia. Qed.

Lemma halloc_lookup_some o h l x :
  heap_ok h → store h !! l = Some x → store (halloc o h) !! l = Some x.
Proof.
  intros Hok Hl. rewrite halloc_lookup_lt; [done|]. eapply ok_bound; eauto.
Qed.

Lemma halloc_lookup_new o h : store (halloc o h) !! next h = Some o.
Proof. simpl. apply lookup_insert_eq. Qed.

Lemma hwrite_lookup_ne l o h l' :
  l ≠ l' → store (hwrite l o h) !! l' = store h !! l'.
Proof. intros. simpl. by apply lookup_insert_ne. Qed.

Lemma hwrite_lookup_eq l o h : store (hwrite l o h) !! l = Some o.
Proof. simpl. apply lookup_insert_eq. Qed.

Lemma obj_ok_mono h h' o : kinds_le h h' → obj_ok h o → obj_ok h' o.
Proof.
  intros (Hv & Hc & Hp). destruct o as [es|v|xs|xs]; simpl; [| |done..].
  - intros [? Hall]. split; [done|]. eapply Forall_impl; eauto.
  - intros [? ?]. auto.
Qed.

Lemma kinds_le_alloc h o : heap_ok h → kinds_le h (halloc o h).
Proof.
  intros Hok. unfold kinds_le, is_value, is_components, is_interceptors.
  split_and!; intros l [x Hx]; exists x; by apply halloc_lookup_some.
Qed.

Lemma kinds_le_write h l o o' :
  store h !! l = Some o → same_kind o o' → kinds_le h (hwrite l o' h).
Proof.
  intros Hl Hk. unfold kinds_le, is_value, is_components, is_interceptors.
  split_and!; intros l' [x Hx]; destruct (decide (l = l')) as [<-|Hne];
    rewrite ?hwrite_lookup_eq, ?hwrite_lookup_ne by done; eauto;
    rewrite Hl in Hx; injection Hx as ->; destruct o'; simpl in Hk; try done; eauto.
Qed.

Lemma heap_ok_alloc h o : heap_ok h → obj_ok h o → heap_ok (halloc o h).
Proof.
  intros Hok Ho. split.
  - intros l x. simpl. destruct (decide (next h = l)) as [<-|Hne].
    + lia.
    + rewrite lookup_insert_ne by done. intros ?%(ok_bound _ Hok). lia.
  - intros l x. simpl. destruct (decide (next h = l)) as [<-|Hne].
    + rewrite lookup_insert_eq. intros [= <-].
      eapply obj_ok_mono; [by apply kinds_le_alloc | done].
    + rewrite lookup_insert_ne by done. intros ?%(ok_obj _ Hok).
      eapply obj_ok_mono; [by apply kinds_le_alloc | done].
Qed.

Lemma heap_ok_write h l o o' :
  heap_ok h → store h !! l = Some o → same_kind o o' → obj_ok h o' →
  heap_ok (hwrite l o' h).
Proof.
  intros Hok Hl Hk Ho. split.
  - intros l' x. simpl. destruct (decide (l = l')) as [<-|Hne].
    + intros _. eapply ok_bound; eauto.
    + rewrite lookup_insert_ne by done. apply (ok_bound _ Hok).
  - intros l' x. simpl. destruct (decide (l = l')) as [<-|Hne].
    + rewrite lookup_insert_eq. intros [= <-].
      eapply obj_ok_mono; [by eapply kinds_le_write | done].
    + rewrite lookup_insert_ne by done. intros ?%(ok_obj _ Hok).
      eapply obj_ok_mono; [by eapply kinds_le_write | done].
Qed.

Lemma frame_refl h : frame h h.
Proof. split; [lia | done]. Qed.

Lemma frame_alloc h0 h o : frame h0 h → frame h0 (halloc o h).
Proof.
  intros [Hn Hs]. split; simpl; [lia|].
  intros l Hl. rewrite lookup_insert_ne by lia. auto.
Qed.

Lemma frame_write h0 h l o : frame h0 h → next h0 ≤ l → frame h0 (hwrite l o h).
Proof.
  intros [Hn Hs] Hl. split; simpl; [lia|].
  intros l' Hl'. rewrite lookup_insert_ne by lia. auto.
Qed.

Lemma cell_at_alloc h o c : heap_ok h → cell_at h c → cell_at (halloc o h) c.
Proof.
  intros Hok (Hv & Hp & Hc). split_and!; by apply halloc_lookup_some.
Qed.

Lemma cell_at_write h l o c :
  cell_at h c → l ≠ c_val c → l ≠ c_ps c → l ≠ c_cs c → cell_at (hwrite l o h) c.
Proof.
  intros (Hv & Hp & Hc) ? ? ?. unfold cell_at.
  rewrite !hwrite_lookup_ne by done. done.
Qed.

Lemma cell_at_bound h c :
  heap_ok h → cell_at h c → c_val c < next h ∧ c_ps c < next h ∧ c_cs c < next h.
Proof.
  intros Hok (Hv & Hp & Hc). split_and!; eapply ok_bound; eauto.
Qed.

Lemma cell_at_obj_ok h c :
  cell_at h c → is_value h (c_val c).
Proof. intros (Hv & _). eexists; eauto. Qed.

Lemma cells_obj_ok h sh :
  Forall (cell_at h) sh → NoDup (c_key <$> sh) → obj_ok h (OMap (cell_entry <$> sh)).
Proof.
  intros Hat Hnd. simpl. rewrite cell_entry_keys, cell_entry_vals. split; [done|].
  apply Forall_fmap. eapply Forall_impl; [done|]. intros c. apply cell_at_obj_ok.
Qed.

Lemma elem_middle {A} (l1 l2 : list A) x : x ∈ l1 ++ x :: l2.
Proof. apply elem_of_app. right. apply elem_of_cons. by left. Qed.

Lemma elem_others {A} (l1 l2 : list A) x y : y ∈ l1 ++ l2 → y ∈ l1 ++ x :: l2.
Proof.
  rewrite !elem_of_app, elem_of_cons. intros [?|?]; auto.
Qed.

Lemma owned_alloc b h sh o : heap_ok h → owned b h sh → owned b (halloc o h) sh.
Proof.
  intros Hok [Hat Hfr Hk Hv Hp Hc]. split; try done.
  eapply Forall_impl; [exact Hat|]. intros c. by apply cell_at_alloc.
Qed.

Lemma owned_write b h sh l o :
  owned b h sh →
  (∀ x, x ∈ sh → l ≠ c_val x ∧ l ≠ c_ps x ∧ l ≠ c_cs x) →
  owned b (hwrite l o h) sh.
Proof.
  intros [Hat Hfr Hk Hv Hp Hc] Hl. split; try done.
  rewrite Forall_forall in Hat |- *. intros x Hx.
  destruct (Hl x Hx) as (? & ? & ?). apply cell_at_write; auto.
Qed.

Lemma owned_elem b h sh c : owned b h sh → c ∈ sh → cell_at h c ∧ cell_fresh b c.
Proof.
  intros [Hat Hfr _ _ _ _] Hc. rewrite Forall_forall in Hat, Hfr. auto.
Qed.

(** One cell of the working copy is replaced by a cell with the same key,
    value object and interceptor array, after a write at [l] that leaves the
    other cells alone. *)
Lemma owned_update b h sh1 c sh2 l o c' :
  owned b h (sh1 ++ c :: sh2) →
  (∀ x, x ∈ sh1 ++ sh2 → l ≠ c_val x ∧ l ≠ c_ps x ∧ l ≠ c_cs x) →
  cell_at (hwrite l o h) c' → cell_fresh b c' →
  c_key c' = c_key c → c_val c' = c_val c → c_ps c' = c_ps c →
  c_cs c' ∉ c_cs <$> (sh1 ++ sh2) →
  owned b (hwrite l o h) (sh1 ++ c' :: sh2).
Proof.
  intros [Hat Hfr Hk Hv Hp Hc] Hl Hat' Hfr' Ek Ev Ep Hcs.
  rewrite Forall_app, Forall_cons in Hat, Hfr.
  destruct Hat as (Hat1 & _ & Hat2), Hfr as (Hfr1 & _ & Hfr2).
  split.
  - rewrite Forall_app, Forall_cons. split_and!; [|done|].
    + rewrite Forall_forall in Hat1 |- *. intros x Hx.
      destruct (Hl x) as (? & ? & ?); [apply elem_of_app; auto|].
      apply cell_at_write; auto.
    + rewrite Forall_forall in Hat2 |- *. intros x Hx.
      destruct (Hl x) as (? & ? & ?); [apply elem_of_app; auto|].
      apply cell_at_write; auto.
  - rewrite Forall_app, Forall_cons. done.
  - rewrite fmap_app, fmap_cons, Ek. by rewrite fmap_app, fmap_cons in Hk.
  - rewrite fmap_app, fmap_cons, Ev. by rewrite fmap_app, fmap_cons in Hv.
  - rewrite fmap_app, fmap_cons, Ep. by rewrite fmap_app, fmap_cons in Hp.
  - rewrite fmap_app, fmap_cons in Hc |- *. apply NoDup_middle.
    apply NoDup_middle in Hc as [_ Hc]. rewrite fmap_app in Hcs. done.
Qed.

Lemma Inv_alloc h0 h m sh o :
  Inv h0 h m sh → obj_ok h o → Inv h0 (halloc o h) m sh.
Proof.
  intros [Hok Hfr Hown Hm Hf] Ho. split.
  - by apply heap_ok_alloc.
  - by apply frame_alloc.
  - by apply owned_alloc.
  - by apply halloc_lookup_some.
  - done.
Qed.

Lemma Inv_cell_bound h0 h m sh c :
  Inv h0 h m sh → c ∈ sh →
  c_val c < next h ∧ c_ps c < next h ∧ c_cs c < next h.
Proof.
  intros [Hok _ Hown _ _] Hc.
  destruct (owned_elem _ _ _ _ Hown Hc) as [Hat _]. by apply cell_at_bound.
Qed.

Lemma Inv_map_ne h0 h m sh c :
  Inv h0 h m sh → c ∈ sh → m ≠ c_val c ∧ m ≠ c_ps c ∧ m ≠ c_cs c.
Proof.
  intros [_ _ Hown Hm _] Hc.
  destruct (owned_elem _ _ _ _ Hown Hc) as [(Hv & Hp & Hcs) _].
  split_and!; intros ->; congruence.
Qed.

(** The array of components of one cell gets new contents. *)
Lemma Inv_write_components h0 h m sh1 c sh2 l :
  Inv h0 h m (sh1 ++ c :: sh2) →
  Inv h0 (hwrite (c_cs c) (OComponents l) h) m
      (sh1 ++ mkCell (c_key c) (c_val c) (c_ps c) (c_cs c) (c_pl c) l :: sh2).
Proof.
  intros HI. pose proof HI as [Hok Hfr Hown Hm Hf].
  destruct (owned_elem _ _ _ c Hown) as [(Hv & Hp & Hc) (Fv & Fp & Fc)];
    [apply elem_middle|].
  assert (Hothers : ∀ x, x ∈ sh1 ++ sh2 → c_cs c ≠ c_val x ∧ c_cs c ≠ c_ps x ∧ c_cs c ≠ c_cs x).
  { intros x Hx.
    destruct (owned_elem _ _ _ x Hown) as [(Hv' & Hp' & Hc') _];
      [by apply elem_others|].
    split_and!; try congruence.
    pose proof (own_cs _ _ _ Hown) as Hnd.
    rewrite fmap_app, fmap_cons in Hnd. apply NoDup_middle in Hnd as [Hn _].
    intros E. apply Hn. rewrite E, <- fmap_app. by apply list_elem_of_fmap_2. }
  split.
  - eapply heap_ok_write; eauto; done.
  - by apply frame_write.
  - eapply owned_update; eauto; simpl.
    + unfold cell_at. cbn [c_val c_ps c_cs c_pl c_cl]. rewrite hwrite_lookup_eq.
      rewrite !hwrite_lookup_ne by congruence. done.
    + done.
    + pose proof (own_cs _ _ _ Hown) as Hnd.
      rewrite fmap_app, fmap_cons in Hnd. apply NoDup_middle in Hnd as [Hn _].
      by rewrite fmap_app.
  - rewrite hwrite_lookup_ne by congruence.
    rewrite Hm. by rewrite !fmap_app, !fmap_cons.
  - done.
Qed.

(** The array of interceptors of one cell gets new contents. *)
Lemma Inv_write_interceptors h0 h m sh1 c sh2 l :
  Inv h0 h m (sh1 ++ c :: sh2) →
  Inv h0 (hwrite (c_ps c) (OInterceptors l) h) m
      (sh1 ++ mkCell (c_key c) (c_val c) (c_ps c) (c_cs c) l (c_cl c) :: sh2).
Proof.
  intros HI. pose proof HI as [Hok Hfr Hown Hm Hf].
  destruct (owned_elem _ _ _ c Hown) as [(Hv & Hp & Hc) (Fv & Fp & Fc)];
    [apply elem_middle|].
  assert (Hothers : ∀ x, x ∈ sh1 ++ sh2 → c_ps c ≠ c_val x ∧ c_ps c ≠ c_ps x ∧ c_ps c ≠ c_cs x).
  { intros x Hx.
    destruct (owned_elem _ _ _ x Hown) as [(Hv' & Hp' & Hc') _];
      [by apply elem_others|].
    split_and!; try congruence.
    pose proof (own_ps _ _ _ Hown) as Hnd.
    rewrite fmap_app, fmap_cons in Hnd. apply NoDup_middle in Hnd as [Hn _].
    intros E. apply Hn. rewrite E, <- fmap_app. by apply list_elem_of_fmap_2. }
  split.
  - eapply heap_ok_write; eauto; done.
  - by apply frame_write.
  - eapply owned_update; eauto; simpl.
    + unfold cell_at. cbn [c_val c_ps c_cs c_pl c_cl]. rewrite hwrite_lookup_eq.
      rewrite !hwrite_lookup_ne by congruence. done.
    + done.
    + pose proof (own_cs _ _ _ Hown) as Hnd.
      rewrite fmap_app, fmap_cons in Hnd. apply NoDup_middle in Hnd as [Hn _].
      by rewrite fmap_app.
  - rewrite hwrite_lookup_ne by congruence.
    rewrite Hm. by rewrite !fmap_app, !fmap_cons.
  - done.
Qed.

(** [value.components = a] on one cell, for an array [a] of this call that no
    other cell uses. *)
Lemma Inv_set_components h0 h m sh1 c sh2 (a : loc) l :
  Inv h0 h m (sh1 ++ c :: sh2) →
  store h !! a = Some (OComponents l) → next h0 ≤ a →
  a ∉ c_cs <$> (sh1 ++ sh2) →
  Inv h0 (hwrite (c_val c) (OValue (mkValue (c_ps c) a)) h) m
      (sh1 ++ mkCell (c_key c) (c_val c) (c_ps c) a (c_pl c) l :: sh2).
Proof.
  intros HI Ha Hfa Hna. pose proof HI as [Hok Hfr Hown Hm Hf].
  destruct (owned_elem _ _ _ c Hown) as [(Hv & Hp & Hc) (Fv & Fp & Fc)];
    [apply elem_middle|].
  assert (Hothers : ∀ x, x ∈ sh1 ++ sh2 → c_val c ≠ c_val x ∧ c_val c ≠ c_ps x ∧ c_val c ≠ c_cs x).
  { intros x Hx.
    destruct (owned_elem _ _ _ x Hown) as [(Hv' & Hp' & Hc') _];
      [by apply elem_others|].
    split_and!; try congruence.
    pose proof (own_vals _ _ _ Hown) as Hnd.
    rewrite fmap_app, fmap_cons in Hnd. apply NoDup_middle in Hnd as [Hn _].
    intros E. apply Hn. rewrite E, <- fmap_app. by apply list_elem_of_fmap_2. }
  split.
  - eapply heap_ok_write; eauto; [done|]. simpl. split; eexists; eauto.
  - by apply frame_write.
  - eapply owned_update; eauto; simpl.
    + unfold cell_at. cbn [c_val c_ps c_cs c_pl c_cl]. rewrite hwrite_lookup_eq.
      rewrite !hwrite_lookup_ne by congruence. done.
    + done.
  - rewrite hwrite_lookup_ne by congruence.
    rewrite Hm. by rewrite !fmap_app, !fmap_cons.
  - done.
Qed.

Lemma owned_filter b h sh (P : cell → Prop) `{!∀ c, Decision (P c)} :
  owned b h sh → owned b h (filter P sh).
Proof.
  intros [Hat Hfr Hk Hv Hp Hc]. split.
  - rewrite Forall_forall in Hat |- *. intros x [_ Hx]%list_elem_of_filter. auto.
  - rewrite Forall_forall in Hfr |- *. intros x [_ Hx]%list_elem_of_filter. auto.
  - apply (sublist_NoDup _ (c_key <$> sh)); [done|]. apply fmap_sublist, sublist_filter.
  - apply (sublist_NoDup _ (c_val <$> sh)); [done|]. apply fmap_sublist, sublist_filter.
  - apply (sublist_NoDup _ (c_ps <$> sh)); [done|]. apply fmap_sublist, sublist_filter.
  - apply (sublist_NoDup _ (c_cs <$> sh)); [done|]. apply fmap_sublist, sublist_filter.
Qed.

(** A cell made of three objects allocated after everything in [sh]. *)
Lemma owned_snoc b h h' sh c :
  heap_ok h → owned b h sh → owned b h' sh → cell_at h' c →
  b ≤ next h → next h ≤ c_val c → next h ≤ c_ps c → next h ≤ c_cs c →
  c_key c ∉ c_key <$> sh →
  owned b h' (sh ++ [c]).
Proof.
  intros Hok Hown [Hat Hfr Hk Hv Hp Hc] Hat' Hb Hlv Hlp Hlc Hkey.
  assert (Hlt : ∀ x, x ∈ sh → c_val x < next h ∧ c_ps x < next h ∧ c_cs x < next h).
  { intros x Hx. destruct (owned_elem _ _ _ _ Hown Hx) as [? _].
    by apply cell_at_bound. }
  split.
  - apply Forall_app. split; [done|]. by apply Forall_singleton.
  - apply Forall_app. split; [done|]. apply Forall_singleton.
    unfold cell_fresh. lia.
  - rewrite fmap_app. apply NoDup_app. split_and!; [done| |apply NoDup_singleton].
    intros k Hk1 ->%list_elem_of_singleton. done.
  - rewrite fmap_app. apply NoDup_app. split_and!; [done| |apply NoDup_singleton].
    intros l (x & -> & Hx)%list_elem_of_fmap ?%list_elem_of_singleton.
    destruct (Hlt x Hx) as (? & ? & ?). simpl in *. lia.
  - rewrite fmap_app. apply NoDup_app. split_and!; [done| |apply NoDup_singleton].
    intros l (x & -> & Hx)%list_elem_of_fmap ?%list_elem_of_singleton.
    destruct (Hlt x Hx) as (? & ? & ?). simpl in *. lia.
  - rewrite fmap_app. apply NoDup_app. split_and!; [done| |apply NoDup_singleton].
    intros l (x & -> & Hx)%list_elem_of_fmap ?%list_elem_of_singleton.
    destruct (Hlt x Hx) as (? & ? & ?). simpl in *. lia.
Qed.

(** ** The steps of [AdaptationProvider] on the working copy *)

Arguments halloc : simpl never.
Arguments hwrite : simpl never.

Lemma bind_run {A B} (m : M A) (k : A → M B) h a h' :
  m h = Some (a, h') → bind m k h = k a h'.
Proof. unfold bind. by intros ->. Qed.

Lemma Map_delete_spec h0 h m sh k :
  Inv h0 h m sh →
  ∃ h', Map_delete m k h = Some (tt, h') ∧
        Inv h0 h' m (filter (λ c, c_key c ≠ k) sh).
Proof.
  intros HI. pose proof HI as [Hok Hfr Hown Hm Hf].
  munfold. rewrite Hm. simpl. rewrite Hm.
  eexists. split; [done|].
  destruct (cells_delete k sh) as [-> _].
  assert (Hown' : owned (next h0) h (filter (λ c, c_key c ≠ k) sh))
    by by apply owned_filter.
  split.
  - eapply heap_ok_write; eauto; [done|].
    apply cells_obj_ok; [apply Hown' | apply Hown'].
  - by apply frame_write.
  - apply owned_write; [done|]. intros x [_ Hx]%list_elem_of_filter.
    eapply Inv_map_ne; eauto.
  - apply hwrite_lookup_eq.
  - done.
Qed.

Lemma excludeComponentsStep_spec h0 h m sh ec :
  Inv h0 h m sh →
  ∃ h' sh', excludeComponentsStep m ec h = Some (tt, h') ∧ Inv h0 h' m sh' ∧
            cell_abs <$> sh' = excludeComponents_spec ec (cell_abs <$> sh).
Proof.
  unfold excludeComponentsStep, excludeComponents_spec.
  destruct ec as [ec|]; [|intros; by exists h, sh].
  generalize (toArray ec) as refs. clear ec.
  intros refs. revert h sh.
  induction refs as [|r refs IH]; intros h sh HI; simpl.
  - by exists h, sh.
  - destruct (Map_delete_spec _ _ _ _ (id r) HI) as (h1 & Hrun & HI1).
    rewrite (bind_run _ _ _ _ _ Hrun).
    destruct (IH _ _ HI1) as (h' & sh' & Hrun' & HI' & Habs).
    exists h', sh'. split_and!; [done..|].
    rewrite Habs. by destruct (cells_delete (id r) sh) as [_ ->].
Qed.

(** The callback of the exclusion step on the value object of one cell. *)
Lemma exclude_value_spec h0 h m sh1 c sh2 (p1 p2 : Adaptation → bool) :
  Inv h0 h m (sh1 ++ c :: sh2) →
  ∃ h' a,
    (let! cs := get_components (c_val c) in
     let! cs1 := filter_components p1 cs in
     let! cs2 := filter_components p2 cs1 in
     set_components (c_val c) cs2) h = Some (tt, h') ∧
    Inv h0 h' m (sh1 ++ mkCell (c_key c) (c_val c) (c_ps c) a (c_pl c)
                          (List.filter p2 (List.filter p1 (c_cl c))) :: sh2).
Proof.
  intros HI. pose proof HI as [Hok Hfr Hown Hm Hf].
  destruct (owned_elem _ _ _ c Hown) as [(Hv & Hp & Hc) _]; [apply elem_middle|].
  set (h1 := halloc (OComponents (List.filter p1 (c_cl c))) h).
  set (h2 := halloc (OComponents (List.filter p2 (List.filter p1 (c_cl c)))) h1).
  assert (HI1 : Inv h0 h1 m (sh1 ++ c :: sh2)) by by apply Inv_alloc.
  assert (HI2 : Inv h0 h2 m (sh1 ++ c :: sh2)) by by apply Inv_alloc.
  pose proof HI2 as [Hok2 Hfr2 Hown2 Hm2 _].
  destruct (owned_elem _ _ _ c Hown2) as [(Hv2 & Hp2 & Hc2) _]; [apply elem_middle|].
  exists (hwrite (c_val c) (OValue (mkValue (c_ps c) (next h1))) h2), (next h1).
  subst h2 h1. split.
  - munfold. rewrite Hv. cbn. rewrite Hc. cbn.
    rewrite halloc_lookup_new. cbn. rewrite Hv2. cbn. rewrite Hv2. done.
  - apply Inv_set_components; [done|apply halloc_lookup_new| |].
    + destruct Hfr as [? _]. simpl. lia.
    + intros (x & E & Hx)%list_elem_of_fmap.
      destruct (Inv_cell_bound _ _ _ _ x HI) as (_ & _ & ?); [by apply elem_others|].
      simpl in E. lia.
Qed.

Lemma exclude_loop_spec h0 m (p1 p2 : Adaptation → bool) todo :
  ∀ done h,
    Inv h0 h m (done ++ todo) →
    ∃ h' todo',
      forEach (λ value,
                 let! cs := get_components value in
                 let! cs1 := filter_components p1 cs in
                 let! cs2 := filter_components p2 cs1 in
                 set_components value cs2) (c_val <$> todo) h = Some (tt, h') ∧
      Inv h0 h' m (done ++ todo') ∧
      cell_abs <$> todo' =
        (λ r, (r.1, (r.2.1, List.filter p2 (List.filter p1 r.2.2)))) <$> (cell_abs <$> todo).
Proof.
  induction todo as [|c todo IH]; intros done h HI.
  - exists h, []. done.
  - rewrite !fmap_cons. cbn [forEach].
    destruct (exclude_value_spec _ _ _ _ _ _ p1 p2 HI) as (h1 & a & Hrun & HI1).
    rewrite (bind_run _ _ _ _ _ Hrun).
    rewrite cons_middle, app_assoc in HI1.
    destruct (IH _ _ HI1) as (h' & todo' & Hrun' & HI' & Habs).
    eexists h', (_ :: todo'). split_and!; [done| |].
    + rewrite <- app_assoc in HI'. exact HI'.
    + rewrite fmap_cons, Habs. done.
Qed.

Lemma excludeStep_spec h0 h m sh ep ex :
  Inv h0 h m sh →
  ∃ h' sh', excludeStep m ep ex h = Some (tt, h') ∧ Inv h0 h' m sh' ∧
            cell_abs <$> sh' = exclude_spec ep ex (cell_abs <$> sh).
Proof.
  intros HI. unfold excludeStep, exclude_spec.
  destruct (truthy ep || truthy ex); [|by exists h, sh].
  pose proof HI as [_ _ _ Hm _].
  destruct (exclude_loop_spec h0 m
              (plugin_kept (list_to_set (default [] ep)))
              (key_kept (list_to_set (key <$> default [] ex))) sh [] h HI)
    as (h' & sh' & Hrun & HI' & Habs).
  exists h', sh'. split_and!; [|done|done].
  cbv zeta. rewrite (bind_run _ _ h (c_val <$> sh) h); [exact Hrun|].
  munfold. rewrite Hm. cbn. by rewrite cell_entry_vals.
Qed.

Lemma ensureMapValue_spec h0 h m sh k :
  Inv h0 h m sh →
  ∃ h' sh1 c sh2,
    ensureMapValue m k h = Some (c_val c, h') ∧
    Inv h0 h' m (sh1 ++ c :: sh2) ∧ c_key c = k ∧
    contents (cell_abs <$> sh) k = (c_pl c, c_cl c) ∧
    ∀ e, entries_set k e (cell_abs <$> sh) =
         (cell_abs <$> sh1) ++ (k, e) :: (cell_abs <$> sh2).
Proof.
  intros HI. pose proof HI as [Hok Hfr Hown Hm Hf].
  destruct (cells_split k sh) as [Hnew|(sh1 & c & sh2 & -> & <- & Hk1)].
  - (* no entry yet: a new value object with two new empty arrays *)
    set (c := mkCell k (S (S (next h))) (next h) (S (next h)) [] []).
    set (h1 := halloc (OInterceptors []) h).
    set (h2 := halloc (OComponents []) h1).
    set (h3 := halloc (OValue (mkValue (next h) (S (next h)))) h2).
    assert (HI1 : Inv h0 h1 m sh) by by apply Inv_alloc.
    assert (HI2 : Inv h0 h2 m sh) by by apply Inv_alloc.
    assert (Hps : store h2 !! next h = Some (OInterceptors [])).
    { apply halloc_lookup_some; [apply HI1 | apply halloc_lookup_new]. }
    assert (Hcs : store h2 !! S (next h) = Some (OComponents [])).
    { apply (halloc_lookup_new _ h1). }
    assert (HI3 : Inv h0 h3 m sh).
    { apply Inv_alloc; [done|]. split; eexists; eauto. }
    pose proof HI3 as [Hok3 Hfr3 Hown3 Hm3 _].
    assert (Hc : cell_at h3 c).
    { unfold cell_at, c. cbn [c_val c_ps c_cs c_pl c_cl]. split_and!.
      - apply (halloc_lookup_new _ h2).
      - apply halloc_lookup_some; [apply HI2 | done].
      - apply halloc_lookup_some; [apply HI2 | done]. }
    assert (Hown' : owned (next h0) h3 (sh ++ [c])).
    { destruct Hfr as [? _].
      eapply (owned_snoc _ h); eauto; simpl; lia. }
    exists (hwrite m (OMap (cell_entry <$> (sh ++ [c]))) h3), sh, c, [].
    split_and!.
    + unfold ensureMapValue. munfold. rewrite Hm. cbn.
      replace (entries_get k (cell_entry <$> sh)) with (@None loc).
      2:{ symmetry. apply entries_get_None. by rewrite cell_entry_keys. }
      cbn. fold h1 h2. change (next h1) with (S (next h)). fold h3.
      rewrite Hm3. cbn. rewrite Hm3.
      rewrite entries_set_fresh by by rewrite cell_entry_keys.
      by rewrite fmap_app.
    + split.
      * eapply heap_ok_write; eauto; [done|].
        apply cells_obj_ok; apply Hown'.
      * by apply frame_write.
      * apply owned_write; [done|].
        intros x [Hx| ->%list_elem_of_singleton]%elem_of_app.
        -- eapply Inv_map_ne; eauto.
        -- assert (m < next h) by (eapply ok_bound; eauto).
           simpl. lia.
      * apply hwrite_lookup_eq.
      * done.
    + done.
    + unfold contents.
      replace (entries_get k (cell_abs <$> sh)) with (@None Entry); [done|].
      symmetry. apply entries_get_None. by rewrite cell_abs_keys.
    + intros e. rewrite entries_set_fresh by by rewrite cell_abs_keys. done.
  - (* the entry exists *)
    exists h, sh1, c, sh2. split_and!; [|done|done| |].
    + unfold ensureMapValue. munfold. rewrite Hm. cbn.
      rewrite fmap_app, fmap_cons. unfold cell_entry at 2.
      rewrite entries_get_middle by by rewrite cell_entry_keys. done.
    + unfold contents. rewrite fmap_app, fmap_cons. unfold cell_abs at 2.
      rewrite entries_get_middle by by rewrite cell_abs_keys. done.
    + intros e. rewrite fmap_app, fmap_cons. unfold cell_abs at 2.
      rewrite entries_set_middle by by rewrite cell_abs_keys. done.
Qed.

Lemma append_component_spec h0 h m sh1 c sh2 a :
  Inv h0 h m (sh1 ++ c :: sh2) →
  ∃ h',
    match spec_Adaptation (spec a) with
    | Some x =>
        let! arr := get_components (c_val c) in
        let! l := read_components arr in
        if negb (has_key (key a) l) then push_component arr (mkWrap x a) else ret tt
    | None => ret tt
    end h = Some (tt, h') ∧
    Inv h0 h' m (sh1 ++ mkCell (c_key c) (c_val c) (c_ps c) (c_cs c) (c_pl c)
                          (add_adaptation a (c_pl c, c_cl c)).2 :: sh2).
Proof.
  intros HI. pose proof HI as [Hok Hfr Hown Hm Hf].
  destruct (owned_elem _ _ _ c Hown) as [(Hv & Hp & Hc) _]; [apply elem_middle|].
  unfold add_adaptation. cbn [fst snd].
  destruct (spec_Adaptation (spec a)) as [x|].
  - munfold. rewrite Hv. cbn. rewrite Hc. cbn.
    destruct (has_key (key a) (c_cl c)); cbn.
    + exists h. split; [done|]. by destruct c.
    + rewrite !Hc. eexists. split; [done|]. by apply Inv_write_components.
  - exists h. split; [done|]. by destruct c.
Qed.

Lemma append_interceptor_spec h0 h m sh1 c sh2 a :
  Inv h0 h m (sh1 ++ c :: sh2) →
  ∃ h',
    match spec_interceptProps (spec a) with
    | Some f =>
        let! arr := get_propsInterceptors (c_val c) in
        let! l := read_interceptors arr in
        if negb (has_key (key a) l) then push_interceptor arr (mkWrap f a) else ret tt
    | None => ret tt
    end h = Some (tt, h') ∧
    Inv h0 h' m (sh1 ++ mkCell (c_key c) (c_val c) (c_ps c) (c_cs c)
                          (add_adaptation a (c_pl c, c_cl c)).1 (c_cl c) :: sh2).
Proof.
  intros HI. pose proof HI as [Hok Hfr Hown Hm Hf].
  destruct (owned_elem _ _ _ c Hown) as [(Hv & Hp & Hc) _]; [apply elem_middle|].
  unfold add_adaptation. cbn [fst snd].
  destruct (spec_interceptProps (spec a)) as [f|].
  - munfold. rewrite Hv. cbn. rewrite Hp. cbn.
    destruct (has_key (key a) (c_pl c)); cbn.
    + exists h. split; [done|]. by destruct c.
    + rewrite !Hp. eexists. split; [done|]. by apply Inv_write_interceptors.
  - exists h. split; [done|]. by destruct c.
Qed.

Lemma appendAdaptation_spec h0 h m sh a :
  Inv h0 h m sh →
  ∃ h' sh', appendAdaptation m a h = Some (tt, h') ∧ Inv h0 h' m sh' ∧
            cell_abs <$> sh' = append_spec (cell_abs <$> sh) a.
Proof.
  intros HI. unfold appendAdaptation, append_spec.
  destruct (ensureMapValue_spec _ _ _ _ (id (ref a)) HI)
    as (h1 & sh1 & c & sh2 & Hrun1 & HI1 & Hk & Hcont & Hset).
  rewrite (bind_run _ _ _ _ _ Hrun1).
  destruct (append_component_spec _ _ _ _ _ _ a HI1) as (h2 & Hrun2 & HI2).
  rewrite (bind_run _ _ _ _ _ Hrun2).
  destruct (append_interceptor_spec _ _ _ _ _ _ a HI2) as (h3 & Hrun3 & HI3).
  cbn [c_key c_val c_ps c_cs c_pl c_cl] in *.
  eexists h3, _. split_and!; [exact Hrun3 | exact HI3 |].
  rewrite Hset, Hcont, fmap_app, fmap_cons. unfold cell_abs at 2. cbn.
  rewrite Hk. unfold add_adaptation. cbn [fst snd]. done.
Qed.

Lemma appendAdaptationMap_spec h0 m l :
  ∀ h sh,
    Inv h0 h m sh →
    ∃ h' sh', appendAdaptationMap m l h = Some (tt, h') ∧ Inv h0 h' m sh' ∧
              cell_abs <$> sh' = foldl append_spec (cell_abs <$> sh) l.
Proof.
  unfold appendAdaptationMap.
  induction l as [|a l IH]; intros h sh HI.
  - by exists h, sh.
  - cbn [forEach foldl].
    destruct (appendAdaptation_spec _ _ _ _ a HI) as (h1 & sh1 & Hrun & HI1 & Habs).
    rewrite (bind_run _ _ _ _ _ Hrun).
    destruct (IH _ _ HI1) as (h' & sh' & Hrun' & HI' & Habs').
    exists h', sh'. split_and!; [done..|]. by rewrite Habs', Habs.
Qed.

Lemma frame_lookup h0 h l o :
  heap_ok h0 → frame h0 h → store h0 !! l = Some o → store h !! l = Some o.
Proof.
  intros Hok [_ Hs] Hl. rewrite Hs; [done|]. eapply ok_bound; eauto.
Qed.

Lemma cloneEntry_spec h0 h done k v pl cl :
  heap_ok h0 → entry_at h0 v (pl, cl) →
  heap_ok h → frame h0 h → owned (next h0) h done → k ∉ c_key <$> done →
  ∃ h' c, cloneEntry (k, v) h = Some (cell_entry c, h') ∧
          heap_ok h' ∧ frame h0 h' ∧ owned (next h0) h' (done ++ [c]) ∧
          cell_abs c = (k, (pl, cl)).
Proof.
  intros Hok0 (val & Hv & Hp & Hc) Hok Hfr Hown Hk. cbn [fst snd] in *.
  set (h1 := halloc (OComponents cl) h).
  set (h2 := halloc (OInterceptors pl) h1).
  set (h3 := halloc (OValue (mkValue (S (next h)) (next h))) h2).
  set (c := mkCell k (S (S (next h))) (S (next h)) (next h) pl cl).
  assert (Hok1 : heap_ok h1) by by apply heap_ok_alloc.
  assert (Hok2 : heap_ok h2) by by apply heap_ok_alloc.
  assert (Hcs : store h2 !! next h = Some (OComponents cl)).
  { apply halloc_lookup_some; [done | apply halloc_lookup_new]. }
  assert (Hps : store h2 !! S (next h) = Some (OInterceptors pl)).
  { apply (halloc_lookup_new _ h1). }
  assert (Hok3 : heap_ok h3).
  { apply heap_ok_alloc; [done|]. split; eexists; eauto. }
  assert (Hat : cell_at h3 c).
  { unfold cell_at, c. cbn [c_val c_ps c_cs c_pl c_cl]. split_and!.
    - apply (halloc_lookup_new _ h2).
    - by apply halloc_lookup_some.
    - by apply halloc_lookup_some. }
  pose proof (frame_lookup _ _ _ _ Hok0 Hfr Hv) as Hv0.
  pose proof (frame_lookup _ _ _ _ Hok0 Hfr Hp) as Hp0.
  pose proof (frame_lookup _ _ _ _ Hok0 Hfr Hc) as Hc0.
  pose proof (halloc_lookup_some (OComponents cl) _ _ _ Hok Hv0) as Hv1.
  pose proof (halloc_lookup_some (OComponents cl) _ _ _ Hok Hp0) as Hp1.
  exists h3, c. split_and!.
  - unfold cloneEntry. munfold. cbn [fst snd].
    rewrite Hv0. cbn. rewrite Hc0. cbn. rewrite Hv1. cbn.
    rewrite Hp1. cbn. done.
  - done.
  - by repeat apply frame_alloc.
  - destruct Hfr as [? _].
    eapply (owned_snoc _ h); eauto; try (simpl; lia).
    by repeat apply owned_alloc.
  - done.
Qed.

Lemma clone_loop_spec h0 es :
  ∀ R done h,
    heap_ok h0 → Forall2 (λ e r, e.1 = r.1 ∧ entry_at h0 e.2 r.2) es R →
    heap_ok h → frame h0 h → owned (next h0) h done →
    NoDup ((c_key <$> done) ++ es.*1) →
    ∃ h' new, mapM cloneEntry es h = Some (cell_entry <$> new, h') ∧
              heap_ok h' ∧ frame h0 h' ∧ owned (next h0) h' (done ++ new) ∧
              cell_abs <$> new = R.
Proof.
  induction es as [|[k v] es IH]; intros R done h Hok0 HF Hok Hfr Hown Hnd.
  - apply Forall2_nil_inv_l in HF as ->. exists h, []. by rewrite app_nil_r.
  - apply Forall2_cons_inv_l in HF as ([k' [pl cl]] & R' & [Ek Hent] & HF & ->).
    cbn [fst snd] in *. subst k'.
    rewrite fmap_cons in Hnd. cbn [fst] in Hnd.
    pose proof Hnd as [Hk Hnd']%NoDup_middle.
    destruct (cloneEntry_spec h0 h done k v pl cl) as (h1 & c & Hrun & Hok1 & Hfr1 & Hown1 & Habs);
      [done..| |].
    { intros ?. apply Hk. apply elem_of_app. by left. }
    assert (Ekc : c_key c = k) by (by injection Habs).
    destruct (IH R' (done ++ [c]) h1) as (h' & new & Hrun' & Hok' & Hfr' & Hown' & Habs');
      [done..| |].
    { rewrite fmap_app, <- app_assoc. simpl. by rewrite Ekc. }
    exists h', (c :: new). split_and!; [|done|done| |].
    + cbn [mapM]. rewrite (bind_run _ _ _ _ _ Hrun), (bind_run _ _ _ _ _ Hrun').
      done.
    + by rewrite <- app_assoc in Hown'.
    + by rewrite fmap_cons, Habs, Habs'.
Qed.

Lemma owned_nil b h : owned b h [].
Proof. split; try apply Forall_nil_2; apply NoDup_nil_2. Qed.

(** [cloneAdaptationMap]: the working copy has the parent's contents and is
    made of new objects only. *)
Lemma cloneAdaptationMap_spec h0 ctx R :
  heap_ok h0 → ctx_represents h0 ctx R →
  ∃ m h sh, cloneAdaptationMap (adaptationMap <$> ctx) h0 = Some (m, h) ∧
            Inv h0 h m sh ∧ cell_abs <$> sh = R.
Proof.
  intros Hok0 Hrep.
  assert (∃ es, match adaptationMap <$> ctx with
                | Some p => Map_entries p
                | None => ret []
                end h0 = Some (es, h0) ∧
                NoDup es.*1 ∧
                Forall2 (λ e r, e.1 = r.1 ∧ entry_at h0 e.2 r.2) es R)
    as (es & Hrun0 & Hnd & HF).
  { destruct ctx as [c|]; simpl in *.
    - destruct Hrep as (es & Hm & HF). exists es.
      destruct (ok_obj _ Hok0 _ _ Hm) as [Hnd _].
      split_and!; [|done..]. munfold. by rewrite Hm.
    - subst R. exists []. split_and!; [done|apply NoDup_nil_2|constructor]. }
  destruct (clone_loop_spec h0 es R [] h0) as (h1 & sh & Hrun1 & Hok1 & Hfr1 & Hown1 & Habs);
    [done|done|done|apply frame_refl|apply owned_nil|done|].
  simpl in Hown1.
  assert (Hk : NoDup (c_key <$> sh)) by apply Hown1.
  exists (next h1), (halloc (OMap (cell_entry <$> sh)) h1), sh. split_and!; [| |done].
  - unfold cloneAdaptationMap.
    rewrite (bind_run _ _ _ _ _ Hrun0), (bind_run _ _ _ _ _ Hrun1).
    unfold Map_new, alloc. rewrite entries_new by by rewrite cell_entry_keys. done.
  - split.
    + apply heap_ok_alloc; [done|]. apply cells_obj_ok; [apply Hown1 | done].
    + by apply frame_alloc.
    + by apply owned_alloc.
    + apply halloc_lookup_new.
    + by destruct Hfr1.
Qed.

(** ** Registries in the store *)

Lemma Inv_represents h0 h m sh : Inv h0 h m sh → represents h m (cell_abs <$> sh).
Proof.
  intros [_ _ Hown Hm _]. exists (cell_entry <$> sh). split; [done|].
  apply Forall2_fmap, Forall_Forall2_diag.
  eapply Forall_impl; [exact (own_at _ _ _ Hown)|].
  intros c (Hv & Hp & Hc). split; [done|]. eexists. eauto.
Qed.

Lemma Inv_values_from h0 h m sh : Inv h0 h m sh → values_from (next h0) h m.
Proof.
  intros [_ _ Hown Hm _]. exists (cell_entry <$> sh). split; [done|].
  apply Forall_fmap. eapply Forall_impl; [exact (own_fresh _ _ _ Hown)|].
  by intros c (? & _).
Qed.

Lemma entry_at_frame h h' v e :
  heap_ok h → frame h h' → entry_at h v e → entry_at h' v e.
Proof.
  intros Hok Hfr (val & Hv & Hp & Hc).
  exists val. split_and!; by eapply frame_lookup.
Qed.

Lemma represents_frame h h' m R :
  heap_ok h → frame h h' → represents h m R → represents h' m R.
Proof.
  intros Hok Hfr (es & Hm & HF). exists es. split; [by eapply frame_lookup|].
  eapply Forall2_impl; [done|]. intros e r [? ?]. split; [done|].
  by eapply entry_at_frame.
Qed.

Lemma ctx_represents_frame h h' ctx R :
  heap_ok h → frame h h' → ctx_represents h ctx R → ctx_represents h' ctx R.
Proof.
  destruct ctx; simpl; [|done]. apply represents_frame.
Qed.

Lemma noAdaptations_frame h h' :
  heap_ok h → frame h h' → noAdaptations_ok h → noAdaptations_ok h'.
Proof.
  intros Hok Hfr (H1 & H2 & H3). split_and!; by eapply frame_lookup.
Qed.

(** Every context of a well-formed store has contents. *)
Lemma ctx_represents_exists h ctx :
  heap_ok h → ctx_ok h ctx → ∃ R, ctx_represents h ctx R.
Proof.
  intros Hok Hctx. destruct ctx as [c|]; simpl in *; [|by exists []].
  destruct Hctx as [es Hm]. destruct (ok_obj _ Hok _ _ Hm) as [_ Hvals].
  assert (∃ R, Forall2 (λ e r, e.1 = r.1 ∧ entry_at h e.2 r.2) es R) as [R HR].
  { clear Hm. induction es as [|[k v] es IH]; [exists []; constructor|].
    rewrite fmap_cons in Hvals. apply Forall_cons in Hvals as [[val Hv] Hrest].
    destruct (IH Hrest) as [R HR].
    destruct (ok_obj _ Hok _ _ Hv) as [[pl Hp] [cl Hc]].
    exists ((k, (pl, cl)) :: R). constructor; [|done].
    split; [done|]. exists val. eauto. }
  exists R, es. done.
Qed.

Lemma represents_get h es R k :
  Forall2 (λ e r, e.1 = r.1 ∧ entry_at h e.2 r.2) es R →
  match entries_get k es with
  | Some v => ∃ e, entries_get k R = Some e ∧ entry_at h v e
  | None => entries_get k R = None
  end.
Proof.
  intros HF. induction HF as [|[k1 v] [k2 e] es R [E Hat] _ IH]; simpl; [done|].
  simpl in E. subst k2. case_decide; [|done]. eauto.
Qed.

Lemma read_entry_run h v e : entry_at h v e → read_entry v h = Some (e, h).
Proof.
  intros (val & Hv & Hp & Hc). munfold. rewrite Hv. cbn. rewrite Hp. cbn.
  rewrite Hc. cbn. by destruct e.
Qed.

Lemma noAdaptations_entry h : noAdaptations_ok h → entry_at h noAdaptations noEntry.
Proof. intros (H1 & H2 & H3). eexists. eauto. Qed.

(** [lookup] on a context with contents [R]: the object returned is the one
    bound to the ref's id in the map, or [noAdaptations]; its lists are the
    contents of [R] at that id. *)
Lemma lookup_run h ctx R r :
  wf h → ctx_represents h ctx R →
  useComponentAdaptations ctx r h = Some (lookup_loc h ctx r, h) ∧
  lookup ctx r h = Some ((lookup_loc h ctx r, contents R (id r)), h) ∧
  entry_at h (lookup_loc h ctx r) (contents R (id r)) ∧
  (entries_get (id r) R = None → lookup_loc h ctx r = noAdaptations).
Proof.
  intros [Hok Hna] Hrep. unfold lookup, contents, lookup_loc.
  destruct ctx as [c|]; simpl in Hrep.
  - destruct Hrep as (es & Hm & HF). rewrite Hm.
    pose proof (represents_get h es R (id r) HF) as Hget.
    assert (Hrun : useComponentAdaptations (Some c) r h =
                   Some (default noAdaptations (entries_get (id r) es), h)).
    { unfold useComponentAdaptations. munfold. by rewrite Hm. }
    rewrite (bind_run _ _ _ _ _ Hrun).
    destruct (entries_get (id r) es) as [v|].
    + destruct Hget as (e & -> & Hat). simpl.
      rewrite (bind_run _ _ _ _ _ (read_entry_run _ _ _ Hat)).
      split_and!; done.
    + rewrite Hget. simpl.
      pose proof (noAdaptations_entry _ Hna) as Hat.
      rewrite (bind_run _ _ _ _ _ (read_entry_run _ _ _ Hat)).
      split_and!; done.
  - subst R.
    pose proof (noAdaptations_entry _ Hna) as Hat.
    assert (Hrun : useComponentAdaptations None r h = Some (noAdaptations, h)) by done.
    rewrite (bind_run _ _ _ _ _ Hrun).
    rewrite (bind_run _ _ _ _ _ (read_entry_run _ _ _ Hat)).
    split_and!; done.
Qed.

Lemma lookup_loc_frame h h' ctx r :
  heap_ok h → ctx_ok h ctx → frame h h' → lookup_loc h' ctx r = lookup_loc h ctx r.
Proof.
  intros Hok Hctx Hfr. destruct ctx as [c|]; [|done]. simpl in *.
  destruct Hctx as [es Hm]. by rewrite (frame_lookup _ _ _ _ Hok Hfr Hm), Hm.
Qed.

(** A hit on a map whose values are all at or above [b] is at or above [b]. *)
Lemma lookup_hit_from b h m R r :
  values_from b h m → represents h m R → is_Some (entries_get (id r) R) →
  b ≤ lookup_loc h (Some (mkContext m)) r.
Proof.
  intros (es & Hm & Hall) (es' & Hm' & HF) [e He].
  rewrite Hm in Hm'. injection Hm' as <-.
  unfold lookup_loc. cbn [adaptationMap]. rewrite Hm.
  pose proof (represents_get h es R (id r) HF) as Hget.
  destruct (entries_get (id r) es) as [v|] eqn:Ev; [|congruence].
  apply entries_get_elem in Ev. rewrite Forall_forall in Hall.
  apply (Hall _ Ev).
Qed.

(** ** [AdaptationProvider] runs, and computes the contract *)

Lemma AdaptationProvider_run h ctx props R :
  wf h → ctx_represents h ctx R →
  ∃ child h',
    AdaptationProvider props ctx h = Some (child, h') ∧
    wf h' ∧ frame h h' ∧
    ctx_represents h' ctx R ∧
    represents h' (adaptationMap child) (extend_spec props R) ∧
    values_from (next h) h' (adaptationMap child).
Proof.
  intros [Hok Hna] Hrep. unfold AdaptationProvider, extend_spec.
  assert (∃ m h1 sh1,
            (if default false (reset props)
             then cloneAdaptationMap None
             else cloneAdaptationMap (adaptationMap <$> ctx)) h = Some (m, h1) ∧
            Inv h h1 m sh1 ∧
            cell_abs <$> sh1 = (if default false (reset props) then [] else R))
    as (m & h1 & sh1 & Hrun1 & HI1 & Habs1).
  { destruct (default false (reset props)).
    - by apply (cloneAdaptationMap_spec h None []).
    - by apply cloneAdaptationMap_spec. }
  rewrite (bind_run _ _ _ _ _ Hrun1).
  destruct (excludeComponentsStep_spec _ _ _ _ (excludeComponents props) HI1)
    as (h2 & sh2 & Hrun2 & HI2 & Habs2).
  rewrite (bind_run _ _ _ _ _ Hrun2).
  destruct (excludeStep_spec _ _ _ _ (excludePlugins props) (exclude props) HI2)
    as (h3 & sh3 & Hrun3 & HI3 & Habs3).
  rewrite (bind_run _ _ _ _ _ Hrun3).
  assert (∃ h4 sh4,
            match adaptations props with
            | Some a => appendAdaptationMap m (toArray a)
            | None => ret tt
            end h3 = Some (tt, h4) ∧
            Inv h h4 m sh4 ∧
            cell_abs <$> sh4 =
              match adaptations props with
              | Some a => foldl append_spec (cell_abs <$> sh3) (toArray a)
              | None => cell_abs <$> sh3
              end)
    as (h4 & sh4 & Hrun4 & HI4 & Habs4).
  { destruct (adaptations props) as [a|].
    - by apply appendAdaptationMap_spec.
    - by exists h3, sh3. }
  rewrite (bind_run _ _ _ _ _ Hrun4).
  exists (mkContext m), h4. cbn [adaptationMap].
  pose proof HI4 as [Hok4 Hfr4 _ _ _].
  split_and!.
  - done.
  - split; [done | exact (noAdaptations_frame h h4 Hok Hfr4 Hna)].
  - done.
  - exact (ctx_represents_frame h h4 ctx R Hok Hfr4 Hrep).
  - rewrite <- Habs1, <- Habs2, <- Habs3.
    destruct (adaptations props); rewrite <- Habs4; by eapply Inv_represents.
  - by eapply Inv_values_from.
Qed.

Lemma module_init_run : module_init empty_heap = Some (noAdaptations, init_heap).
Proof. reflexivity. Qed.

(** The store after module evaluation is well formed. *)
Lemma wf_init : wf init_heap.
Proof.
  assert (Hl : ∀ l o, store init_heap !! l = Some o →
                 (l = 2 ∧ o = OValue (mkValue 0 1)) ∨
                 (l = 1 ∧ o = OComponents []) ∨ (l = 0 ∧ o = OInterceptors [])).
  { intros l o. unfold init_heap. cbn [store].
    rewrite !lookup_insert, lookup_empty.
    repeat case_decide; intros [= <-]; subst; auto. }
  split; [split|].
  - intros l o [[-> _]|[[-> _]|[-> _]]]%Hl; simpl; lia.
  - intros l o [[_ ->]|[[_ ->]|[_ ->]]]%Hl; simpl; [|done..].
    split; eexists; reflexivity.
  - repeat split.
Qed.

(** A provider's result is again a well-formed store with a context in it. *)
Lemma wf_after props ctx h child h' :
  wf h → ctx_ok h ctx → AdaptationProvider props ctx h = Some (child, h') →
  wf h' ∧ ctx_ok h' (Some child) ∧ ctx_ok h' ctx.
Proof.
  intros Hwf Hctx Hrun.
  destruct (ctx_represents_exists h ctx) as [R HR]; [apply Hwf | done |].
  destruct (AdaptationProvider_run h ctx props R Hwf HR)
    as (c & h1 & Hrun' & Hwf' & _ & Hrep & (es & Hm & _) & _).
  rewrite Hrun in Hrun'. injection Hrun' as <- <-.
  split_and!; [done | by exists es |].
  destruct ctx as [c0|]; [|done]. destruct Hrep as (es0 & ? & _). by exists es0.
Qed.

(** ** Facts about the contract *)

Lemma contents_append R a k :
  contents (append_spec R a) k =
  if decide (id (ref a) = k) then add_adaptation a (contents R k) else contents R k.
Proof.
  unfold append_spec, contents. rewrite entries_get_set.
  repeat case_decide; subst; done || congruence.
Qed.

Lemma contents_delete R k k' :
  contents (entries_delete k R) k' = if decide (k = k') then noEntry else contents R k'.
Proof. unfold contents. rewrite entries_get_delete. by case_decide. Qed.

Lemma contents_exclude ep ex R k :
  contents (exclude_spec ep ex R) k =
  if truthy ep || truthy ex
  then exclude_entry (list_to_set (default [] ep)) (list_to_set (key <$> default [] ex))
         (contents R k)
  else contents R k.
Proof.
  unfold exclude_spec, contents. destruct (truthy ep || truthy ex); [|done].
  rewrite entries_get_fmap. by destruct (entries_get k R).
Qed.

Lemma has_key_app {T} k (l1 l2 : list (WrapAdaptation T)) :
  has_key k (l1 ++ l2) = has_key k l1 || has_key k l2.
Proof. unfold has_key. apply existsb_app. Qed.

Lemma has_key_singleton {T} k (e : WrapAdaptation T) :
  has_key k [e] = bool_decide (key (adaptation e) = k).
Proof. unfold has_key. simpl. apply orb_false_r. Qed.

Lemma has_key_filter_excluded k (ks : gset string) (p : Adaptation → bool) l :
  k ∈ ks → has_key k (List.filter (key_kept ks) (List.filter p l)) = false.
Proof.
  intros Hk. unfold has_key. apply not_true_is_false.
  intros (e & [_ Hkept]%filter_In & Hb)%existsb_exists.
  apply bool_decide_eq_true in Hb. unfold key_kept in Hkept.
  rewrite Hb in Hkept. rewrite bool_decide_eq_true_2 in Hkept; done.
Qed.

(** The components appended for one adaptation carrying a replacement. *)
Lemma add_adaptation_components a x e :
  spec_Adaptation (spec a) = Some x →
  (add_adaptation a e).2 = if has_key (key a) e.2 then e.2 else e.2 ++ [mkWrap x a].
Proof. intros H. unfold add_adaptation. cbn [snd]. by rewrite H. Qed.

Lemma add_adaptation_nothing a e :
  spec_Adaptation (spec a) = None → spec_interceptProps (spec a) = None →
  add_adaptation a e = e.
Proof. intros H1 H2. unfold add_adaptation. rewrite H1, H2. by destruct e. Qed.

(** The interceptors computed by step 4 depend on the interceptors only. *)
Lemma contents_foldl_append_interceptors l : ∀ R R',
  (∀ k, (contents R k).1 = (contents R' k).1) →
  ∀ k, (contents (foldl append_spec R l) k).1 = (contents (foldl append_spec R' l) k).1.
Proof.
  induction l as [|a l IH]; intros R R' HR; [done|]. cbn [foldl].
  apply IH. intros k. rewrite !contents_append. case_decide; [|done].
  unfold add_adaptation. cbn [fst]. by rewrite HR.
Qed.

Lemma excludeComponents_spec_nil ec : excludeComponents_spec ec [] = [].
Proof.
  unfold excludeComponents_spec. destruct ec as [ec|]; [|done].
  by induction (toArray ec).
Qed.

(** ** What a provider's run establishes, in terms of [lookup] *)

Lemma extend_summary h ctx props :
  wf h → ctx_ok h ctx →
  ∃ R child h',
    ctx_represents h ctx R ∧
    AdaptationProvider props ctx h = Some (child, h') ∧
    wf h' ∧ frame h h' ∧
    (∀ r, lookup ctx r h = Some ((lookup_loc h ctx r, contents R (id r)), h)) ∧
    (∀ r, lookup ctx r h' = Some ((lookup_loc h ctx r, contents R (id r)), h')) ∧
    (∀ r, lookup (Some child) r h' =
          Some ((lookup_loc h' (Some child) r, contents (extend_spec props R) (id r)), h')) ∧
    (∀ r, entries_get (id r) (extend_spec props R) = None →
          lookup_loc h' (Some child) r = noAdaptations) ∧
    (∀ r, is_Some (entries_get (id r) (extend_spec props R)) →
          next h ≤ lookup_loc h' (Some child) r).
Proof.
  intros Hwf Hctx.
  destruct (ctx_represents_exists h ctx) as [R HR]; [apply Hwf | done |].
  destruct (AdaptationProvider_run h ctx props R Hwf HR)
    as (child & h' & Hrun & Hwf' & Hfr & Hrep & Hchild & Hfrom).
  exists R, child, h'. split_and!; try done.
  - intros r. apply (lookup_run h ctx R r Hwf HR).
  - intros r. rewrite <- (lookup_loc_frame h h' ctx r); [|apply Hwf|done..].
    apply (lookup_run h' ctx R r Hwf' Hrep).
  - intros r. apply (lookup_run h' (Some child) _ r Hwf' Hchild).
  - intros r. apply (lookup_run h' (Some child) _ r Hwf' Hchild).
  - intros r Hsome. destruct child as [m]. by eapply lookup_hit_from.
Qed.

Lemma noAdaptations_below h : wf h → noAdaptations < next h.
Proof. intros [Hok (Hna & _)]. eapply ok_bound; eauto. Qed.

(** The lists [lookup] returns are the contents of the context. *)
Lemma lookup_contents h ctx R r v e h1 :
  wf h → ctx_represents h ctx R → lookup ctx r h = Some ((v, e), h1) →
  v = lookup_loc h ctx r ∧ e = contents R (id r) ∧ h1 = h.
Proof.
  intros Hwf HR Hl. destruct (lookup_run h ctx R r Hwf HR) as (_ & Hl' & _).
  rewrite Hl' in Hl. by injection Hl as <- <- <-.
Qed.

Lemma stage1_run :
  AdaptationProvider (declaring (One (replacing "a" 1 (Some pluginP1)))) None init_heap
  = Some (ctx1, heap1).
Proof. vm_compute. reflexivity. Qed.

Lemma stage1_wf : wf heap1 ∧ ctx_ok heap1 (Some ctx1).
Proof.
  destruct (wf_after _ None init_heap ctx1 heap1 wf_init I stage1_run) as (? & ? & _).
  done.
Qed.

(** ** The claims *)

(** C2: for every registry and every reference without an entry in it, the
    lookup returns the module constant [noAdaptations] itself, the same object
    on every miss, without allocating anything (the store is returned as it
    was), and its two lists are empty. *)
Theorem lookup_miss_returns_shared_singleton h ctx r :
  wf h → unregistered h ctx r →
  useComponentAdaptations ctx r h = Some (noAdaptations, h) ∧
  lookup ctx r h = Some ((noAdaptations, ([], [])), h).
Proof.
  intros [_ Hna] Hmiss.
  assert (Hrun : useComponentAdaptations ctx r h = Some (noAdaptations, h)).
  { destruct ctx as [c|]; [|done]. unfold useComponentAdaptations.
    by rewrite (bind_run _ _ _ _ _ Hmiss). }
  split; [done|]. unfold lookup. rewrite (bind_run _ _ _ _ _ Hrun).
  by rewrite (bind_run _ _ _ _ _ (read_entry_run _ _ _ (noAdaptations_entry _ Hna))).
Qed.

Lemma lookup_miss_returns_shared_singleton_witness :
  wf heap1 ∧ unregistered heap1 (Some ctx1) refY ∧
  lookup (Some ctx1) refY heap1 = Some ((noAdaptations, ([], [])), heap1).
Proof.
  assert (Hmiss : unregistered heap1 (Some ctx1) refY) by (vm_compute; reflexivity).
  split; [apply stage1_wf|]. split; [exact Hmiss|].
  apply (lookup_miss_returns_shared_singleton heap1 (Some ctx1) refY);
    [apply stage1_wf | exact Hmiss].
Defined.

(** C7: for every parent registry, a provider with [reset] set (and no
    adaptations of its own) yields a registry in which every reference, those
    with an entry in the parent included, looks up to the shared empty
    singleton. *)
Theorem reset_clears_inheritance h parent props :
  wf h → ctx_ok h parent →
  reset props = Some true → adaptations props = None →
  ∃ child h',
    AdaptationProvider props parent h = Some (child, h') ∧
    ∀ r, lookup (Some child) r h' = Some ((noAdaptations, ([], [])), h').
Proof.
  intros Hwf Hctx Hreset Hnone.
  destruct (extend_summary h parent props Hwf Hctx)
    as (R & child & h' & _ & Hrun & _ & _ & _ & _ & Hchild & Hmiss & _).
  assert (HR : extend_spec props R = []).
  { unfold extend_spec. rewrite Hreset, Hnone. cbn [default].
    rewrite excludeComponents_spec_nil. unfold exclude_spec.
    by destruct (truthy _ || truthy _). }
  exists child, h'. split; [done|]. intros r.
  rewrite Hchild, Hmiss; rewrite HR; done.
Qed.

Lemma reset_clears_inheritance_witness :
  wf heap1 ∧ ctx_ok heap1 (Some ctx1) ∧
  (∃ v e, lookup (Some ctx1) refX heap1 = Some ((v, (e.1, [e.2])), heap1)) ∧
  ∃ child h',
    AdaptationProvider (mkProps None (Some true) None None None) (Some ctx1) heap1
      = Some (child, h') ∧
    ∀ r, lookup (Some child) r h' = Some ((noAdaptations, ([], [])), h').
Proof.
  split; [apply stage1_wf|]. split; [apply stage1_wf|]. split.
  - eexists _, (_, _). vm_compute. reflexivity.
  - apply (reset_clears_inheritance heap1 (Some ctx1)
             (mkProps None (Some true) None None None));
      [apply stage1_wf | apply stage1_wf | reflexivity | reflexivity].
Defined.

Lemma extend_spec_declaring l R :
  extend_spec (declaring l) R = foldl append_spec R (toArray l).
Proof. reflexivity. Qed.

(** C1: a provider never mutates the registry of its parent.  For every
    well-formed store, every parent context and every props, the run succeeds,
    every object that existed before the call is unchanged after it, and
    every lookup on the parent returns the same object with the same two
    lists after the call as before.  In particular, when the parent holds one
    component for [X] and the provider declares a new adaptation for [X]
    (another key, carrying a replacement), the lookup of [X] on the parent
    still gives the one-element list while on the child it gives two. *)
Theorem extend_leaves_parent_unchanged h parent :
  wf h → ctx_ok h parent →
  (∀ props, ∃ child h',
      AdaptationProvider props parent h = Some (child, h') ∧ frame h h' ∧
      ∀ r, ∃ v e, lookup parent r h = Some ((v, e), h) ∧
                  lookup parent r h' = Some ((v, e), h')) ∧
  (∀ X a x v pl c0,
      lookup parent X h = Some ((v, (pl, [c0])), h) →
      id (ref a) = id X → spec_Adaptation (spec a) = Some x →
      key (adaptation c0) ≠ key a →
      ∃ child h',
        AdaptationProvider (declaring (Many [a])) parent h = Some (child, h') ∧
        lookup parent X h' = Some ((v, (pl, [c0])), h') ∧
        ∃ v' pl', lookup (Some child) X h' = Some ((v', (pl', [c0; mkWrap x a])), h')).
Proof.
  intros Hwf Hctx. split.
  - intros props.
    destruct (extend_summary h parent props Hwf Hctx)
      as (R & child & h' & _ & Hrun & _ & Hfr & Hbefore & Hafter & _).
    exists child, h'. split_and!; [done..|]. intros r. eauto.
  - intros X a x v pl c0 HX Hid Hx Hkey.
    destruct (extend_summary h parent (declaring (Many [a])) Hwf Hctx)
      as (R & child & h' & HR & Hrun & _ & _ & _ & Hafter & Hchild & _).
    destruct (lookup_contents _ _ _ _ _ _ _ Hwf HR HX) as (-> & HRX & _).
    exists child, h'. split_and!; [done| by rewrite Hafter, <- HRX |].
    eexists _, _. rewrite Hchild, extend_spec_declaring. cbn [toArray foldl].
    rewrite contents_append, decide_True, <- HRX by done.
    rewrite (surjective_pairing (add_adaptation _ _)).
    rewrite (add_adaptation_components _ x) by done. cbn [snd].
    rewrite has_key_singleton, bool_decide_eq_false_2 by done. done.
Qed.

Lemma extend_leaves_parent_unchanged_witness :
  wf heap1 ∧ ctx_ok heap1 (Some ctx1) ∧
  ∃ child h',
    AdaptationProvider (declaring (Many [replacing "b" 2 None])) (Some ctx1) heap1
      = Some (child, h') ∧
    (fst <$> lookup (Some ctx1) refX h') =
      Some (6, ([], [mkWrap (RenderFn 1) (replacing "a" 1 (Some pluginP1))])) ∧
    ∃ v' pl', lookup (Some child) refX h' =
      Some ((v', (pl', [mkWrap (RenderFn 1) (replacing "a" 1 (Some pluginP1));
                        mkWrap (RenderFn 2) (replacing "b" 2 None)])), h').
Proof.
  split; [apply stage1_wf|]. split; [apply stage1_wf|].
  destruct (extend_leaves_parent_unchanged heap1 (Some ctx1)) as [_ Hparticular];
    [apply stage1_wf | apply stage1_wf |].
  destruct (Hparticular refX (replacing "b" 2 None) (RenderFn 2) 6 []
              (mkWrap (RenderFn 1) (replacing "a" 1 (Some pluginP1))))
    as (child & h' & Hrun & Hparent & Hchild);
    [vm_compute; reflexivity | reflexivity | reflexivity | discriminate |].
  exists child, h'. split; [exact Hrun|]. split; [|exact Hchild].
  rewrite Hparent. reflexivity.
Defined.

Lemma has_key_add_adaptation a x e :
  spec_Adaptation (spec a) = Some x → has_key (key a) (add_adaptation a e).2 = true.
Proof.
  intros Hx. rewrite (add_adaptation_components _ x) by done.
  destruct (has_key (key a) e.2) eqn:E; [done|].
  rewrite has_key_app, has_key_singleton. cbn [adaptation].
  by rewrite bool_decide_eq_true_2, orb_true_r.
Qed.

(** A later adaptation with the key of an earlier one adds no component. *)
Lemma add_adaptation_same_key a a2 x e :
  spec_Adaptation (spec a) = Some x → key a2 = key a →
  (add_adaptation a2 (add_adaptation a e)).2 = (add_adaptation a e).2.
Proof.
  intros Hx Hk. unfold add_adaptation at 1. cbn [snd].
  destruct (spec_Adaptation (spec a2)); [|done].
  by rewrite Hk, (has_key_add_adaptation a x).
Qed.

(** C3, as stated, fails: under a provider that already declared a
    replacement keyed "x" for [refX], extending with A (key "x", replacement
    1) and then with another adaptation keyed "x" (replacement 2) leaves the
    components of [refX] at the older entry; the entry for A is not in the
    list. *)
Lemma dedup_keeps_only_A_counterexample :
  components_under
    [declaring (One (replacing "x" 0 None));
     declaring (One (replacing "x" 1 None));
     declaring (One (replacing "x" 2 None))] refX
  = Some [mkWrap (RenderFn 0) (replacing "x" 0 None)] ∧
  mkWrap (RenderFn 1) (replacing "x" 1 None)
    ∉ [mkWrap (RenderFn 0) (replacing "x" 0 None)].
Proof.
  split; [vm_compute; reflexivity|].
  intros [=]%list_elem_of_singleton.
Qed.

(** C3, amended: deduplication is per list and per target reference, keyed on
    the adaptation's key, and the first write wins.  For every registry, after
    a provider declaring A (with a replacement), a nested provider declaring
    another adaptation with A's key for the same reference leaves the
    components list of that reference exactly as the first provider made it,
    and so does declaring both in one array.  That list is the parent's list
    followed by the single entry for A when the parent's list has no element
    with A's key (so [A] alone when the reference had no components), and the
    parent's list itself otherwise. *)
Theorem dedup_first_write_wins h parent a a2 x1 x2 :
  wf h → ctx_ok h parent →
  spec_Adaptation (spec a) = Some x1 → spec_Adaptation (spec a2) = Some x2 →
  key a2 = key a → id (ref a2) = id (ref a) →
  ∃ v0 pl0 cl0 c1 h1 v1 pl1 c2 h2 v2 pl2 c3 h3 v3 pl3,
    let cl1 := if has_key (key a) cl0 then cl0 else cl0 ++ [mkWrap x1 a] in
    lookup parent (ref a) h = Some ((v0, (pl0, cl0)), h) ∧
    AdaptationProvider (declaring (One a)) parent h = Some (c1, h1) ∧
    lookup (Some c1) (ref a) h1 = Some ((v1, (pl1, cl1)), h1) ∧
    AdaptationProvider (declaring (One a2)) (Some c1) h1 = Some (c2, h2) ∧
    lookup (Some c2) (ref a) h2 = Some ((v2, (pl2, cl1)), h2) ∧
    AdaptationProvider (declaring (Many [a; a2])) parent h = Some (c3, h3) ∧
    lookup (Some c3) (ref a) h3 = Some ((v3, (pl3, cl1)), h3).
Proof.
  intros Hwf Hctx Hx1 Hx2 Hkey Hid.
  destruct (ctx_represents_exists h parent) as [R HR]; [apply Hwf | done |].
  destruct (AdaptationProvider_run h parent (declaring (One a)) R Hwf HR)
    as (c1 & h1 & Hrun1 & Hwf1 & _ & _ & Hc1 & _).
  destruct (AdaptationProvider_run h1 (Some c1) (declaring (One a2)) _ Hwf1 Hc1)
    as (c2 & h2 & Hrun2 & Hwf2 & _ & _ & Hc2 & _).
  destruct (AdaptationProvider_run h parent (declaring (Many [a; a2])) R Hwf HR)
    as (c3 & h3 & Hrun3 & Hwf3 & _ & _ & Hc3 & _).
  destruct (lookup_run h parent R (ref a) Hwf HR) as (_ & Hl0 & _).
  destruct (lookup_run h1 (Some c1) _ (ref a) Hwf1 Hc1) as (_ & Hl1 & _).
  destruct (lookup_run h2 (Some c2) _ (ref a) Hwf2 Hc2) as (_ & Hl2 & _).
  destruct (lookup_run h3 (Some c3) _ (ref a) Hwf3 Hc3) as (_ & Hl3 & _).
  rewrite !extend_spec_declaring in Hl1. rewrite !extend_spec_declaring in Hl2.
  rewrite !extend_spec_declaring in Hl3. cbn [toArray foldl] in Hl1, Hl2, Hl3.
  rewrite !contents_append, !decide_True in Hl1 by done.
  rewrite !contents_append, !decide_True in Hl2 by done.
  rewrite !contents_append, !decide_True in Hl3 by done.
  set (e0 := contents R (id (ref a))) in *.
  assert (E1 : (add_adaptation a e0).2 =
               if has_key (key a) e0.2 then e0.2 else e0.2 ++ [mkWrap x1 a])
    by by apply add_adaptation_components.
  assert (E2 : (add_adaptation a2 (add_adaptation a e0)).2 = (add_adaptation a e0).2)
    by by eapply add_adaptation_same_key.
  exists (lookup_loc h parent (ref a)), e0.1, e0.2, c1, h1.
  exists (lookup_loc h1 (Some c1) (ref a)), (add_adaptation a e0).1, c2, h2.
  exists (lookup_loc h2 (Some c2) (ref a)), (add_adaptation a2 (add_adaptation a e0)).1, c3, h3.
  exists (lookup_loc h3 (Some c3) (ref a)), (add_adaptation a2 (add_adaptation a e0)).1.
  cbv zeta. rewrite <- E1.
  split_and!; [|done| |done| |done|].
  - rewrite Hl0. by destruct e0.
  - rewrite Hl1. by destruct (add_adaptation a e0).
  - rewrite Hl2, <- E2. by destruct (add_adaptation a2 (add_adaptation a e0)).
  - rewrite Hl3, <- E2. by destruct (add_adaptation a2 (add_adaptation a e0)).
Qed.

Lemma dedup_first_write_wins_witness :
  wf init_heap ∧ ctx_ok init_heap None ∧
  ∃ c1 h1 c2 h2 v2 pl2,
    AdaptationProvider (declaring (One (replacing "x" 1 None))) None init_heap
      = Some (c1, h1) ∧
    AdaptationProvider (declaring (One (replacing "x" 2 None))) (Some c1) h1
      = Some (c2, h2) ∧
    lookup (Some c2) refX h2 =
      Some ((v2, (pl2, [mkWrap (RenderFn 1) (replacing "x" 1 None)])), h2).
Proof.
  split; [apply wf_init|]. split; [exact I|].
  destruct (dedup_first_write_wins init_heap None
              (replacing "x" 1 None) (replacing "x" 2 None) (RenderFn 1) (RenderFn 2))
    as (v0 & pl0 & cl0 & c1 & h1 & v1 & pl1 & c2 & h2 & v2 & pl2 & c3 & h3 & v3 & pl3
        & Hl0 & Hrun1 & Hl1 & Hrun2 & Hl2 & _);
    [apply wf_init | exact I | reflexivity | reflexivity | reflexivity | reflexivity |].
  assert (Hcl0 : cl0 = []).
  { vm_compute in Hl0. congruence. }
  subst cl0. exists c1, h1, c2, h2, v2, pl2.
  split; [exact Hrun1|]. split; [exact Hrun2|]. exact Hl2.
Defined.

Lemma List_filter_sublist {A} (p : A → bool) l : List.filter p l `sublist_of` l.
Proof.
  induction l as [|x l IH]; simpl; [done|].
  destruct (p x); [by apply sublist_skip | by apply sublist_cons].
Qed.

(** Steps 1 to 3 only remove components. *)
Lemma contents_excludeComponents_sublist ec R k :
  (contents (excludeComponents_spec ec R) k).2 `sublist_of` (contents R k).2.
Proof.
  unfold excludeComponents_spec. destruct ec as [ec|]; [|done].
  generalize (toArray ec). intros l. revert R.
  induction l as [|r l IH]; intros R; [done|]. cbn [foldl].
  etrans; [apply IH|]. rewrite contents_delete.
  case_decide; [apply sublist_nil_l | done].
Qed.

Lemma contents_exclude_sublist ep ex R k :
  (contents (exclude_spec ep ex R) k).2 `sublist_of` (contents R k).2.
Proof.
  rewrite contents_exclude. destruct (truthy ep || truthy ex); [|done].
  unfold exclude_entry. cbn [snd].
  etrans; apply List_filter_sublist.
Qed.

(** Step 4 appends, in the order of the adaptations, entries of adaptations
    it was given. *)
Lemma contents_foldl_append_added l : ∀ R k,
  ∃ added,
    (contents (foldl append_spec R l) k).2 = (contents R k).2 ++ added ∧
    Forall (λ e : Adaptation, adaptation e ∈ l) added.
Proof.
  induction l as [|a l IH]; intros R k.
  - exists []. by rewrite app_nil_r.
  - cbn [foldl]. destruct (IH (append_spec R a) k) as (added & -> & Hall).
    assert (Hall' : Forall (λ e : Adaptation, adaptation e ∈ a :: l) added).
    { eapply Forall_impl; [done|]. intros e He. by apply elem_of_cons; right. }
    rewrite contents_append. case_decide; [|by exists added].
    unfold add_adaptation. cbn [snd].
    destruct (spec_Adaptation (spec a)) as [x|]; [|by exists added].
    destruct (has_key (key a) (contents R k).2); [by exists added|].
    exists (mkWrap x a :: added). split; [by rewrite <- app_assoc|].
    apply Forall_cons. split; [|done]. cbn [adaptation]. apply elem_of_cons. by left.
Qed.

Lemma contents_extend_spec_split props R k :
  ∃ kept added,
    (contents (extend_spec props R) k).2 = kept ++ added ∧
    kept `sublist_of` (contents R k).2 ∧
    Forall (λ e : Adaptation, adaptation e ∈ declared props) added.
Proof.
  unfold extend_spec, declared.
  set (R0 := if default false (reset props) then [] else R).
  set (R2 := exclude_spec _ _ (excludeComponents_spec _ R0)).
  assert (Hkept : (contents R2 k).2 `sublist_of` (contents R k).2).
  { etrans; [apply contents_exclude_sublist|].
    etrans; [apply contents_excludeComponents_sublist|].
    subst R0. destruct (default false (reset props)); [apply sublist_nil_l | done]. }
  destruct (adaptations props) as [a|].
  - destruct (contents_foldl_append_added (toArray a) R2 k) as (added & -> & Hall).
    by exists (contents R2 k).2, added.
  - exists (contents R2 k).2, []. rewrite app_nil_r. split_and!; [done..|constructor].
Qed.

(** C4, as stated, fails: when the registry already holds a component keyed
    "a" for [refX], extending with A (key "a") then B (key "b") gives the
    older entry followed by B, not [A, B]. *)
Lemma insertion_order_counterexample :
  components_under
    [declaring (One (replacing "a" 0 None));
     declaring (Many [replacing "a" 1 None; replacing "b" 2 None])] refX
  = Some [mkWrap (RenderFn 0) (replacing "a" 0 None);
          mkWrap (RenderFn 2) (replacing "b" 2 None)] ∧
  [mkWrap (RenderFn 0) (replacing "a" 0 None);
   mkWrap (RenderFn 2) (replacing "b" 2 None)]
  ≠ [mkWrap (RenderFn 1) (replacing "a" 1 None);
     mkWrap (RenderFn 2) (replacing "b" 2 None)].
Proof.
  split; [vm_compute; reflexivity | discriminate].
Qed.

(** C4, amended: list order is insertion order.  For every registry whose
    components list for the target reference has no element with the key of A
    or of B, declaring A then B (same reference, distinct keys, both with
    replacements), in one array or in two nested providers, yields the
    parent's list followed by [A, B], so [A, B] itself when the reference had
    no components.  For every registry and every props, the components list
    of the child is made of entries kept from the parent, in the parent's
    order, followed by entries of the adaptations the provider declares. *)
Theorem insertion_order_preserved h parent :
  wf h → ctx_ok h parent →
  (∀ a b xa xb v pl cl,
      spec_Adaptation (spec a) = Some xa → spec_Adaptation (spec b) = Some xb →
      id (ref b) = id (ref a) → key a ≠ key b →
      lookup parent (ref a) h = Some ((v, (pl, cl)), h) →
      has_key (key a) cl = false → has_key (key b) cl = false →
      (∃ child h' v' pl',
          AdaptationProvider (declaring (Many [a; b])) parent h = Some (child, h') ∧
          lookup (Some child) (ref a) h' =
            Some ((v', (pl', cl ++ [mkWrap xa a; mkWrap xb b])), h')) ∧
      (∃ c1 h1 c2 h2 v2 pl2,
          AdaptationProvider (declaring (One a)) parent h = Some (c1, h1) ∧
          AdaptationProvider (declaring (One b)) (Some c1) h1 = Some (c2, h2) ∧
          lookup (Some c2) (ref a) h2 =
            Some ((v2, (pl2, cl ++ [mkWrap xa a; mkWrap xb b])), h2))) ∧
  (∀ props r, ∃ child h' v pl cl v' pl' kept added,
      AdaptationProvider props parent h = Some (child, h') ∧
      lookup parent r h = Some ((v, (pl, cl)), h) ∧
      lookup (Some child) r h' = Some ((v', (pl', kept ++ added)), h') ∧
      kept `sublist_of` cl ∧
      Forall (λ e : Adaptation, adaptation e ∈ declared props) added).
Proof.
  intros Hwf Hctx.
  destruct (ctx_represents_exists h parent) as [R HR]; [apply Hwf | done |].
  split.
  - intros a b xa xb v pl cl Hxa Hxb Hid Hkey Hl Ha Hb.
    destruct (lookup_contents _ _ _ _ _ _ _ Hwf HR Hl) as (_ & HRa & _).
    assert (Hb' : has_key (key b) (cl ++ [mkWrap xa a]) = false).
    { rewrite has_key_app, Hb, has_key_singleton. cbn [adaptation].
      by rewrite bool_decide_eq_false_2. }
    assert (E : (add_adaptation b (add_adaptation a (contents R (id (ref a))))).2
                = cl ++ [mkWrap xa a; mkWrap xb b]).
    { rewrite (add_adaptation_components b xb), (add_adaptation_components a xa) by done.
      rewrite <- HRa. cbn [snd]. rewrite Ha, Hb'. by rewrite <- app_assoc. }
    split.
    + destruct (AdaptationProvider_run h parent (declaring (Many [a; b])) R Hwf HR)
        as (c & h' & Hrun & Hwf' & _ & _ & Hc & _).
      destruct (lookup_run h' (Some c) _ (ref a) Hwf' Hc) as (_ & Hl' & _).
      rewrite extend_spec_declaring in Hl'. cbn [toArray foldl] in Hl'.
      rewrite !contents_append, !decide_True in Hl' by done.
      exists c, h', (lookup_loc h' (Some c) (ref a)),
        (add_adaptation b (add_adaptation a (contents R (id (ref a))))).1.
      split; [done|]. rewrite Hl', <- E.
      by destruct (add_adaptation b (add_adaptation a (contents R (id (ref a))))).
    + destruct (AdaptationProvider_run h parent (declaring (One a)) R Hwf HR)
        as (c1 & h1 & Hrun1 & Hwf1 & _ & _ & Hc1 & _).
      destruct (AdaptationProvider_run h1 (Some c1) (declaring (One b)) _ Hwf1 Hc1)
        as (c2 & h2 & Hrun2 & Hwf2 & _ & _ & Hc2 & _).
      destruct (lookup_run h2 (Some c2) _ (ref a) Hwf2 Hc2) as (_ & Hl' & _).
      rewrite !extend_spec_declaring in Hl'. cbn [toArray foldl] in Hl'.
      rewrite !contents_append, !decide_True in Hl' by done.
      exists c1, h1, c2, h2, (lookup_loc h2 (Some c2) (ref a)),
        (add_adaptation b (add_adaptation a (contents R (id (ref a))))).1.
      split_and!; [done..|]. rewrite Hl', <- E.
      by destruct (add_adaptation b (add_adaptation a (contents R (id (ref a))))).
  - intros props r.
    destruct (AdaptationProvider_run h parent props R Hwf HR)
      as (c & h' & Hrun & Hwf' & _ & _ & Hc & _).
    destruct (lookup_run h parent R r Hwf HR) as (_ & Hl & _).
    destruct (lookup_run h' (Some c) _ r Hwf' Hc) as (_ & Hl' & _).
    destruct (contents_extend_spec_split props R (id r)) as (kept & added & E & Hk & Ha).
    exists c, h', (lookup_loc h parent r), (contents R (id r)).1, (contents R (id r)).2,
      (lookup_loc h' (Some c) r), (contents (extend_spec props R) (id r)).1, kept, added.
    split_and!; [done| | |done..].
    + rewrite Hl. by destruct (contents R (id r)).
    + rewrite Hl', <- E. by destruct (contents (extend_spec props R) (id r)).
Qed.

Lemma insertion_order_preserved_witness :
  wf heap1 ∧ ctx_ok heap1 (Some ctx1) ∧
  ∃ child h' v' pl',
    AdaptationProvider
      (declaring (Many [replacing "b" 2 None; replacing "c" 3 None])) (Some ctx1) heap1
      = Some (child, h') ∧
    lookup (Some child) refX h' =
      Some ((v', (pl', [mkWrap (RenderFn 1) (replacing "a" 1 (Some pluginP1));
                        mkWrap (RenderFn 2) (replacing "b" 2 None);
                        mkWrap (RenderFn 3) (replacing "c" 3 None)])), h').
Proof.
  split; [apply stage1_wf|]. split; [apply stage1_wf|].
  destruct (insertion_order_preserved heap1 (Some ctx1)) as [Hparticular _];
    [apply stage1_wf | apply stage1_wf |].
  destruct (Hparticular (replacing "b" 2 None) (replacing "c" 3 None)
              (RenderFn 2) (RenderFn 3) 6 []
              [mkWrap (RenderFn 1) (replacing "a" 1 (Some pluginP1))])
    as [Hone _];
    [reflexivity | reflexivity | reflexivity | discriminate
    | vm_compute; reflexivity | reflexivity | reflexivity |].
  exact Hone.
Defined.

Lemma plugin_kept_excluded (ps : gset BackstagePlugin) (e : Adaptation) p :
  plugin (adaptation e) = Some p → p ∈ ps → plugin_kept ps e = false.
Proof. intros Hp Hin. unfold plugin_kept. by rewrite Hp, bool_decide_eq_true_2. Qed.

Lemma plugin_kept_other (ps : gset BackstagePlugin) (e : Adaptation) p :
  plugin (adaptation e) = Some p → p ∉ ps → plugin_kept ps e = true.
Proof. intros Hp Hin. unfold plugin_kept. by rewrite Hp, bool_decide_eq_false_2. Qed.

Lemma plugin_kept_empty (e : Adaptation) : plugin_kept ∅ e = true.
Proof.
  unfold plugin_kept. destruct (plugin (adaptation e)); [|done].
  by rewrite bool_decide_eq_false_2 by apply not_elem_of_empty.
Qed.

Lemma key_kept_empty (e : Adaptation) : key_kept ∅ e = true.
Proof.
  unfold key_kept. by rewrite bool_decide_eq_false_2 by apply not_elem_of_empty.
Qed.

Lemma List_filter_all {A} (p : A → bool) l : (∀ x, p x = true) → List.filter p l = l.
Proof.
  intros Hp. induction l as [|x l IH]; simpl; [done|]. by rewrite Hp, IH.
Qed.

(** C5: the options of a provider act in the fixed order reset,
    excludeComponents, excludePlugins/exclude, adaptations.  For every
    registry and every props (a record: the order in which the caller writes
    the options cannot matter), the run succeeds and the resulting registry
    has the contents [extend_spec] computes from the parent's contents by
    those four steps in that order.  In particular, when the parent holds for
    [X] a component of plugin P1 followed by a component keyed b of another
    plugin P2, excluding P1 while declaring a new adaptation keyed b for [X]
    leaves exactly the old entry keyed b: the entry of P1 is dropped, and no
    second entry keyed b is appended. *)
Theorem options_applied_in_fixed_order h parent :
  wf h → ctx_ok h parent →
  (∀ props, ∃ R child h',
      ctx_represents h parent R ∧
      AdaptationProvider props parent h = Some (child, h') ∧
      represents h' (adaptationMap child) (extend_spec props R) ∧
      ∀ r, ∃ v, lookup (Some child) r h' =
                Some ((v, contents (extend_spec props R) (id r)), h')) ∧
  (∀ X n ea eb P1 P2 v pl,
      lookup parent X h = Some ((v, (pl, [ea; eb])), h) →
      plugin (adaptation ea) = Some P1 → plugin (adaptation eb) = Some P2 →
      P1 ≠ P2 → key (adaptation eb) = key n → id (ref n) = id X →
      ∃ child h' v' pl',
        AdaptationProvider (mkProps (Some (Many [n])) None (Some [P1]) None None) parent h
          = Some (child, h') ∧
        lookup (Some child) X h' = Some ((v', (pl', [eb])), h')).
Proof.
  intros Hwf Hctx.
  destruct (ctx_represents_exists h parent) as [R HR]; [apply Hwf | done |].
  split.
  - intros props.
    destruct (AdaptationProvider_run h parent props R Hwf HR)
      as (c & h' & Hrun & Hwf' & _ & _ & Hc & _).
    exists R, c, h'. split_and!; [done..|]. intros r.
    destruct (lookup_run h' (Some c) _ r Hwf' Hc) as (_ & Hl & _). eauto.
  - intros X n ea eb P1 P2 v pl HX Hea Heb Hne Hkey Hid.
    destruct (lookup_contents _ _ _ _ _ _ _ Hwf HR HX) as (_ & HRX & _).
    set (props := mkProps (Some (Many [n])) None (Some [P1]) None None).
    destruct (AdaptationProvider_run h parent props R Hwf HR)
      as (c & h' & Hrun & Hwf' & _ & _ & Hc & _).
    destruct (lookup_run h' (Some c) _ X Hwf' Hc) as (_ & Hl & _).
    assert (E : (contents (extend_spec props R) (id X)).2 = [eb]).
    { unfold extend_spec, props.
      cbn [reset excludeComponents excludePlugins exclude adaptations default
           excludeComponents_spec toArray foldl].
      rewrite contents_append, decide_True by done.
      rewrite contents_exclude. cbn [truthy orb default from_option Datatypes.id].
      rewrite <- HRX.
      assert (Hfilt : (exclude_entry (list_to_set [P1]) (list_to_set (key <$> []))
                         (pl, [ea; eb])).2 = [eb]).
      { unfold exclude_entry. cbn [snd List.filter].
        rewrite (plugin_kept_excluded _ ea P1)
          by (done || (apply elem_of_list_to_set, list_elem_of_singleton; done)).
        rewrite (plugin_kept_other _ eb P2)
          by (done || (rewrite elem_of_list_to_set, list_elem_of_singleton; congruence)).
        cbn [List.filter fmap list_fmap list_to_set]. by rewrite key_kept_empty. }
      unfold add_adaptation. cbn [snd]. rewrite Hfilt.
      destruct (spec_Adaptation (spec n)); [|done].
      rewrite has_key_singleton. by rewrite bool_decide_eq_true_2. }
    exists c, h', (lookup_loc h' (Some c) X), (contents (extend_spec props R) (id X)).1.
    split; [done|]. rewrite Hl, <- E.
    by destruct (contents (extend_spec props R) (id X)).
Qed.

Lemma stage2_run :
  AdaptationProvider
    (declaring (Many [replacing "a" 1 (Some pluginP1); replacing "b" 2 (Some pluginP2)]))
    None init_heap
  = Some (ctx2, heap2).
Proof. vm_compute. reflexivity. Qed.

Lemma stage2_wf : wf heap2 ∧ ctx_ok heap2 (Some ctx2).
Proof.
  destruct (wf_after _ None init_heap ctx2 heap2 wf_init I stage2_run) as (? & ? & _).
  done.
Qed.

Lemma options_applied_in_fixed_order_witness :
  wf heap2 ∧ ctx_ok heap2 (Some ctx2) ∧
  ∃ child h' v' pl',
    AdaptationProvider
      (mkProps (Some (Many [replacing "b" 3 None])) None (Some [pluginP1]) None None)
      (Some ctx2) heap2 = Some (child, h') ∧
    lookup (Some child) refX h' =
      Some ((v', (pl', [mkWrap (RenderFn 2) (replacing "b" 2 (Some pluginP2))])), h').
Proof.
  split; [apply stage2_wf|]. split; [apply stage2_wf|].
  destruct (options_applied_in_fixed_order heap2 (Some ctx2)) as [_ Hparticular];
    [apply stage2_wf | apply stage2_wf |].
  apply (Hparticular refX (replacing "b" 3 None)
           (mkWrap (RenderFn 1) (replacing "a" 1 (Some pluginP1)))
           (mkWrap (RenderFn 2) (replacing "b" 2 (Some pluginP2)))
           pluginP1 pluginP2 6 []);
    [vm_compute; reflexivity | reflexivity | reflexivity | discriminate
    | reflexivity | reflexivity].
Defined.

Lemma contents_extend_spec_interceptors props R k :
  (contents (extend_spec props R) k).1 =
  (contents (extend_spec (without_exclusion props) R) k).1.
Proof.
  unfold extend_spec, without_exclusion.
  cbn [adaptations reset excludePlugins excludeComponents exclude].
  set (R1 := excludeComponents_spec _ _).
  assert (H : ∀ k, (contents (exclude_spec (excludePlugins props) (exclude props) R1) k).1
                   = (contents (exclude_spec None None R1) k).1).
  { intros k'. rewrite !contents_exclude. cbn [truthy orb].
    by destruct (truthy _ || truthy _). }
  destruct (adaptations props); [|apply H].
  by apply contents_foldl_append_interceptors.
Qed.

(** C6: the excludePlugins/exclude step filters components only.  For every
    registry and every pair of exclusion options, a provider with just these
    options yields, for every reference, the parent's interceptors list
    unchanged and the parent's components list filtered first by plugin and
    then by key (unfiltered when neither option is given); and with any other
    options around it, the step has no effect on any interceptors list: the
    lists are those of the same provider without the two options. *)
Theorem exclusion_filters_components_only h parent :
  wf h → ctx_ok h parent →
  (∀ ep ex r, ∃ child h' v pl cl v',
      AdaptationProvider (mkProps None None ep None ex) parent h = Some (child, h') ∧
      lookup parent r h = Some ((v, (pl, cl)), h) ∧
      lookup (Some child) r h' =
        Some ((v', (pl,
                    if truthy ep || truthy ex
                    then List.filter (key_kept (list_to_set (key <$> default [] ex)))
                           (List.filter (plugin_kept (list_to_set (default [] ep))) cl)
                    else cl)), h')) ∧
  (∀ props, ∃ child h' child0 h0',
      AdaptationProvider props parent h = Some (child, h') ∧
      AdaptationProvider (without_exclusion props) parent h = Some (child0, h0') ∧
      ∀ r, ∃ v pl cl v0 cl0,
        lookup (Some child) r h' = Some ((v, (pl, cl)), h') ∧
        lookup (Some child0) r h0' = Some ((v0, (pl, cl0)), h0')).
Proof.
  intros Hwf Hctx.
  destruct (ctx_represents_exists h parent) as [R HR]; [apply Hwf | done |].
  split.
  - intros ep ex r.
    destruct (AdaptationProvider_run h parent (mkProps None None ep None ex) R Hwf HR)
      as (c & h' & Hrun & Hwf' & _ & _ & Hc & _).
    destruct (lookup_run h parent R r Hwf HR) as (_ & Hl & _).
    destruct (lookup_run h' (Some c) _ r Hwf' Hc) as (_ & Hl' & _).
    change (extend_spec (mkProps None None ep None ex) R) with (exclude_spec ep ex R) in Hl'.
    rewrite contents_exclude in Hl'.
    exists c, h', (lookup_loc h parent r), (contents R (id r)).1, (contents R (id r)).2,
      (lookup_loc h' (Some c) r).
    split_and!; [done| |].
    + rewrite Hl. by destruct (contents R (id r)).
    + rewrite Hl'. unfold exclude_entry.
      destruct (truthy ep || truthy ex); [done|]. by destruct (contents R (id r)).
  - intros props.
    destruct (AdaptationProvider_run h parent props R Hwf HR)
      as (c & h' & Hrun & Hwf' & _ & _ & Hc & _).
    destruct (AdaptationProvider_run h parent (without_exclusion props) R Hwf HR)
      as (c0 & h0' & Hrun0 & Hwf0 & _ & _ & Hc0 & _).
    exists c, h', c0, h0'. split_and!; [done..|]. intros r.
    destruct (lookup_run h' (Some c) _ r Hwf' Hc) as (_ & Hl & _).
    destruct (lookup_run h0' (Some c0) _ r Hwf0 Hc0) as (_ & Hl0 & _).
    exists (lookup_loc h' (Some c) r), (contents (extend_spec props R) (id r)).1,
      (contents (extend_spec props R) (id r)).2, (lookup_loc h0' (Some c0) r),
      (contents (extend_spec (without_exclusion props) R) (id r)).2.
    split.
    + rewrite Hl. by destruct (contents (extend_spec props R) (id r)).
    + rewrite Hl0, contents_extend_spec_interceptors.
      by destruct (contents (extend_spec (without_exclusion props) R) (id r)).
Qed.

Lemma stage3_run :
  AdaptationProvider (declaring (One (both "a" 1 (Some pluginP1)))) None init_heap
  = Some (ctx3, heap3).
Proof. vm_compute. reflexivity. Qed.

Lemma stage3_wf : wf heap3 ∧ ctx_ok heap3 (Some ctx3).
Proof.
  destruct (wf_after _ None init_heap ctx3 heap3 wf_init I stage3_run) as (? & ? & _).
  done.
Qed.

Lemma exclusion_filters_components_only_witness :
  wf heap3 ∧ ctx_ok heap3 (Some ctx3) ∧
  ∃ child h' v',
    AdaptationProvider (mkProps None None (Some [pluginP1]) None None) (Some ctx3) heap3
      = Some (child, h') ∧
    lookup (Some child) refX h' =
      Some ((v', ([mkWrap (InterceptFn 1) (both "a" 1 (Some pluginP1))], [])), h').
Proof.
  split; [apply stage3_wf|]. split; [apply stage3_wf|].
  destruct (exclusion_filters_components_only heap3 (Some ctx3)) as [Hstep _];
    [apply stage3_wf | apply stage3_wf |].
  destruct (Hstep (Some [pluginP1]) None refX)
    as (child & h' & v & pl & cl & v' & Hrun & Hparent & Hchild).
  assert (E : pl = [mkWrap (InterceptFn 1) (both "a" 1 (Some pluginP1))] ∧
              cl = [mkWrap (RenderFn 1) (both "a" 1 (Some pluginP1))]).
  { vm_compute in Hparent. split; vm_compute; congruence. }
  destruct E as [-> ->].
  exists child, h', v'. split; [exact Hrun|]. exact Hchild.
Defined.

Lemma unregistered_contents h ctx R r :
  ctx_represents h ctx R → unregistered h ctx r → entries_get (id r) R = None.
Proof.
  destruct ctx as [c|]; simpl; [|by intros ->].
  intros (es & Hm & HF). munfold. rewrite Hm. cbn. intros [= Hget].
  pose proof (represents_get h es R (id r) HF) as H. by rewrite Hget in H.
Qed.

(** C8, as stated, fails: in the registry of a provider that declared one
    adaptation for [refX], [refY] is unregistered and its lookup returns
    [noAdaptations] (address 2); under a nested provider declaring only an
    adaptation for [refY] without replacement and interceptor, the lookup of
    [refY] returns another object (address 13), the entry [ensureMapValue]
    created, whose two lists are empty. *)
Lemma hollow_adaptation_counterexample :
  fst <$> lookup (Some ctx1) refY heap1 = Some (noAdaptations, ([], [])) ∧
  fst <$> (let! c := AdaptationProvider (declaring (One hollow)) (Some ctx1) in
           lookup (Some c) refY) heap1 = Some (13, ([], [])) ∧
  13 ≠ noAdaptations.
Proof.
  split; [vm_compute; reflexivity|].
  split; [vm_compute; reflexivity | discriminate].
Qed.

(** C8, amended: an adaptation with neither a replacement nor an interceptor
    is accepted and contributes no list element.  For every registry, a
    provider declaring only such an adaptation runs without error and every
    reference looks up to the same two lists in the child as in the parent;
    every reference that was unregistered, other than the adaptation's
    target, still looks up to the shared singleton.  The target itself always
    looks up to an entry object of the child's own, never to the shared
    singleton; when it was unregistered, that entry is new and its two lists
    are empty. *)
Theorem hollow_adaptation_adds_nothing h parent a :
  wf h → ctx_ok h parent →
  spec_Adaptation (spec a) = None → spec_interceptProps (spec a) = None →
  ∃ child h',
    AdaptationProvider (declaring (One a)) parent h = Some (child, h') ∧
    (∀ r, ∃ v e v', lookup parent r h = Some ((v, e), h) ∧
                    lookup (Some child) r h' = Some ((v', e), h')) ∧
    (∀ r, unregistered h parent r → id r ≠ id (ref a) →
          lookup (Some child) r h' = Some ((noAdaptations, ([], [])), h')) ∧
    (∃ v' e, lookup (Some child) (ref a) h' = Some ((v', e), h') ∧
             v' ≠ noAdaptations ∧ next h ≤ v' ∧
             (unregistered h parent (ref a) → e = ([], []))).
Proof.
  intros Hwf Hctx Hc Hp.
  destruct (extend_summary h parent (declaring (One a)) Hwf Hctx)
    as (R & child & h' & HR & Hrun & Hwf' & _ & Hbefore & _ & Hchild & Hmiss & Hhit).
  assert (Hsame : ∀ k, contents (extend_spec (declaring (One a)) R) k = contents R k).
  { intros k. rewrite extend_spec_declaring. cbn [toArray foldl].
    rewrite contents_append. case_decide; [|done]. by apply add_adaptation_nothing. }
  exists child, h'. split_and!; [done| | |].
  - intros r. eexists _, _, _. split; [apply Hbefore|]. by rewrite Hchild, Hsame.
  - intros r Hun Hne. rewrite Hchild, Hsame, Hmiss.
    + unfold contents. by rewrite (unregistered_contents _ _ _ _ HR Hun).
    + rewrite extend_spec_declaring. cbn [toArray foldl]. unfold append_spec.
      rewrite entries_get_set, decide_False by done.
      by apply (unregistered_contents _ _ _ _ HR Hun).
  - eexists _, _. split; [apply Hchild|].
    assert (Hin : is_Some (entries_get (id (ref a)) (extend_spec (declaring (One a)) R))).
    { rewrite extend_spec_declaring. cbn [toArray foldl]. unfold append_spec.
      rewrite entries_get_set, decide_True by done. eauto. }
    pose proof (Hhit _ Hin) as Hge. pose proof (noAdaptations_below h Hwf) as Hlt.
    split_and!; [lia | done |].
    intros Hun. rewrite Hsame. unfold contents.
    by rewrite (unregistered_contents _ _ _ _ HR Hun).
Qed.

Lemma hollow_adaptation_adds_nothing_witness :
  wf heap1 ∧ ctx_ok heap1 (Some ctx1) ∧
  ∃ child h',
    AdaptationProvider (declaring (One hollow)) (Some ctx1) heap1 = Some (child, h') ∧
    ∀ r, ∃ v e v', lookup (Some ctx1) r heap1 = Some ((v, e), heap1) ∧
                   lookup (Some child) r h' = Some ((v', e), h').
Proof.
  split; [apply stage1_wf|]. split; [apply stage1_wf|].
  destruct (hollow_adaptation_adds_nothing heap1 (Some ctx1) hollow)
    as (child & h' & Hrun & Hsame & _);
    [apply stage1_wf | apply stage1_wf | reflexivity | reflexivity |].
  exists child, h'. split; [exact Hrun | exact Hsame].
Defined.

(** C9: registry entries are keyed by the reference's [id] string, not by the
    identity of the reference object.  On every store and every context, two
    reference objects with the same [id] look up to the same object with the
    same lists; and, for every registry, an adaptation declared under one
    reference object (with a replacement, its key not yet in the list) is in
    the components list looked up with any other reference object carrying
    the same [id]. *)
Theorem entries_keyed_by_id_string h parent r1 r2 :
  id r1 = id r2 →
  useComponentAdaptations parent r1 h = useComponentAdaptations parent r2 h ∧
  lookup parent r1 h = lookup parent r2 h ∧
  (∀ a x v pl cl,
      wf h → ctx_ok h parent →
      ref a = r1 → spec_Adaptation (spec a) = Some x →
      lookup parent r1 h = Some ((v, (pl, cl)), h) → has_key (key a) cl = false →
      ∃ child h' v' pl',
        AdaptationProvider (declaring (One a)) parent h = Some (child, h') ∧
        lookup (Some child) r2 h' = Some ((v', (pl', cl ++ [mkWrap x a])), h')).
Proof.
  intros Hid.
  assert (Huse : ∀ ctx h0, useComponentAdaptations ctx r1 h0 = useComponentAdaptations ctx r2 h0).
  { intros ctx h0. unfold useComponentAdaptations. by rewrite Hid. }
  split_and!; [apply Huse | unfold lookup, bind; by rewrite Huse |].
  intros a x v pl cl Hwf Hctx Hr Hx Hl Hk.
  destruct (ctx_represents_exists h parent) as [R HR]; [apply Hwf | done |].
  destruct (lookup_contents _ _ _ _ _ _ _ Hwf HR Hl) as (_ & HR1 & _).
  destruct (AdaptationProvider_run h parent (declaring (One a)) R Hwf HR)
    as (c & h' & Hrun & Hwf' & _ & _ & Hc & _).
  destruct (lookup_run h' (Some c) _ r2 Hwf' Hc) as (_ & Hl' & _).
  rewrite extend_spec_declaring in Hl'. cbn [toArray foldl] in Hl'.
  rewrite contents_append, decide_True, <- Hid, <- HR1 in Hl' by (by rewrite Hr).
  exists c, h', (lookup_loc h' (Some c) r2), (add_adaptation a (pl, cl)).1.
  split; [done|]. rewrite Hl'.
  rewrite (surjective_pairing (add_adaptation a (pl, cl))) at 1.
  rewrite (add_adaptation_components a x) by done. cbn [snd]. by rewrite Hk.
Qed.

Lemma entries_keyed_by_id_string_witness :
  id refX = id refX' ∧ refX ≠ refX' ∧
  ∃ child h' v' pl',
    AdaptationProvider (declaring (One (replacing "b" 2 None))) (Some ctx1) heap1
      = Some (child, h') ∧
    lookup (Some child) refX' h' =
      Some ((v', (pl', [mkWrap (RenderFn 1) (replacing "a" 1 (Some pluginP1));
                        mkWrap (RenderFn 2) (replacing "b" 2 None)])), h').
Proof.
  split; [reflexivity|]. split; [discriminate|].
  destruct (entries_keyed_by_id_string heap1 (Some ctx1) refX refX') as (_ & _ & Hreg);
    [reflexivity|].
  apply (Hreg (replacing "b" 2 None) (RenderFn 2) 6 []
           [mkWrap (RenderFn 1) (replacing "a" 1 (Some pluginP1))]);
    [apply stage1_wf | apply stage1_wf | reflexivity | reflexivity
    | vm_compute; reflexivity | reflexivity].
Defined.

Lemma list_to_set_singleton_key (k : string) : list_to_set (C := gset string) [k] = {[k]}.
Proof. simpl. apply (right_id_L ∅ (∪)). Qed.

(** C10: exclusion runs before the adaptations step, so a key excluded by a
    provider can be introduced again by the same provider.  For every
    registry, a provider that excludes an adaptation keyed k and declares a
    new adaptation keyed k (with a replacement) for [X] yields for [X] the
    parent's components without those keyed k, followed by the entry of the
    new adaptation: nothing keyed k is left for the deduplication to find. *)
Theorem excluded_key_can_be_redeclared h parent X old n x v pl cl :
  wf h → ctx_ok h parent →
  lookup parent X h = Some ((v, (pl, cl)), h) →
  has_key (key old) cl = true →
  key n = key old → id (ref n) = id X → spec_Adaptation (spec n) = Some x →
  ∃ child h' v' pl',
    AdaptationProvider (mkProps (Some (Many [n])) None None None (Some [old])) parent h
      = Some (child, h') ∧
    lookup (Some child) X h' =
      Some ((v', (pl', List.filter (key_kept {[key old]}) cl ++ [mkWrap x n])), h') ∧
    has_key (key old) (List.filter (key_kept {[key old]}) cl) = false.
Proof.
  intros Hwf Hctx HX _ Hkey Hid Hx.
  destruct (ctx_represents_exists h parent) as [R HR]; [apply Hwf | done |].
  destruct (lookup_contents _ _ _ _ _ _ _ Hwf HR HX) as (_ & HRX & _).
  set (props := mkProps (Some (Many [n])) None None None (Some [old])).
  destruct (AdaptationProvider_run h parent props R Hwf HR)
    as (c & h' & Hrun & Hwf' & _ & _ & Hc & _).
  destruct (lookup_run h' (Some c) _ X Hwf' Hc) as (_ & Hl & _).
  assert (Hgone : has_key (key old) (List.filter (key_kept {[key old]}) cl) = false).
  { rewrite <- (List_filter_all (λ _, true) cl) at 1 by done.
    apply has_key_filter_excluded. by apply elem_of_singleton. }
  assert (E : (contents (extend_spec props R) (id X)).2
              = List.filter (key_kept {[key old]}) cl ++ [mkWrap x n]).
  { unfold extend_spec, props.
    cbn [reset excludeComponents excludePlugins exclude adaptations default
         excludeComponents_spec toArray foldl].
    rewrite contents_append, decide_True by done.
    rewrite contents_exclude. cbn [truthy orb default from_option Datatypes.id].
    rewrite <- HRX. rewrite (add_adaptation_components n x) by done.
    unfold exclude_entry. cbn [snd fmap list_fmap].
    rewrite list_to_set_singleton_key.
    change (list_to_set []) with (∅ : gset BackstagePlugin).
    rewrite (List_filter_all (plugin_kept ∅)) by apply plugin_kept_empty.
    by rewrite Hkey, Hgone. }
  exists c, h', (lookup_loc h' (Some c) X), (contents (extend_spec props R) (id X)).1.
  split_and!; [done| |done]. rewrite Hl, <- E.
  by destruct (contents (extend_spec props R) (id X)).
Qed.

Lemma excluded_key_can_be_redeclared_witness :
  wf heap1 ∧ ctx_ok heap1 (Some ctx1) ∧
  ∃ child h' v' pl',
    AdaptationProvider
      (mkProps (Some (Many [replacing "a" 9 None])) None None None
               (Some [replacing "a" 1 (Some pluginP1)]))
      (Some ctx1) heap1 = Some (child, h') ∧
    lookup (Some child) refX h' =
      Some ((v', (pl', [mkWrap (RenderFn 9) (replacing "a" 9 None)])), h').
Proof.
  split; [apply stage1_wf|]. split; [apply stage1_wf|].
  destruct (excluded_key_can_be_redeclared heap1 (Some ctx1) refX
              (replacing "a" 1 (Some pluginP1)) (replacing "a" 9 None) (RenderFn 9)
              6 [] [mkWrap (RenderFn 1) (replacing "a" 1 (Some pluginP1))])
    as (child & h' & v' & pl' & Hrun & Hl & _);
    [apply stage1_wf | apply stage1_wf | vm_compute; reflexivity | reflexivity
    | reflexivity | reflexivity | reflexivity |].
  exists child, h', v', pl'. split; [exact Hrun|].
  rewrite Hl. vm_compute. reflexivity.
Defined.

(** * Further properties of the code *)

(** ** The contract, key by key *)

Lemma contents_excludeComponents ec R k :
  contents (excludeComponents_spec ec R) k =
  if bool_decide (k ∈ excluded_ids ec) then noEntry else contents R k.
Proof.
  unfold excludeComponents_spec, excluded_ids. destruct ec as [ec|].
  2:{ by rewrite bool_decide_eq_false_2 by apply not_elem_of_nil. }
  generalize (toArray ec). intros l. revert R.
  induction l as [|r l IH]; intros R.
  - by rewrite bool_decide_eq_false_2 by apply not_elem_of_nil.
  - cbn [foldl]. rewrite IH, contents_delete, fmap_cons.
    destruct (decide (id r = k)) as [<-|Hne]; [|clear IH].
    + rewrite (bool_decide_eq_true_2 (id r ∈ id r :: _)) by (apply elem_of_cons; by left).
      rewrite decide_True by done. by case_bool_decide.
    + rewrite decide_False by done.
      rewrite (bool_decide_ext (k ∈ id r :: (id <$> l)) (k ∈ id <$> l)); [done|].
      rewrite elem_of_cons. split; [intros [?|?]; [congruence | done] | auto].
Qed.

Lemma contents_foldl_append l : ∀ R k,
  contents (foldl append_spec R l) k = foldl (add_for k) (contents R k) l.
Proof.
  induction l as [|a l IH]; intros R k; [done|]. cbn [foldl].
  by rewrite IH, contents_append.
Qed.

Lemma contents_extend_spec props R k :
  contents (extend_spec props R) k = entry_spec props k (contents R k).
Proof.
  unfold extend_spec, entry_spec, declared.
  assert (E : contents (exclude_spec (excludePlugins props) (exclude props)
                 (excludeComponents_spec (excludeComponents props)
                    (if default false (reset props) then [] else R))) k
              = (let e0 := if default false (reset props) then noEntry else contents R k in
                 let e1 := if bool_decide (k ∈ excluded_ids (excludeComponents props))
                           then noEntry else e0 in
                 if truthy (excludePlugins props) || truthy (exclude props)
                 then exclude_entry (list_to_set (default [] (excludePlugins props)))
                        (list_to_set (key <$> default [] (exclude props))) e1
                 else e1)).
  { rewrite contents_exclude, contents_excludeComponents.
    by destruct (default false (reset props)). }
  cbv zeta in *. destruct (adaptations props) as [a|].
  - rewrite contents_foldl_append. f_equal. exact E.
  - exact E.
Qed.

Lemma lists_of_run h ctx R r :
  wf h → ctx_represents h ctx R → lists_of ctx r h = Some (contents R (id r)).
Proof.
  intros Hwf HR. unfold lists_of.
  destruct (lookup_run h ctx R r Hwf HR) as (_ & -> & _). done.
Qed.

(** A provider's run, in terms of the lists a consumer reads. *)
Lemma extend_lists h parent props R :
  wf h → ctx_represents h parent R →
  ∃ child h',
    AdaptationProvider props parent h = Some (child, h') ∧
    wf h' ∧ ctx_ok h' (Some child) ∧ frame h h' ∧
    (∀ r, lists_of parent r h = Some (contents R (id r))) ∧
    (∀ r, lists_of (Some child) r h' = Some (entry_spec props (id r) (contents R (id r)))) ∧
    ctx_represents h' (Some child) (extend_spec props R).
Proof.
  intros Hwf HR.
  destruct (AdaptationProvider_run h parent props R Hwf HR)
    as (child & h' & Hrun & Hwf' & Hfr & _ & Hc & _).
  exists child, h'. split_and!; [done|done| |done| | |done].
  - destruct Hc as (es & ? & _). by exists es.
  - intros r. by apply lists_of_run.
  - intros r. rewrite <- contents_extend_spec. by apply lists_of_run.
Qed.

(** ** Which keys have an entry after each step *)

Lemma entries_get_excludeComponents_None ec R k :
  entries_get k (excludeComponents_spec ec R) = None ↔
  k ∈ excluded_ids ec ∨ entries_get k R = None.
Proof.
  unfold excludeComponents_spec, excluded_ids. destruct ec as [ec|].
  2:{ split; [auto | intros [[]%elem_of_nil | ?]; done]. }
  generalize (toArray ec). intros l. revert R.
  induction l as [|r l IH]; intros R.
  - split; [auto | intros [[]%elem_of_nil | ?]; done].
  - cbn [foldl]. rewrite IH, entries_get_delete, fmap_cons, elem_of_cons.
    case_decide as Hd.
    + subst k. split; [intros _; by left; left | intros _; by right].
    + split; [tauto | intros [[?|?]|?]; [congruence | auto..]].
Qed.

Lemma entries_get_exclude_None ep ex R k :
  entries_get k (exclude_spec ep ex R) = None ↔ entries_get k R = None.
Proof.
  unfold exclude_spec. destruct (truthy ep || truthy ex); [|done].
  rewrite entries_get_fmap. by destruct (entries_get k R).
Qed.

Lemma entries_get_foldl_append_None l : ∀ R k,
  entries_get k (foldl append_spec R l) = None ↔
  entries_get k R = None ∧ ∀ a, a ∈ l → id (ref a) ≠ k.
Proof.
  induction l as [|a l IH]; intros R k.
  - split; [intros ?; split; [done | by intros ? ?%elem_of_nil] | by intros [? _]].
  - cbn [foldl]. rewrite IH. unfold append_spec at 1. rewrite entries_get_set.
    case_decide as E.
    + split; [by intros [? _] | intros [_ H]].
      exfalso. apply (H a); [apply elem_of_cons; by left | done].
    + split.
      * intros [? H]. split; [done|]. intros b [->|?]%elem_of_cons; auto.
      * intros [? H]. split; [done|]. intros b ?. apply H, elem_of_cons. by right.
Qed.

(** A key has no entry in the child exactly when no declared adaptation
    targets it and the parent's entry, if any, was reset or excluded. *)
Lemma entries_get_extend_spec_None props R k :
  entries_get k (extend_spec props R) = None ↔
  (default false (reset props) = true ∨ k ∈ excluded_ids (excludeComponents props) ∨
   entries_get k R = None) ∧
  ∀ a, a ∈ declared props → id (ref a) ≠ k.
Proof.
  unfold extend_spec, declared.
  assert (E : entries_get k
                (exclude_spec (excludePlugins props) (exclude props)
                   (excludeComponents_spec (excludeComponents props)
                      (if default false (reset props) then [] else R))) = None ↔
              default false (reset props) = true ∨
              k ∈ excluded_ids (excludeComponents props) ∨ entries_get k R = None).
  { rewrite entries_get_exclude_None, entries_get_excludeComponents_None.
    destruct (default false (reset props)); simpl; [tauto|].
    split; [tauto | intros [?|?]; [done | tauto]]. }
  cbv zeta. destruct (adaptations props) as [a|].
  - rewrite entries_get_foldl_append_None. by rewrite E.
  - rewrite E. split; [intros ?; split; [done | by intros ? ?%elem_of_nil] | by intros [? _]].
Qed.

(** ** Facts about single entries *)

Lemma has_key_false {T} k (l : list (WrapAdaptation T)) :
  has_key k l = false ↔ k ∉ keys_of l.
Proof.
  unfold has_key, keys_of. induction l as [|e l IH]; simpl.
  - split; [intros _; apply not_elem_of_nil | done].
  - rewrite orb_false_iff, IH, not_elem_of_cons, bool_decide_eq_false.
    split; intros [? ?]; (split; [congruence | done]).
Qed.

Lemma has_key_true {T} k (l : list (WrapAdaptation T)) :
  has_key k l = true ↔ k ∈ keys_of l.
Proof.
  destruct (has_key k l) eqn:E.
  - split; [intros _|done]. destruct (decide (k ∈ keys_of l)); [done|].
    apply has_key_false in n. congruence.
  - apply has_key_false in E. split; [done | intros ?; done].
Qed.

Lemma keys_unique_filter (p : Adaptation → bool) l :
  keys_unique l → keys_unique (List.filter p l).
Proof.
  unfold keys_unique, keys_of. intros H.
  eapply sublist_NoDup; [exact H|]. apply fmap_sublist, List_filter_sublist.
Qed.

Lemma keys_unique_snoc {T} (l : list (WrapAdaptation T)) e :
  keys_unique l → has_key (key (adaptation e)) l = false → keys_unique (l ++ [e]).
Proof.
  unfold keys_unique, keys_of. intros H Hk%has_key_false.
  rewrite fmap_app. apply NoDup_app. split_and!; [done| |apply NoDup_singleton].
  intros k Hin ->%list_elem_of_singleton. done.
Qed.

Lemma keys_unique_add a e :
  keys_unique e.1 → keys_unique e.2 →
  keys_unique (add_adaptation a e).1 ∧ keys_unique (add_adaptation a e).2.
Proof.
  intros H1 H2. unfold add_adaptation. cbn [fst snd]. split.
  - destruct (spec_interceptProps (spec a)); [|done].
    destruct (has_key (key a) e.1) eqn:E; [done|]. by apply keys_unique_snoc.
  - destruct (spec_Adaptation (spec a)); [|done].
    destruct (has_key (key a) e.2) eqn:E; [done|]. by apply keys_unique_snoc.
Qed.

Lemma keys_unique_entry_spec props k e :
  keys_unique e.1 → keys_unique e.2 →
  keys_unique (entry_spec props k e).1 ∧ keys_unique (entry_spec props k e).2.
Proof.
  intros H1 H2. unfold entry_spec. cbv zeta.
  set (e2 := if truthy _ || truthy _ then _ else _).
  assert (He2 : keys_unique e2.1 ∧ keys_unique e2.2).
  { subst e2.
    assert (Hno : keys_unique (noEntry.1) ∧ keys_unique (noEntry.2))
      by (split; apply NoDup_nil_2).
    assert (He1 : ∀ e1, keys_unique e1.1 ∧ keys_unique e1.2 →
              keys_unique (if truthy (excludePlugins props) || truthy (exclude props)
                           then exclude_entry
                                  (list_to_set (default [] (excludePlugins props)))
                                  (list_to_set (key <$> default [] (exclude props))) e1
                           else e1).1 ∧
              keys_unique (if truthy (excludePlugins props) || truthy (exclude props)
                           then exclude_entry
                                  (list_to_set (default [] (excludePlugins props)))
                                  (list_to_set (key <$> default [] (exclude props))) e1
                           else e1).2).
    { intros e1 [? ?]. destruct (truthy _ || truthy _); [|done].
      unfold exclude_entry. cbn [fst snd]. split; [done|].
      by do 2 apply keys_unique_filter. }
    apply He1. case_bool_decide; [exact Hno|].
    destruct (default false (reset props)); [exact Hno | done]. }
  clearbody e2. revert e2 He2.
  induction (declared props) as [|a l IH]; intros e2 [? ?]; [done|].
  cbn [foldl]. apply IH. unfold add_for. case_decide; [|done].
  by apply keys_unique_add.
Qed.

Lemma covered_fixed a e : covered a e → add_adaptation a e = e.
Proof.
  intros [Hp Hc]. unfold add_adaptation.
  assert (E1 : match spec_interceptProps (spec a) with
               | Some f => if has_key (key a) e.1 then e.1 else e.1 ++ [mkWrap f a]
               | None => e.1
               end = e.1).
  { destruct Hp as [-> | ->]; [done|]. by destruct (spec_interceptProps (spec a)). }
  assert (E2 : match spec_Adaptation (spec a) with
               | Some c => if has_key (key a) e.2 then e.2 else e.2 ++ [mkWrap c a]
               | None => e.2
               end = e.2).
  { destruct Hc as [-> | ->]; [done|]. by destruct (spec_Adaptation (spec a)). }
  rewrite E1, E2. by destruct e.
Qed.

Lemma covered_add a e : covered a (add_adaptation a e).
Proof.
  unfold covered, add_adaptation. cbn [fst snd]. split.
  - destruct (spec_interceptProps (spec a)) as [f|]; [right|by left].
    destruct (has_key (key a) e.1) eqn:E; [done|].
    rewrite has_key_app, has_key_singleton. cbn [adaptation].
    by rewrite bool_decide_eq_true_2, orb_true_r.
  - destruct (spec_Adaptation (spec a)) as [x|]; [right|by left].
    destruct (has_key (key a) e.2) eqn:E; [done|].
    rewrite has_key_app, has_key_singleton. cbn [adaptation].
    by rewrite bool_decide_eq_true_2, orb_true_r.
Qed.

Lemma covered_mono a b e : covered a e → covered a (add_adaptation b e).
Proof.
  intros [Hp Hc]. unfold covered, add_adaptation. cbn [fst snd]. split.
  - destruct Hp as [?|Hp]; [by left|right].
    destruct (spec_interceptProps (spec b)); [|done].
    destruct (has_key (key b) e.1); [done|]. by rewrite has_key_app, Hp.
  - destruct Hc as [?|Hc]; [by left|right].
    destruct (spec_Adaptation (spec b)); [|done].
    destruct (has_key (key b) e.2); [done|]. by rewrite has_key_app, Hc.
Qed.

Lemma covered_foldl k a l : ∀ e, covered a e → covered a (foldl (add_for k) e l).
Proof.
  induction l as [|b l IH]; intros e He; [done|]. cbn [foldl]. apply IH.
  unfold add_for. case_decide; [by apply covered_mono | done].
Qed.

Lemma covered_after_foldl k a l : ∀ e,
  a ∈ l → id (ref a) = k → covered a (foldl (add_for k) e l).
Proof.
  induction l as [|b l IH]; intros e Hin Hk; [by apply elem_of_nil in Hin|].
  cbn [foldl]. apply elem_of_cons in Hin as [<-|Hin]; [|by apply IH].
  apply covered_foldl. unfold add_for. rewrite decide_True by done. apply covered_add.
Qed.

Lemma foldl_add_for_covered k l : ∀ e,
  (∀ a, a ∈ l → id (ref a) = k → covered a e) → foldl (add_for k) e l = e.
Proof.
  induction l as [|b l IH]; intros e H; [done|]. cbn [foldl].
  assert (E : add_for k e b = e).
  { unfold add_for. case_decide; [|done]. apply covered_fixed, H; [|done].
    apply elem_of_cons. by left. }
  rewrite E. apply IH. intros a Ha. apply H, elem_of_cons. by right.
Qed.

Lemma unregistered_iff h ctx R r :
  ctx_represents h ctx R → unregistered h ctx r ↔ entries_get (id r) R = None.
Proof.
  intros HR. split; [by apply unregistered_contents|].
  destruct ctx as [c|]; [|done]. destruct HR as (es & Hm & HF). simpl.
  intros HN. munfold. rewrite Hm. cbn.
  pose proof (represents_get h es R (id r) HF) as H.
  destruct (entries_get (id r) es); [|done].
  destruct H as (e & He & _). congruence.
Qed.

(** ** Properties of the exclusion of components (lines 315 to 323) *)

(** X1: [excludeComponents] removes the whole entry of every reference it
    names, props interceptors included: unless the same provider declares an
    adaptation for that id, the lookup is back at the shared singleton; and
    the lists of every reference it does not name are what they are without
    the option. *)
Theorem excludeComponents_removes_entries h parent props :
  wf h → ctx_ok h parent →
  ∃ child h' child0 h0,
    AdaptationProvider props parent h = Some (child, h') ∧
    AdaptationProvider (without_excludeComponents props) parent h = Some (child0, h0) ∧
    (∀ r, id r ∈ excluded_ids (excludeComponents props) →
          (∀ a, a ∈ declared props → id (ref a) ≠ id r) →
          lookup (Some child) r h' = Some ((noAdaptations, ([], [])), h')) ∧
    (∀ r, id r ∉ excluded_ids (excludeComponents props) →
          lists_of (Some child) r h' = lists_of (Some child0) r h0).
Proof.
  intros Hwf Hctx.
  destruct (ctx_represents_exists h parent) as [R HR]; [apply Hwf | done |].
  destruct (extend_summary h parent props Hwf Hctx)
    as (R' & child & h' & HR' & Hrun & Hwf' & _ & _ & _ & Hchild & Hmiss & _).
  destruct (extend_lists h parent props R Hwf HR)
    as (child1 & h1 & Hrun1 & _ & _ & _ & _ & Hl & _).
  rewrite Hrun in Hrun1. injection Hrun1 as <- <-.
  destruct (extend_lists h parent (without_excludeComponents props) R Hwf HR)
    as (child0 & h0 & Hrun0 & _ & _ & _ & _ & Hl0 & _).
  exists child, h', child0, h0. split_and!; [done..| |].
  - intros r Hin Hno.
    assert (HN : entries_get (id r) (extend_spec props R') = None).
    { apply entries_get_extend_spec_None. auto. }
    rewrite Hchild, (Hmiss r HN). unfold contents. by rewrite HN.
  - intros r Hnot. rewrite Hl, Hl0. f_equal. unfold entry_spec, without_excludeComponents.
    cbn [reset excludeComponents excludePlugins exclude adaptations excluded_ids declared].
    rewrite !bool_decide_eq_false_2; [done | apply not_elem_of_nil | done].
Qed.

Lemma excludeComponents_removes_entries_witness :
  wf heap3 ∧ ctx_ok heap3 (Some ctx3) ∧
  lists_of (Some ctx3) refX heap3 =
    Some ([mkWrap (InterceptFn 1) (both "a" 1 (Some pluginP1))],
          [mkWrap (RenderFn 1) (both "a" 1 (Some pluginP1))]) ∧
  ∃ child h',
    AdaptationProvider (mkProps None None None (Some (One refX')) None) (Some ctx3) heap3
      = Some (child, h') ∧
    lookup (Some child) refX h' = Some ((noAdaptations, ([], [])), h').
Proof.
  split; [apply stage3_wf|]. split; [apply stage3_wf|].
  split; [vm_compute; reflexivity|].
  destruct (excludeComponents_removes_entries heap3 (Some ctx3)
              (mkProps None None None (Some (One refX')) None))
    as (child & h' & _ & _ & Hrun & _ & Hgone & _);
    [apply stage3_wf | apply stage3_wf |].
  exists child, h'. split; [exact Hrun|].
  apply Hgone.
  - apply list_elem_of_singleton. reflexivity.
  - intros a Ha. apply elem_of_nil in Ha. destruct Ha.
Defined.

(** X2: for a reference named by [excludeComponents] nothing is inherited:
    its two lists in the child are those the same props produce at the root
    of the tree, whatever the parent holds. *)
Theorem excluded_reference_starts_empty h parent props r :
  wf h → ctx_ok h parent →
  id r ∈ excluded_ids (excludeComponents props) →
  ∃ child h' root h0,
    AdaptationProvider props parent h = Some (child, h') ∧
    AdaptationProvider props None h = Some (root, h0) ∧
    lists_of (Some child) r h' = lists_of (Some root) r h0.
Proof.
  intros Hwf Hctx Hin.
  destruct (ctx_represents_exists h parent) as [R HR]; [apply Hwf | done |].
  destruct (extend_lists h parent props R Hwf HR)
    as (child & h' & Hrun & _ & _ & _ & _ & Hl & _).
  destruct (extend_lists h None props [] Hwf eq_refl)
    as (root & h0 & Hrun0 & _ & _ & _ & _ & Hl0 & _).
  exists child, h', root, h0. split_and!; [done..|].
  rewrite Hl, Hl0. f_equal. unfold entry_spec. cbv zeta.
  by rewrite !bool_decide_eq_true_2 by done.
Qed.

Lemma excluded_reference_starts_empty_witness :
  wf heap1 ∧ ctx_ok heap1 (Some ctx1) ∧
  ∃ child h',
    AdaptationProvider
      (mkProps (Some (One (replacing "b" 2 None))) None None (Some (Many [refX])) None)
      (Some ctx1) heap1 = Some (child, h') ∧
    lists_of (Some child) refX h' = Some ([], [mkWrap (RenderFn 2) (replacing "b" 2 None)]).
Proof.
  split; [apply stage1_wf|]. split; [apply stage1_wf|].
  destruct (excluded_reference_starts_empty heap1 (Some ctx1)
              (mkProps (Some (One (replacing "b" 2 None))) None None (Some (Many [refX])) None)
              refX)
    as (child & h' & root & h0 & Hrun & Hroot & Hl);
    [apply stage1_wf | apply stage1_wf | apply list_elem_of_singleton; reflexivity |].
  exists child, h'. split; [exact Hrun|]. rewrite Hl.
  assert (E : Some (root, h0) = AdaptationProvider
                (mkProps (Some (One (replacing "b" 2 None))) None None (Some (Many [refX])) None)
                None heap1) by (symmetry; exact Hroot).
  vm_compute in E. injection E as -> ->. vm_compute. reflexivity.
Defined.

(** ** Which references a provider registers *)

(** X3: a reference is unregistered in the child exactly when no adaptation
    the provider declares targets its id (with or without replacement or
    interceptor) and the parent's entry, if there was one, was reset or
    excluded as a component; and on the child the lookup returns the shared
    singleton exactly for the unregistered references: every registered one
    gets an object created by this provider. *)
Theorem child_registration h parent props :
  wf h → ctx_ok h parent →
  ∃ child h',
    AdaptationProvider props parent h = Some (child, h') ∧
    ∀ r,
      (unregistered h' (Some child) r ↔
         (default false (reset props) = true ∨
          id r ∈ excluded_ids (excludeComponents props) ∨
          unregistered h parent r) ∧
         ∀ a, a ∈ declared props → id (ref a) ≠ id r) ∧
      (useComponentAdaptations (Some child) r h' = Some (noAdaptations, h') ↔
         unregistered h' (Some child) r) ∧
      (¬ unregistered h' (Some child) r →
         ∃ v, useComponentAdaptations (Some child) r h' = Some (v, h') ∧ next h ≤ v).
Proof.
  intros Hwf Hctx.
  destruct (ctx_represents_exists h parent) as [R HR]; [apply Hwf | done |].
  destruct (AdaptationProvider_run h parent props R Hwf HR)
    as (child & h' & Hrun & Hwf' & _ & _ & Hc & Hfrom).
  exists child, h'. split; [done|]. intros r.
  assert (Hun : unregistered h' (Some child) r ↔
                entries_get (id r) (extend_spec props R) = None)
    by by apply unregistered_iff.
  destruct (lookup_run h' (Some child) _ r Hwf' Hc) as (Huse & _ & _ & Hmiss).
  assert (Hhit : ¬ unregistered h' (Some child) r →
                 next h ≤ lookup_loc h' (Some child) r).
  { intros Hn. destruct child as [m]. eapply lookup_hit_from; eauto.
    destruct (entries_get (id r) (extend_spec props R)) eqn:E; [eauto|].
    exfalso. by apply Hn, Hun. }
  split_and!.
  - rewrite Hun, entries_get_extend_spec_None, (unregistered_iff h parent R r HR). done.
  - rewrite Huse. split.
    + intros E0.
      assert (E : lookup_loc h' (Some child) r = noAdaptations) by congruence.
      apply Hun.
      destruct (entries_get (id r) (extend_spec props R)) eqn:E'; [|done].
      assert (Hn : ¬ unregistered h' (Some child) r) by (rewrite Hun; congruence).
      pose proof (Hhit Hn) as Hge. rewrite E in Hge.
      pose proof (noAdaptations_below h Hwf). lia.
    + intros H. by rewrite Hmiss by by apply Hun.
  - intros Hn. eexists. split; [exact Huse | by apply Hhit].
Qed.

Lemma child_registration_witness :
  wf heap1 ∧ ctx_ok heap1 (Some ctx1) ∧ unregistered heap1 (Some ctx1) refY ∧
  ∃ child h',
    AdaptationProvider (declaring (One hollow)) (Some ctx1) heap1 = Some (child, h') ∧
    ¬ unregistered h' (Some child) refY ∧
    ∃ v, useComponentAdaptations (Some child) refY h' = Some (v, h') ∧ next heap1 ≤ v.
Proof.
  split; [apply stage1_wf|]. split; [apply stage1_wf|].
  split; [vm_compute; reflexivity|].
  destruct (child_registration heap1 (Some ctx1) (declaring (One hollow)))
    as (child & h' & Hrun & Hreg); [apply stage1_wf | apply stage1_wf |].
  destruct (Hreg refY) as (Hiff & _ & Hhit).
  assert (Hn : ¬ unregistered h' (Some child) refY).
  { intros Hun. apply Hiff in Hun as [_ Hno].
    apply (Hno hollow); [apply list_elem_of_singleton; reflexivity | reflexivity]. }
  exists child, h'. split; [exact Hrun|]. split; [exact Hn | exact (Hhit Hn)].
Defined.

(** ** The invariant of the lists *)

Lemma registry_unique_root h : wf h → registry_unique h None.
Proof.
  intros Hwf r e. rewrite (lists_of_run h None [] r Hwf eq_refl).
  intros [= <-]. split; apply NoDup_nil_2.
Qed.

(** X4: within each list no two elements belong to adaptations with the same
    key, and providers keep it so: if every list of a registry has unique
    keys, then so has every list of the registry under any nesting of
    providers, whatever their props.  At the root it holds. *)
Theorem keys_stay_unique ps : ∀ h ctx,
  wf h → ctx_ok h ctx → registry_unique h ctx →
  ∃ ctx' h', nest ps ctx h = Some (ctx', h') ∧ wf h' ∧ ctx_ok h' ctx' ∧
             registry_unique h' ctx'.
Proof.
  induction ps as [|props ps IH]; intros h ctx Hwf Hctx Huniq.
  - by exists ctx, h.
  - destruct (ctx_represents_exists h ctx) as [R HR]; [apply Hwf | done |].
    destruct (extend_lists h ctx props R Hwf HR)
      as (child & h1 & Hrun & Hwf1 & Hctx1 & _ & Hp & Hc & _).
    destruct (IH h1 (Some child)) as (ctx' & h' & Hnest & ?); [done..| |].
    + intros r e. rewrite Hc. intros [= <-].
      destruct (Huniq r _ (Hp r)). by apply keys_unique_entry_spec.
    + exists ctx', h'. split; [|done]. cbn [nest]. by rewrite (bind_run _ _ _ _ _ Hrun).
Qed.

Lemma keys_stay_unique_witness :
  wf init_heap ∧ ctx_ok init_heap None ∧ registry_unique init_heap None ∧
  ∃ ctx' h',
    nest [declaring (Many [both "a" 1 None; both "a" 2 None; replacing "b" 3 None]);
          mkProps (Some (One (both "b" 4 None))) None None None (Some [both "a" 1 None])]
         None init_heap = Some (ctx', h') ∧
    registry_unique h' ctx'.
Proof.
  split; [apply wf_init|]. split; [exact I|].
  split; [apply registry_unique_root, wf_init|].
  destruct (keys_stay_unique
              [declaring (Many [both "a" 1 None; both "a" 2 None; replacing "b" 3 None]);
               mkProps (Some (One (both "b" 4 None))) None None None (Some [both "a" 1 None])]
              init_heap None)
    as (ctx' & h' & Hnest & _ & _ & Huniq);
    [apply wf_init | exact I | apply registry_unique_root, wf_init |].
  exists ctx', h'. split; [exact Hnest | exact Huniq].
Defined.

(** ** Declaring again *)

(** X5: declaring again, in a nested provider, adaptations the enclosing
    provider already declared changes no list: every reference reads the same
    two lists under the inner provider as under the outer one. *)
Theorem redeclaring_changes_nothing h parent l1 l2 :
  wf h → ctx_ok h parent →
  (∀ a, a ∈ toArray l2 → a ∈ toArray l1) →
  ∃ c1 h1 c2 h2,
    AdaptationProvider (declaring l1) parent h = Some (c1, h1) ∧
    AdaptationProvider (declaring l2) (Some c1) h1 = Some (c2, h2) ∧
    ∀ r, lists_of (Some c2) r h2 = lists_of (Some c1) r h1.
Proof.
  intros Hwf Hctx Hsub.
  destruct (ctx_represents_exists h parent) as [R HR]; [apply Hwf | done |].
  destruct (extend_lists h parent (declaring l1) R Hwf HR)
    as (c1 & h1 & Hrun1 & Hwf1 & _ & _ & _ & Hl1 & HR1).
  destruct (extend_lists h1 (Some c1) (declaring l2) _ Hwf1 HR1)
    as (c2 & h2 & Hrun2 & _ & _ & _ & Hl1' & Hl2 & _).
  exists c1, h1, c2, h2. split_and!; [done..|]. intros r.
  rewrite Hl2, Hl1'. f_equal.
  change (entry_spec (declaring l2) (id r) (contents (extend_spec (declaring l1) R) (id r)))
    with (foldl (add_for (id r)) (contents (extend_spec (declaring l1) R) (id r)) (toArray l2)).
  apply foldl_add_for_covered. intros a Ha Hk.
  rewrite contents_extend_spec.
  change (entry_spec (declaring l1) (id r) (contents R (id r)))
    with (foldl (add_for (id r)) (contents R (id r)) (toArray l1)).
  apply covered_after_foldl; auto.
Qed.

Lemma redeclaring_changes_nothing_witness :
  (∀ a, a ∈ toArray (One (both "b" 2 None)) →
        a ∈ toArray (Many [both "a" 1 None; both "b" 2 None])) ∧
  ∃ c1 h1 c2 h2,
    AdaptationProvider (declaring (Many [both "a" 1 None; both "b" 2 None])) (Some ctx1) heap1
      = Some (c1, h1) ∧
    AdaptationProvider (declaring (One (both "b" 2 None))) (Some c1) h1 = Some (c2, h2) ∧
    ∀ r, lists_of (Some c2) r h2 = lists_of (Some c1) r h1.
Proof.
  assert (Hsub : ∀ a, a ∈ toArray (One (both "b" 2 None)) →
                      a ∈ toArray (Many [both "a" 1 None; both "b" 2 None])).
  { intros a Ha. apply list_elem_of_singleton in Ha. subst a.
    apply elem_of_cons. right. apply elem_of_cons. left. reflexivity. }
  split; [exact Hsub|].
  apply (redeclaring_changes_nothing heap1 (Some ctx1));
    [apply stage1_wf | apply stage1_wf | exact Hsub].
Defined.

(** ** Exclusion by plugin and key (lines 325 to 337) *)

Lemma List_filter_Forall {A} (p : A → bool) l :
  Forall (λ x, p x = true) l → List.filter p l = l.
Proof.
  induction 1 as [|x l Hx _ IH]; simpl; [done|]. by rewrite Hx, IH.
Qed.

(** X6: [exclude] takes the component of an adaptation out and leaves its
    props interceptor in.  So when a provider excludes an adaptation keyed k
    whose interceptor the parent holds, and declares a new adaptation keyed k
    carrying both a replacement and an interceptor, the new replacement is
    registered but the new interceptor is not: the interceptors list is the
    parent's, unchanged. *)
Theorem exclude_keeps_interceptor h parent X old n x f pl cl :
  wf h → ctx_ok h parent →
  lists_of parent X h = Some (pl, cl) →
  has_key (key old) pl = true →
  key n = key old → id (ref n) = id X →
  spec_Adaptation (spec n) = Some x → spec_interceptProps (spec n) = Some f →
  ∃ child h',
    AdaptationProvider (mkProps (Some (Many [n])) None None None (Some [old])) parent h
      = Some (child, h') ∧
    lists_of (Some child) X h' =
      Some (pl, List.filter (key_kept {[key old]}) cl ++ [mkWrap x n]).
Proof.
  intros Hwf Hctx HX Hpl Hkey Hid Hx Hf.
  destruct (ctx_represents_exists h parent) as [R HR]; [apply Hwf | done |].
  set (props := mkProps (Some (Many [n])) None None None (Some [old])).
  destruct (extend_lists h parent props R Hwf HR)
    as (child & h' & Hrun & _ & _ & _ & Hp & Hc & _).
  rewrite Hp in HX. injection HX as HX.
  exists child, h'. split; [done|]. rewrite Hc, HX. f_equal.
  unfold entry_spec, props.
  cbn [reset excludeComponents excludePlugins exclude adaptations excluded_ids declared
       default from_option Datatypes.id truthy orb toArray foldl].
  rewrite bool_decide_eq_false_2 by apply not_elem_of_nil.
  unfold add_for. rewrite decide_True by done.
  unfold exclude_entry, add_adaptation. cbn [fst snd fmap list_fmap].
  rewrite Hx, Hf, Hkey, Hpl, list_to_set_singleton_key.
  change (list_to_set []) with (∅ : gset BackstagePlugin).
  rewrite (List_filter_all (plugin_kept ∅)) by apply plugin_kept_empty.
  assert (Hgone : has_key (key old) (List.filter (key_kept {[key old]}) cl) = false).
  { rewrite <- (List_filter_all (λ _, true) cl) at 1 by done.
    apply has_key_filter_excluded. by apply elem_of_singleton. }
  by rewrite Hgone.
Qed.

Lemma exclude_keeps_interceptor_witness :
  wf heap3 ∧ ctx_ok heap3 (Some ctx3) ∧
  ∃ child h',
    AdaptationProvider
      (mkProps (Some (Many [both "a" 9 None])) None None None
               (Some [both "a" 1 (Some pluginP1)]))
      (Some ctx3) heap3 = Some (child, h') ∧
    lists_of (Some child) refX h' =
      Some ([mkWrap (InterceptFn 1) (both "a" 1 (Some pluginP1))],
            [mkWrap (RenderFn 9) (both "a" 9 None)]).
Proof.
  split; [apply stage3_wf|]. split; [apply stage3_wf|].
  destruct (exclude_keeps_interceptor heap3 (Some ctx3) refX
              (both "a" 1 (Some pluginP1)) (both "a" 9 None) (RenderFn 9) (InterceptFn 9)
              [mkWrap (InterceptFn 1) (both "a" 1 (Some pluginP1))]
              [mkWrap (RenderFn 1) (both "a" 1 (Some pluginP1))])
    as (child & h' & Hrun & Hl);
    [apply stage3_wf | apply stage3_wf | vm_compute; reflexivity | reflexivity
    | reflexivity | reflexivity | reflexivity | reflexivity |].
  exists child, h'. split; [exact Hrun|]. rewrite Hl. vm_compute. reflexivity.
Defined.

(** X7: exclusion options that match nothing are no-ops.  For a reference
    that [excludeComponents] does not name and whose components in the parent
    belong neither to an excluded plugin nor to an excluded key, the two lists
    in the child are what they are without any exclusion option; this covers
    empty arrays, which run the steps over an empty set. *)
Theorem unmatched_exclusions_are_noops h parent props r pl cl :
  wf h → ctx_ok h parent →
  lists_of parent r h = Some (pl, cl) →
  id r ∉ excluded_ids (excludeComponents props) →
  Forall (λ e, plugin_kept (list_to_set (default [] (excludePlugins props))) e = true ∧
               key_kept (list_to_set (key <$> default [] (exclude props))) e = true) cl →
  ∃ child h' child0 h0,
    AdaptationProvider props parent h = Some (child, h') ∧
    AdaptationProvider (without_exclusions props) parent h = Some (child0, h0) ∧
    lists_of (Some child) r h' = lists_of (Some child0) r h0.
Proof.
  intros Hwf Hctx Hr Hnot Hall.
  destruct (ctx_represents_exists h parent) as [R HR]; [apply Hwf | done |].
  destruct (extend_lists h parent props R Hwf HR)
    as (child & h' & Hrun & _ & _ & _ & Hp & Hc & _).
  destruct (extend_lists h parent (without_exclusions props) R Hwf HR)
    as (child0 & h0 & Hrun0 & _ & _ & _ & _ & Hc0 & _).
  rewrite Hp in Hr. injection Hr as Hr.
  exists child, h', child0, h0. split_and!; [done..|].
  rewrite Hc, Hc0, Hr. f_equal. unfold entry_spec, without_exclusions.
  cbn [reset excludeComponents excludePlugins exclude adaptations excluded_ids declared
       truthy orb].
  rewrite !bool_decide_eq_false_2; [|apply not_elem_of_nil|done].
  f_equal. destruct (default false (reset props)).
  - unfold exclude_entry. by destruct (truthy _ || truthy _).
  - destruct (truthy _ || truthy _); [|done]. unfold exclude_entry. cbn [fst snd].
    f_equal. rewrite (List_filter_Forall (plugin_kept _) cl).
    + apply List_filter_Forall. eapply Forall_impl; [exact Hall|]. by intros e [_ ?].
    + eapply Forall_impl; [exact Hall|]. by intros e [? _].
Qed.

Lemma unmatched_exclusions_are_noops_witness :
  wf heap2 ∧ ctx_ok heap2 (Some ctx2) ∧
  ∃ child h',
    AdaptationProvider
      (mkProps None None (Some [Plugin 7]) (Some (One refY)) (Some [replacing "zz" 0 None]))
      (Some ctx2) heap2 = Some (child, h') ∧
    lists_of (Some child) refX h' =
      Some ([], [mkWrap (RenderFn 1) (replacing "a" 1 (Some pluginP1));
                 mkWrap (RenderFn 2) (replacing "b" 2 (Some pluginP2))]).
Proof.
  split; [apply stage2_wf|]. split; [apply stage2_wf|].
  destruct (unmatched_exclusions_are_noops heap2 (Some ctx2)
              (mkProps None None (Some [Plugin 7]) (Some (One refY))
                       (Some [replacing "zz" 0 None]))
              refX []
              [mkWrap (RenderFn 1) (replacing "a" 1 (Some pluginP1));
               mkWrap (RenderFn 2) (replacing "b" 2 (Some pluginP2))])
    as (child & h' & child0 & h0 & Hrun & Hrun0 & Hl);
    [apply stage2_wf | apply stage2_wf | vm_compute; reflexivity | | |].
  - intros Hin. apply list_elem_of_singleton in Hin. discriminate Hin.
  - repeat constructor.
  - exists child, h'. split; [exact Hrun|]. rewrite Hl.
    assert (E : Some (child0, h0) =
                AdaptationProvider (mkProps None None None None None) (Some ctx2) heap2)
      by (symmetry; exact Hrun0).
    vm_compute in E. injection E as -> ->. vm_compute. reflexivity.
Defined.

(** X8: interceptors are removed only by [reset] and [excludeComponents]:
    when the provider does not reset and does not name the reference in
    [excludeComponents], the parent's interceptors list is a prefix of the
    child's, whatever [excludePlugins], [exclude] and [adaptations] are. *)
Theorem interceptors_only_grow h parent props r pl cl :
  wf h → ctx_ok h parent →
  lists_of parent r h = Some (pl, cl) →
  default false (reset props) = false →
  id r ∉ excluded_ids (excludeComponents props) →
  ∃ child h' pl' cl',
    AdaptationProvider props parent h = Some (child, h') ∧
    lists_of (Some child) r h' = Some (pl', cl') ∧
    pl `prefix_of` pl'.
Proof.
  intros Hwf Hctx Hr Hreset Hnot.
  destruct (ctx_represents_exists h parent) as [R HR]; [apply Hwf | done |].
  destruct (extend_lists h parent props R Hwf HR)
    as (child & h' & Hrun & _ & _ & _ & Hp & Hc & _).
  rewrite Hp in Hr. injection Hr as Hr.
  exists child, h', (entry_spec props (id r) (pl, cl)).1, (entry_spec props (id r) (pl, cl)).2.
  split_and!; [done | by rewrite Hc, Hr, <- surjective_pairing |].
  unfold entry_spec. rewrite Hreset, bool_decide_eq_false_2 by done. cbv zeta.
  set (e2 := if truthy _ || truthy _ then _ else _).
  assert (He2 : pl `prefix_of` e2.1) by (subst e2; by destruct (truthy _ || truthy _)).
  clearbody e2. revert e2 He2.
  induction (declared props) as [|a l IH]; intros e2 He2; [done|].
  cbn [foldl]. apply IH. etrans; [exact He2|].
  unfold add_for. case_decide; [|done]. unfold add_adaptation. cbn [fst].
  destruct (spec_interceptProps (spec a)); [|done].
  destruct (has_key _ _); [done | by apply prefix_app_r].
Qed.

Lemma interceptors_only_grow_witness :
  wf heap3 ∧ ctx_ok heap3 (Some ctx3) ∧
  ∃ child h' pl' cl',
    AdaptationProvider
      (mkProps (Some (One (both "c" 5 None))) None (Some [pluginP1]) None
               (Some [both "a" 1 (Some pluginP1)]))
      (Some ctx3) heap3 = Some (child, h') ∧
    lists_of (Some child) refX h' = Some (pl', cl') ∧
    [mkWrap (InterceptFn 1) (both "a" 1 (Some pluginP1))] `prefix_of` pl'.
Proof.
  split; [apply stage3_wf|]. split; [apply stage3_wf|].
  apply (interceptors_only_grow heap3 (Some ctx3) _ refX
           [mkWrap (InterceptFn 1) (both "a" 1 (Some pluginP1))]
           [mkWrap (RenderFn 1) (both "a" 1 (Some pluginP1))]);
    [apply stage3_wf | apply stage3_wf | vm_compute; reflexivity | reflexivity |].
  intros Hin. apply elem_of_nil in Hin. destruct Hin.
Defined.

(** ** Deduplication list by list (lines 399 to 415) *)

(** X9: the two lists are deduplicated separately.  An adaptation carrying
    only an interceptor and a later one with the same key carrying only a
    replacement are both registered, each in its list: a key present in one
    list does not block the other list. *)
Theorem dedup_is_per_list h parent a1 a2 f x pl cl :
  wf h → ctx_ok h parent →
  lists_of parent (ref a1) h = Some (pl, cl) →
  key a2 = key a1 → id (ref a2) = id (ref a1) →
  spec a1 = mkSpec None (Some f) → spec a2 = mkSpec (Some x) None →
  has_key (key a1) pl = false → has_key (key a1) cl = false →
  ∃ child h',
    AdaptationProvider (declaring (Many [a1; a2])) parent h = Some (child, h') ∧
    lists_of (Some child) (ref a1) h' = Some (pl ++ [mkWrap f a1], cl ++ [mkWrap x a2]).
Proof.
  intros Hwf Hctx Hr Hkey Hid Hs1 Hs2 Hpl Hcl.
  destruct (ctx_represents_exists h parent) as [R HR]; [apply Hwf | done |].
  destruct (extend_lists h parent (declaring (Many [a1; a2])) R Hwf HR)
    as (child & h' & Hrun & _ & _ & _ & Hp & Hc & _).
  rewrite Hp in Hr. injection Hr as Hr.
  exists child, h'. split; [done|]. rewrite Hc, Hr. f_equal.
  change (entry_spec (declaring (Many [a1; a2])) (id (ref a1)) (pl, cl))
    with (add_for (id (ref a1)) (add_for (id (ref a1)) (pl, cl) a1) a2).
  unfold add_for. rewrite !decide_True by done.
  unfold add_adaptation. rewrite Hs1, Hs2, Hkey. cbn [fst snd spec_Adaptation spec_interceptProps].
  by rewrite Hpl, Hcl.
Qed.

Lemma dedup_is_per_list_witness :
  wf init_heap ∧ ctx_ok init_heap None ∧
  ∃ child h',
    AdaptationProvider
      (declaring (Many [mkAdaptation refX (mkSpec None (Some (InterceptFn 1))) "k" None;
                        mkAdaptation refX' (mkSpec (Some (RenderFn 2)) None) "k" None]))
      None init_heap = Some (child, h') ∧
    lists_of (Some child) refX h' =
      Some ([mkWrap (InterceptFn 1)
               (mkAdaptation refX (mkSpec None (Some (InterceptFn 1))) "k" None)],
            [mkWrap (RenderFn 2)
               (mkAdaptation refX' (mkSpec (Some (RenderFn 2)) None) "k" None)]).
Proof.
  split; [apply wf_init|]. split; [exact I|].
  apply (dedup_is_per_list init_heap None
           (mkAdaptation refX (mkSpec None (Some (InterceptFn 1))) "k" None)
           (mkAdaptation refX' (mkSpec (Some (RenderFn 2)) None) "k" None)
           (InterceptFn 1) (RenderFn 2) [] []);
    [apply wf_init | exact I | vm_compute; reflexivity | reflexivity | reflexivity
    | reflexivity | reflexivity | reflexivity | reflexivity].
Defined.

(** ** [ensureMapValue] (lines 432 to 448) *)

(** X10: [ensureMapValue(map, key)] on a [Map] of a well-formed store returns
    a value object that is bound to the key afterwards, so a second call
    returns the same object and changes nothing; the other keys keep their
    bindings and every object other than the map itself is unchanged.  If
    the key was bound, the bound object is returned and the store is left as
    it was; if not, the object is new and its two lists are empty. *)
Theorem ensureMapValue_ensures h m es k :
  heap_ok h → store h !! m = Some (OMap es) →
  ∃ v h',
    ensureMapValue m k h = Some (v, h') ∧
    Map_get m k h' = Some (Some v, h') ∧
    ensureMapValue m k h' = Some (v, h') ∧
    (∀ k', k' ≠ k → Map_get m k' h' = Some (entries_get k' es, h')) ∧
    (∀ l o, l ≠ m → store h !! l = Some o → store h' !! l = Some o) ∧
    match entries_get k es with
    | Some v0 => v = v0 ∧ h' = h
    | None => next h ≤ v ∧ read_entry v h' = Some (([], []), h')
    end.
Proof.
  intros Hok Hm.
  assert (Hget : ∀ h0 es0 k0, store h0 !! m = Some (OMap es0) →
                   Map_get m k0 h0 = Some (entries_get k0 es0, h0)).
  { intros h0 es0 k0 H0. munfold. by rewrite H0. }
  destruct (entries_get k es) as [v0|] eqn:Ek.
  - assert (Hrun : ensureMapValue m k h = Some (v0, h)).
    { unfold ensureMapValue. rewrite (bind_run _ _ _ _ _ (Hget h es k Hm)). by rewrite Ek. }
    exists v0, h. split_and!; try done.
    + by rewrite (Hget h es k Hm), Ek.
    + intros k' _. by apply Hget.
  - set (h1 := halloc (OInterceptors []) h).
    set (h2 := halloc (OComponents []) h1).
    set (h3 := halloc (OValue (mkValue (next h) (S (next h)))) h2).
    set (v := S (S (next h))).
    set (h4 := hwrite m (OMap (entries_set k v es)) h3).
    assert (Hok1 : heap_ok h1) by by apply heap_ok_alloc.
    assert (Hok2 : heap_ok h2) by by apply heap_ok_alloc.
    assert (Hps : store h2 !! next h = Some (OInterceptors [])).
    { apply halloc_lookup_some; [done | apply halloc_lookup_new]. }
    assert (Hcs : store h2 !! S (next h) = Some (OComponents [])).
    { apply (halloc_lookup_new _ h1). }
    assert (Hlt : m < next h) by (eapply ok_bound; eauto).
    assert (Hold : ∀ l o, store h !! l = Some o → store h3 !! l = Some o).
    { intros l o Hl. repeat (apply halloc_lookup_some; [done|]). done. }
    assert (Hm4 : store h4 !! m = Some (OMap (entries_set k v es)))
      by apply hwrite_lookup_eq.
    assert (Hrun : ensureMapValue m k h = Some (v, h4)).
    { unfold ensureMapValue. rewrite (bind_run _ _ _ _ _ (Hget h es k Hm)), Ek.
      munfold. cbn. fold h1 h2. change (next h1) with (S (next h)). fold h3.
      rewrite (Hold _ _ Hm). cbn. by rewrite (Hold _ _ Hm). }
    assert (Hk4 : Map_get m k h4 = Some (Some v, h4)).
    { rewrite (Hget h4 _ k Hm4), entries_get_set. by rewrite decide_True. }
    exists v, h4. split_and!; [done|done| | | | |].
    + unfold ensureMapValue. by rewrite (bind_run _ _ _ _ _ Hk4).
    + intros k' Hne. rewrite (Hget h4 _ k' Hm4), entries_get_set.
      by rewrite decide_False by done.
    + intros l o Hne Hl. unfold h4. rewrite hwrite_lookup_ne by done. by apply Hold.
    + unfold v; lia.
    + apply read_entry_run.
      exists (mkValue (next h) (S (next h))). cbn [fst snd propsInterceptors components].
      unfold h4. rewrite !hwrite_lookup_ne by (unfold v; lia).
      split_and!.
      * apply (halloc_lookup_new _ h2).
      * by apply halloc_lookup_some.
      * by apply halloc_lookup_some.
Qed.

Lemma ensureMapValue_ensures_witness :
  heap_ok heap1 ∧ store heap1 !! adaptationMap ctx1 = Some (OMap [("X", 6)]) ∧
  ∃ v h',
    ensureMapValue (adaptationMap ctx1) "Y" heap1 = Some (v, h') ∧
    Map_get (adaptationMap ctx1) "Y" h' = Some (Some v, h') ∧
    ensureMapValue (adaptationMap ctx1) "Y" h' = Some (v, h') ∧
    Map_get (adaptationMap ctx1) "X" h' = Some (Some 6, h').
Proof.
  assert (Hm : store heap1 !! adaptationMap ctx1 = Some (OMap [("X", 6)]))
    by (vm_compute; reflexivity).
  split; [apply stage1_wf|]. split; [exact Hm|].
  destruct (ensureMapValue_ensures heap1 (adaptationMap ctx1) [("X", 6)] "Y")
    as (v & h' & Hrun & Hget & Hagain & Hothers & _);
    [apply stage1_wf | exact Hm |].
  exists v, h'. split; [exact Hrun|]. split; [exact Hget|]. split; [exact Hagain|].
  apply (Hothers "X"). discriminate.
Defined.

(** ** [cloneAdaptationMap] (lines 366 to 381) *)

(** X11: [cloneAdaptationMap] copies deeply.  The new [Map] has the
    parent's references registered, each with the parent's two lists, and no
    object of the store that existed before is changed; the map, every value
    object in it and both arrays of every value object are objects created by
    the call, so a later [push] or assignment on the clone cannot reach the
    parent.  Without a parent the new map is empty. *)
Theorem cloneAdaptationMap_copies_deeply h parent :
  wf h → ctx_ok h parent →
  ∃ m h',
    cloneAdaptationMap (adaptationMap <$> parent) h = Some (m, h') ∧
    frame h h' ∧ next h ≤ m ∧
    (∀ r, lists_of (Some (mkContext m)) r h' = lists_of parent r h) ∧
    (∀ r, unregistered h' (Some (mkContext m)) r ↔ unregistered h parent r) ∧
    (∀ k v, Map_get m k h' = Some (Some v, h') →
            next h ≤ v ∧
            ∃ val, read_value v h' = Some (val, h') ∧
                   next h ≤ propsInterceptors val ∧ next h ≤ components val).
Proof.
  intros Hwf Hctx.
  destruct (ctx_represents_exists h parent) as [R HR]; [apply Hwf | done |].
  destruct (cloneAdaptationMap_spec h parent R (proj1 Hwf) HR)
    as (m & h' & sh & Hrun & HI & Habs).
  pose proof HI as [Hok' Hfr Hown Hm Hfresh].
  assert (Hwf' : wf h').
  { split; [done|]. eapply noAdaptations_frame; [apply Hwf | done | apply Hwf]. }
  assert (HR' : ctx_represents h' (Some (mkContext m)) R).
  { rewrite <- Habs. by eapply Inv_represents. }
  exists m, h'. split_and!; [done..| | |].
  - intros r. by rewrite (lists_of_run h' _ R r Hwf' HR'), (lists_of_run h _ R r Hwf HR).
  - intros r. by rewrite (unregistered_iff h' _ R r HR'), (unregistered_iff h _ R r HR).
  - intros k v Hget. munfold. unfold Map_get, Map_entries, bind, read, ret in Hget.
    rewrite Hm in Hget. injection Hget as Hget.
    apply entries_get_elem in Hget.
    apply list_elem_of_fmap in Hget as (c & E & Hc). injection E as -> ->.
    destruct (owned_elem _ _ _ _ Hown Hc) as [(Hv & _ & _) (Fv & Fp & Fc)].
    split; [done|]. exists (mkValue (c_ps c) (c_cs c)). rewrite Hv. done.
Qed.

Lemma cloneAdaptationMap_copies_deeply_witness :
  wf heap3 ∧ ctx_ok heap3 (Some ctx3) ∧
  ∃ m h',
    cloneAdaptationMap (Some (adaptationMap ctx3)) heap3 = Some (m, h') ∧
    lists_of (Some (mkContext m)) refX h' =
      Some ([mkWrap (InterceptFn 1) (both "a" 1 (Some pluginP1))],
            [mkWrap (RenderFn 1) (both "a" 1 (Some pluginP1))]) ∧
    ∃ v, Map_get m "X" h' = Some (Some v, h') ∧ next heap3 ≤ v.
Proof.
  split; [apply stage3_wf|]. split; [apply stage3_wf|].
  destruct (cloneAdaptationMap_copies_deeply heap3 (Some ctx3))
    as (m & h' & Hrun & _ & _ & Hlists & _ & Hfresh);
    [apply stage3_wf | apply stage3_wf |].
  exists m, h'. split; [exact Hrun|]. split.
  - rewrite Hlists. vm_compute. reflexivity.
  - assert (E : Some (m, h') = cloneAdaptationMap (Some (adaptationMap ctx3)) heap3)
      by (symmetry; exact Hrun).
    vm_compute in E. injection E as -> ->.
    exists 9. split; [vm_compute; reflexivity|].
    apply (Hfresh "X" 9). vm_compute. reflexivity.
Defined.

(** ** Providers side by side *)

(** X12: sibling providers do not see each other.  When a provider B runs
    after a sibling A under the same parent, B's registry holds the lists it
    would hold had A never run, and A's registry reads after B's run as it did
    before. *)
Theorem siblings_are_independent h parent pA pB :
  wf h → ctx_ok h parent →
  ∃ cA hA cB hB cB0 hB0,
    AdaptationProvider pA parent h = Some (cA, hA) ∧
    AdaptationProvider pB parent hA = Some (cB, hB) ∧
    AdaptationProvider pB parent h = Some (cB0, hB0) ∧
    (∀ r, lists_of (Some cB) r hB = lists_of (Some cB0) r hB0) ∧
    (∀ r, lists_of (Some cA) r hB = lists_of (Some cA) r hA).
Proof.
  intros Hwf Hctx.
  destruct (ctx_represents_exists h parent) as [R HR]; [apply Hwf | done |].
  destruct (AdaptationProvider_run h parent pA R Hwf HR)
    as (cA & hA & HrunA & HwfA & _ & HRA & HcA & _).
  destruct (extend_lists hA parent pB R HwfA HRA)
    as (cB & hB & HrunB & HwfB & _ & HfrB & _ & HlB & _).
  destruct (extend_lists h parent pB R Hwf HR)
    as (cB0 & hB0 & HrunB0 & _ & _ & _ & _ & HlB0 & _).
  exists cA, hA, cB, hB, cB0, hB0. split_and!; [done..| |].
  - intros r. by rewrite HlB, HlB0.
  - intros r.
    assert (HcA' : ctx_represents hB (Some cA) (extend_spec pA R)).
    { eapply (ctx_represents_frame hA hB (Some cA)); [apply HwfA | done | done]. }
    by rewrite (lists_of_run hB _ _ r HwfB HcA'), (lists_of_run hA (Some cA) _ r HwfA HcA).
Qed.

Lemma siblings_are_independent_witness :
  wf heap1 ∧ ctx_ok heap1 (Some ctx1) ∧
  ∃ cA hA cB hB,
    AdaptationProvider (mkProps None (Some true) None None None) (Some ctx1) heap1
      = Some (cA, hA) ∧
    AdaptationProvider (declaring (One (replacing "b" 2 None))) (Some ctx1) hA
      = Some (cB, hB) ∧
    lists_of (Some cB) refX hB =
      Some ([], [mkWrap (RenderFn 1) (replacing "a" 1 (Some pluginP1));
                 mkWrap (RenderFn 2) (replacing "b" 2 None)]) ∧
    lists_of (Some cA) refX hB = Some ([], []).
Proof.
  split; [apply stage1_wf|]. split; [apply stage1_wf|].
  destruct (siblings_are_independent heap1 (Some ctx1)
              (mkProps None (Some true) None None None)
              (declaring (One (replacing "b" 2 None))))
    as (cA & hA & cB & hB & cB0 & hB0 & HrunA & HrunB & HrunB0 & HlB & HlA);
    [apply stage1_wf | apply stage1_wf |].
  exists cA, hA, cB, hB. split; [exact HrunA|]. split; [exact HrunB|]. split.
  - rewrite HlB.
    assert (E : Some (cB0, hB0) =
                AdaptationProvider (declaring (One (replacing "b" 2 None))) (Some ctx1) heap1)
      by (symmetry; exact HrunB0).
    vm_compute in E. injection E as -> ->. vm_compute. reflexivity.
  - rewrite HlA.
    assert (E : Some (cA, hA) =
                AdaptationProvider (mkProps None (Some true) None None None) (Some ctx1) heap1)
      by (symmetry; exact HrunA).
    vm_compute in E. injection E as -> ->. vm_compute. reflexivity.
Defined.

(** ** The first revision (lines 1 to 188) *)

Lemma refKey_inj r1 r2 : refKey r1 = refKey r2 → ref_obj r1 = ref_obj r2.
Proof. unfold refKey. apply (inj pretty). Qed.

Lemma appendAdaptation_v1_spec h0 h m sh a :
  Inv h0 h m sh →
  ∃ h' sh', appendAdaptation_v1 m a h = Some (tt, h') ∧ Inv h0 h' m sh' ∧
            cell_abs <$> sh' = append_spec_v1 (cell_abs <$> sh) a.
Proof.
  intros HI. unfold appendAdaptation_v1, append_spec_v1.
  destruct (ensureMapValue_spec _ _ _ _ (refKey (ref a)) HI)
    as (h1 & sh1 & c & sh2 & Hrun1 & HI1 & Hk & Hcont & Hset).
  rewrite (bind_run _ _ _ _ _ Hrun1).
  destruct (append_component_spec _ _ _ _ _ _ a HI1) as (h2 & Hrun2 & HI2).
  rewrite (bind_run _ _ _ _ _ Hrun2).
  destruct (append_interceptor_spec _ _ _ _ _ _ a HI2) as (h3 & Hrun3 & HI3).
  cbn [c_key c_val c_ps c_cs c_pl c_cl] in *.
  eexists h3, _. split_and!; [exact Hrun3 | exact HI3 |].
  rewrite Hset, Hcont, fmap_app, fmap_cons. unfold cell_abs at 2. cbn.
  rewrite Hk. unfold add_adaptation. cbn [fst snd]. done.
Qed.

Lemma appendAdaptationMap_v1_spec h0 m l :
  ∀ h sh,
    Inv h0 h m sh →
    ∃ h' sh', appendAdaptationMap_v1 m l h = Some (tt, h') ∧ Inv h0 h' m sh' ∧
              cell_abs <$> sh' = foldl append_spec_v1 (cell_abs <$> sh) l.
Proof.
  unfold appendAdaptationMap_v1.
  induction l as [|a l IH]; intros h sh HI.
  - by exists h, sh.
  - cbn [forEach foldl].
    destruct (appendAdaptation_v1_spec _ _ _ _ a HI) as (h1 & sh1 & Hrun & HI1 & Habs).
    rewrite (bind_run _ _ _ _ _ Hrun).
    destruct (IH _ _ HI1) as (h' & sh' & Hrun' & HI' & Habs').
    exists h', sh'. split_and!; [done..|]. by rewrite Habs', Habs.
Qed.

Lemma AdaptationProvider_v1_run h ctx l R :
  wf h → ctx_represents h ctx R →
  ∃ child h',
    AdaptationProvider_v1 l ctx h = Some (child, h') ∧
    wf h' ∧ frame h h' ∧
    ctx_represents h' ctx R ∧
    ctx_represents h' (Some child) (foldl append_spec_v1 R (toArray l)).
Proof.
  intros [Hok Hna] HR. unfold AdaptationProvider_v1.
  destruct (cloneAdaptationMap_spec h ctx R Hok HR) as (m & h1 & sh1 & Hrun1 & HI1 & Habs1).
  rewrite (bind_run _ _ _ _ _ Hrun1).
  destruct (appendAdaptationMap_v1_spec h m (toArray l) h1 sh1 HI1)
    as (h2 & sh2 & Hrun2 & HI2 & Habs2).
  rewrite (bind_run _ _ _ _ _ Hrun2).
  exists (mkContext m), h2. pose proof HI2 as [Hok2 Hfr2 _ _ _].
  split_and!; [done| | done | |].
  - split; [done | exact (noAdaptations_frame h h2 Hok Hfr2 Hna)].
  - exact (ctx_represents_frame h h2 ctx R Hok Hfr2 HR).
  - cbn [ctx_represents adaptationMap]. rewrite <- Habs1, <- Habs2.
    by eapply Inv_represents.
Qed.

Lemma contents_foldl_append_v1 l : ∀ R k,
  contents (foldl append_spec_v1 R l) k = foldl (add_for_v1 k) (contents R k) l.
Proof.
  induction l as [|a l IH]; intros R k; [done|]. cbn [foldl].
  rewrite IH. f_equal. unfold append_spec_v1, add_for_v1, contents.
  rewrite entries_get_set. repeat case_decide; subst; done || congruence.
Qed.

Lemma lookup_v1_run h ctx R r :
  wf h → ctx_represents h ctx R →
  ∃ v, lookup_v1 ctx r h = Some ((v, contents R (refKey r)), h) ∧
       lists_of_v1 ctx r h = Some (contents R (refKey r)).
Proof.
  intros Hwf HR.
  destruct (lookup_run h ctx R (mkRef 0 (refKey r)) Hwf HR) as (_ & Hl & _).
  exists (lookup_loc h ctx (mkRef 0 (refKey r))).
  assert (E : lookup_v1 ctx r h = lookup ctx (mkRef 0 (refKey r)) h) by done.
  unfold lists_of_v1. rewrite E, Hl. done.
Qed.

Lemma foldl_add_for_v1_other k l : ∀ e,
  (∀ a, a ∈ l → refKey (ref a) ≠ k) → foldl (add_for_v1 k) e l = e.
Proof.
  induction l as [|a l IH]; intros e Hne; [done|]. cbn [foldl].
  rewrite IH.
  - unfold add_for_v1. rewrite decide_False; [done|].
    apply Hne, elem_of_cons. by left.
  - intros b Hb. apply Hne, elem_of_cons. by right.
Qed.

(** X13: in the first revision the registry is keyed by the reference
    object.  For every registry, the adaptations a provider declares are
    invisible through any reference object other than the ones they were
    declared for, even one carrying the same [id]: such a reference reads the
    same two lists in the child as in the parent; the reference object an
    adaptation was declared for does read its entry. *)
Theorem v1_keyed_by_reference_object h parent l :
  wf h → ctx_ok h parent →
  ∃ child h',
    AdaptationProvider_v1 l parent h = Some (child, h') ∧
    (∀ r, (∀ a, a ∈ toArray l → ref_obj (ref a) ≠ ref_obj r) →
          lists_of_v1 (Some child) r h' = lists_of_v1 parent r h) ∧
    (∀ a x pl cl,
        toArray l = [a] → spec_Adaptation (spec a) = Some x →
        lists_of_v1 parent (ref a) h = Some (pl, cl) → has_key (key a) cl = false →
        ∃ pl', lists_of_v1 (Some child) (ref a) h' = Some (pl', cl ++ [mkWrap x a])).
Proof.
  intros Hwf Hctx.
  destruct (ctx_represents_exists h parent) as [R HR]; [apply Hwf | done |].
  destruct (AdaptationProvider_v1_run h parent l R Hwf HR)
    as (child & h' & Hrun & Hwf' & _ & _ & Hc).
  exists child, h'. split_and!; [done| |].
  - intros r Hne.
    destruct (lookup_v1_run h parent R r Hwf HR) as (_ & _ & ->).
    destruct (lookup_v1_run h' (Some child) _ r Hwf' Hc) as (_ & _ & ->).
    f_equal. rewrite contents_foldl_append_v1.
    apply foldl_add_for_v1_other. intros a Ha E%refKey_inj. by apply (Hne a).
  - intros a x pl cl Hl Hx Hp Hk.
    destruct (lookup_v1_run h parent R (ref a) Hwf HR) as (_ & _ & Hp').
    rewrite Hp' in Hp. injection Hp as Hp.
    destruct (lookup_v1_run h' (Some child) _ (ref a) Hwf' Hc) as (_ & _ & ->).
    rewrite contents_foldl_append_v1, Hl, Hp. cbn [foldl].
    unfold add_for_v1. rewrite decide_True by done.
    exists (add_adaptation a (pl, cl)).1. f_equal.
    rewrite (surjective_pairing (add_adaptation a (pl, cl))) at 1.
    rewrite (add_adaptation_components a x) by done. cbn [snd]. by rewrite Hk.
Qed.

Lemma v1_keyed_by_reference_object_witness :
  wf init_heap ∧ ctx_ok init_heap None ∧ id refX' = id refX ∧
  ∃ child h',
    AdaptationProvider_v1 (One (replacing "a" 1 None)) None init_heap = Some (child, h') ∧
    lists_of_v1 (Some child) refX' h' = Some ([], []) ∧
    lists_of_v1 (Some child) refX h' =
      Some ([], [mkWrap (RenderFn 1) (replacing "a" 1 None)]).
Proof.
  split; [apply wf_init|]. split; [exact I|]. split; [reflexivity|].
  destruct (v1_keyed_by_reference_object init_heap None (One (replacing "a" 1 None)))
    as (child & h' & Hrun & Hother & Hsame); [apply wf_init | exact I |].
  exists child, h'. split; [exact Hrun|]. split.
  - rewrite Hother; [vm_compute; reflexivity|].
    intros a Ha. apply list_elem_of_singleton in Ha. subst a. discriminate.
  - destruct (Hsame (replacing "a" 1 None) (RenderFn 1) [] [])
      as (pl' & Hl); [reflexivity | reflexivity | vm_compute; reflexivity | reflexivity |].
    assert (E : Some (child, h') =
                AdaptationProvider_v1 (One (replacing "a" 1 None)) None init_heap)
      by (symmetry; exact Hrun).
    vm_compute in E. injection E as -> ->. vm_compute. reflexivity.
Defined.

(** X14: the provider of the first revision leaves its parent's registry
    alone as well: it runs on every well-formed store, every object that
    existed before the call is unchanged, and every reference reads, on the
    parent, the same object with the same two lists after the call as
    before. *)
Theorem v1_leaves_parent_unchanged h parent l :
  wf h → ctx_ok h parent →
  ∃ child h',
    AdaptationProvider_v1 l parent h = Some (child, h') ∧ frame h h' ∧
    ∀ r, ∃ v e, lookup_v1 parent r h = Some ((v, e), h) ∧
                lookup_v1 parent r h' = Some ((v, e), h').
Proof.
  intros Hwf Hctx.
  destruct (ctx_represents_exists h parent) as [R HR]; [apply Hwf | done |].
  destruct (AdaptationProvider_v1_run h parent l R Hwf HR)
    as (child & h' & Hrun & Hwf' & Hfr & HR' & _).
  exists child, h'. split_and!; [done..|]. intros r.
  destruct (lookup_run h parent R (mkRef 0 (refKey r)) Hwf HR) as (_ & Hl & _).
  destruct (lookup_run h' parent R (mkRef 0 (refKey r)) Hwf' HR') as (_ & Hl' & _).
  rewrite (lookup_loc_frame h h' parent) in Hl' by (apply Hwf || done).
  eexists _, _. split; [exact Hl | exact Hl'].
Qed.

Lemma v1_leaves_parent_unchanged_witness :
  wf init_heap ∧ ctx_ok init_heap None ∧
  ∃ c1 h1 c2 h2,
    AdaptationProvider_v1 (One (replacing "a" 1 None)) None init_heap = Some (c1, h1) ∧
    AdaptationProvider_v1 (One (replacing "b" 2 None)) (Some c1) h1 = Some (c2, h2) ∧
    lists_of_v1 (Some c1) refX h2 = Some ([], [mkWrap (RenderFn 1) (replacing "a" 1 None)]).
Proof.
  split; [apply wf_init|]. split; [exact I|].
  destruct (v1_leaves_parent_unchanged init_heap None (One (replacing "a" 1 None)))
    as (c1 & h1 & Hrun1 & _ & _); [apply wf_init | exact I |].
  assert (E : Some (c1, h1) =
              AdaptationProvider_v1 (One (replacing "a" 1 None)) None init_heap)
    by (symmetry; exact Hrun1).
  vm_compute in E. injection E as -> ->.
  eexists _, _, _, _. split; [exact Hrun1|]. split; vm_compute; reflexivity.
Defined.
